(** * WireLab: the circuit analysis engine of [wiring-app/src/App.js]

    A shallow embedding of the graph builders, the traversals, the
    meter functions, the cable-sizing rule and the wire-cut operation,
    followed by the properties proved about them.

    Conventions of the embedding.
    - A JS [Map] is a [gmap]: the code reads it with [get]/[has] only.
      A JS [Set] or array is a [list] in insertion order (a [Set]
      without repetitions, see [set_add]).
    - Identifiers, terminal families, component variants and conductor
      kinds are the strings the source uses.  [truthy] is the JS
      truthiness of a string: only the empty string is falsy.  An
      optional field ([undefined]/[null]) is an [option].
    - Numbers stored in records are rationals.  Computed numbers that
      may be [Infinity] or [NaN] are [JsNum].  Rounding of doubles is
      not modelled.
    - [while] loops and the recursive [dfs] take a fuel argument and
      return [None] when it runs out; the wrappers pass a fuel that is
      proved sufficient. *)

From Stdlib Require Import QArith Qround Lqa.
From stdpp Require Import gmap strings list fin_maps fin_sets.

#[local] Set Warnings "-clear-no-such-hyp".

(** ** JavaScript numbers and truthiness *)

Definition truthy (s : string) : bool := negb (String.eqb s "").

Definition truthy_opt (o : option string) : bool :=
  match o with Some s => truthy s | None => false end.

Definition Qltb (x y : Q) : bool := negb (Qle_bool y x).

Definition Qmax (x y : Q) : Q := if Qle_bool x y then y else x.
Definition Qmin (x y : Q) : Q := if Qle_bool x y then x else y.

(** Truthiness of a stored number: [0] is falsy. *)
Definition truthyQ (q : Q) : bool := negb (Qeq_bool q 0).

Inductive JsNum : Type :=
| Fin (q : Q)
| PInf
| NInf
| NaN.

Definition num_add (a b : JsNum) : JsNum :=
  match a, b with
  | NaN, _ | _, NaN => NaN
  | Fin x, Fin y => Fin (x + y)
  | PInf, NInf | NInf, PInf => NaN
  | PInf, _ | _, PInf => PInf
  | NInf, _ | _, NInf => NInf
  end.

Definition num_scale_inf (pos : bool) (q : Q) : JsNum :=
  if Qeq_bool q 0 then NaN
  else if Qltb 0 q then (if pos then PInf else NInf)
       else (if pos then NInf else PInf).

Definition num_mul (a b : JsNum) : JsNum :=
  match a, b with
  | NaN, _ | _, NaN => NaN
  | Fin x, Fin y => Fin (x * y)
  | PInf, Fin q | Fin q, PInf => num_scale_inf true q
  | NInf, Fin q | Fin q, NInf => num_scale_inf false q
  | PInf, PInf | NInf, NInf => PInf
  | PInf, NInf | NInf, PInf => NInf
  end.

(** [a < b] on JS numbers; any comparison with [NaN] is false. *)
Definition num_ltb (a b : JsNum) : bool :=
  match a, b with
  | Fin x, Fin y => Qltb x y
  | Fin _, PInf | NInf, Fin _ | NInf, PInf => true
  | _, _ => false
  end.

(** ** Constants *)

Module TerminalTypes.
Definition L := "L".
Definition N := "N".
Definition E := "E".
Definition COM := "COM".
Definition L1 := "L1".
Definition L2 := "L2".
Definition LIN := "LIN".
Definition LOUT := "LOUT".
Definition NIN := "NIN".
Definition NOUT := "NOUT".
Definition EIN := "EIN".
Definition EOUT := "EOUT".
End TerminalTypes.

Module ComponentTypes.
Definition SUPPLY := "SUPPLY".
Definition LAMP := "LAMP".
Definition SWITCH_1WAY := "SWITCH_1WAY".
Definition SWITCH_2WAY := "SWITCH_2WAY".
Definition SWITCH_INTERMEDIATE := "SWITCH_INTERMEDIATE".
Definition CONNECTOR_N3 := "CONNECTOR_N3".
Definition CONNECTOR_E3 := "CONNECTOR_E3".
Definition CONNECTOR_L3 := "CONNECTOR_L3".
Definition SOCKET_1G := "SOCKET_1G".
Definition SOCKET_2G := "SOCKET_2G".
Definition SOCKET_2G_SWITCHED := "SOCKET_2G_SWITCHED".
Definition SOCKET_RCD_1G := "SOCKET_RCD_1G".
Definition FCU_UNSWITCHED := "FCU_UNSWITCHED".
Definition FCU_SWITCHED := "FCU_SWITCHED".
Definition CONSUMER_UNIT := "CONSUMER_UNIT".
Definition JUNCTION := "JUNCTION".
Definition CONSUMER_UNIT_SPLIT := "CONSUMER_UNIT_SPLIT".
Definition CEILING_ROSE := "CEILING_ROSE".
Definition CCU_45A := "CCU_45A".
Definition OUTDOOR_SOCKET_RCD := "OUTDOOR_SOCKET_RCD".
Definition GARDEN_LIGHT := "GARDEN_LIGHT".
Definition EVSE_1P_7kW := "EVSE_1P_7kW".
Definition EVSE_3P_11_22kW := "EVSE_3P_11_22kW".
End ComponentTypes.

Module ConductorKinds.
Definition GEN := "GEN".
Definition L := "L".
Definition N := "N".
Definition E := "E".
End ConductorKinds.

Definition SYSTEM_V : Z := 230.

Definition LineTermTypes : list string :=
  [ TerminalTypes.L; TerminalTypes.LIN; TerminalTypes.LOUT;
    TerminalTypes.COM; TerminalTypes.L1; TerminalTypes.L2 ].
Definition NeutralTermTypes : list string :=
  [ TerminalTypes.N; TerminalTypes.NIN; TerminalTypes.NOUT ].
Definition EarthTermTypes : list string :=
  [ TerminalTypes.E; TerminalTypes.EIN; TerminalTypes.EOUT ].

Definition PX_PER_M : Q := 100.
Definition CONTACT_R : Q := 2 # 100.

(** [R_PER_M[conductorKey] ?? 0.02] *)
Definition R_PER_M (key : string) : Q :=
  if String.eqb key "L" then 2 # 100
  else if String.eqb key "N" then 2 # 100
  else if String.eqb key "E" then 3 # 100
  else 2 # 100.

(** [getRPerM]: the table [R_PER_M_BY_SIZE], [None] for [null]. *)
Definition getRPerM (s : Q) : option Q :=
  if Qeq_bool s 1 then Some (180 # 10000)
  else if Qeq_bool s (15 # 10) then Some (121 # 10000)
  else if Qeq_bool s (25 # 10) then Some (741 # 100000)
  else if Qeq_bool s 6 then Some (310 # 100000)
  else if Qeq_bool s 10 then Some (183 # 100000)
  else if Qeq_bool s 16 then Some (115 # 100000)
  else if Qeq_bool s 25 then Some (69 # 100000)
  else None.

(** ** Data model *)

Record Terminal : Type := mkTerminal {
  term_id : string;
  term_name : string;
  term_t : string;
  term_dx : Q;
  term_dy : Q
}.

Record WayState : Type := mkWay {
  way_closed : bool;
  way_rcbo : bool
}.

(** The mutable [state] object of a component; a variant reads only
    the fields it owns. *)
Record CompState : Type := mkState {
  st_on : bool;
  st_pos : Z;
  st_mainOn : bool;
  st_rcdAOn : bool;
  st_rcdBOn : bool;
  st_ways : list WayState
}.

Definition noState : CompState := mkState false 0 true true true [].

(** [internalLinks] is a function of the component (it reads
    [self.state]), an array of name pairs, or absent. *)
Inductive InternalLinks : Type :=
| LinksFn (f : CompState -> list (string * string))
| LinksArr (l : list (string * string))
| LinksNone.

Record Component : Type := mkComponent {
  comp_id : string;
  comp_type : string;
  comp_x : Q;
  comp_y : Q;
  comp_hidden : bool;
  comp_terminals : list Terminal;
  comp_state : CompState;
  comp_internalLinks : InternalLinks
}.

Record Wire : Type := mkWire {
  wire_id : string;
  wire_a : string;
  wire_b : string;
  wire_kind : string;
  wire_fault : option string;
  wire_sizeMm2 : option Q;
  wire_ampacityA : option Q;
  wire_cableType : option string;
  wire_label : option string;
  wire_lengthM : option Q;
  wire_switchedLive : bool
}.

(** ** Graph analysis helpers *)

Definition terminalById (components : list Component) (tid : string)
  : option (Component * Terminal) :=
  foldr (fun c rest =>
           match List.find (fun t => String.eqb (term_id t) tid) (comp_terminals c) with
           | Some t => Some (c, t)
           | None => rest
           end) None components.

Definition componentTerminalAbsPos (c : Component) (t : Terminal) : Q * Q :=
  (comp_x c + term_dx t, comp_y c + term_dy t)%Q.

Definition terminalAbsPosById (components : list Component) (tid : string) : option (Q * Q) :=
  match terminalById components tid with
  | None => None
  | Some (c, t) => Some (componentTerminalAbsPos c t)
  end.

Definition termByName (c : Component) (name : string) : option Terminal :=
  List.find (fun t => String.eqb (term_name t) name) (comp_terminals c).

Definition termIdByName (c : Component) (name : string) : option string :=
  term_id <$> termByName c name.

(** The links of a component as the builders read them: the function
    applied to the component, the array itself, or nothing. *)
Definition internalLinksOf (c : Component) : list (string * string) :=
  match comp_internalLinks c with
  | LinksFn f => f (comp_state c)
  | LinksArr l => l
  | LinksNone => []
  end.

Definition termTypeById (components : list Component) : gmap string string :=
  foldl (fun m c => foldl (fun m t => <[term_id t := term_t t]> m) m (comp_terminals c))
        ∅ components.

(** [allowedTermTypes.has(x)] where [x] may be [undefined]. *)
Definition has_opt (s : list string) (o : option string) : bool :=
  match o with Some x => bool_decide (x ∈ s) | None => false end.

(** [Set.prototype.add] on an insertion-ordered set. *)
Definition set_add (x : string) (s : list string) : list string :=
  if bool_decide (x ∈ s) then s else s ++ [x].

(** [if (!m.has(k)) m.set(k, empty)] *)
Definition ensure {A : Type} (m : gmap string (list A)) (k : string) : gmap string (list A) :=
  match m !! k with Some _ => m | None => <[k := []]> m end.

(** The local [add]/[addEdge] of [buildTypedSubgraph] and [buildAdjacency]. *)
Definition addEdge (m : gmap string (list string)) (a b : string) : gmap string (list string) :=
  let m := ensure m a in
  let m := ensure m b in
  let m := alter (set_add b) a m in
  alter (set_add a) b m.

(** The resolved terminal pairs of the internal links of [c] that
    pass [keep]; a pair whose names do not both resolve is skipped. *)
Definition linkPairs (keep : Terminal -> Terminal -> bool) (c : Component)
  : list (string * string) :=
  omap (fun '(n1, n2) =>
          match termByName c n1, termByName c n2 with
          | Some t1, Some t2 =>
              if keep t1 t2 then Some (term_id t1, term_id t2) else None
          | _, _ => None
          end) (internalLinksOf c).

Definition buildTypedSubgraph (components : list Component) (wires : list Wire)
    (allowedTermTypes : list string) : gmap string (list string) :=
  let tt := termTypeById components in
  let g := foldl (fun g w =>
                    if has_opt allowedTermTypes (tt !! wire_a w)
                       && has_opt allowedTermTypes (tt !! wire_b w)
                    then addEdge g (wire_a w) (wire_b w) else g) ∅ wires in
  foldl (fun g c =>
           foldl (fun g '(a, b) => addEdge g a b) g
                 (linkPairs (fun t1 t2 => bool_decide (term_t t1 ∈ allowedTermTypes)
                                          && bool_decide (term_t t2 ∈ allowedTermTypes)) c))
        g components.

Definition buildAdjacency (components : list Component) (wires : list Wire)
  : gmap string (list string) :=
  let adj := foldl (fun adj w => addEdge adj (wire_a w) (wire_b w)) ∅ wires in
  foldl (fun adj c =>
           foldl (fun adj '(a, b) => addEdge adj a b) adj
                 (linkPairs (fun _ _ => true) c))
        adj components.

(** ** Weighted graph *)

Definition num_div (a b : JsNum) : JsNum :=
  match a, b with
  | NaN, _ | _, NaN => NaN
  | Fin x, Fin y =>
      if Qeq_bool y 0 then num_scale_inf true x else Fin (x / y)
  | Fin _, PInf | Fin _, NInf => Fin 0
  | PInf, Fin q => if Qltb q 0 then NInf else PInf
  | NInf, Fin q => if Qltb q 0 then PInf else NInf
  | _, _ => NaN
  end.

Record Edge : Type := mkEdge {
  to : string;
  w : JsNum
}.

Section Geometry.
(** [Math.hypot] on two finite arguments.  Its value is a square
    root, so the embedding takes the function as given. *)
Variable hypot : Q -> Q -> Q.

Definition pxDistanceBetweenTerminals (components : list Component) (a b : string) : JsNum :=
  match terminalAbsPosById components a, terminalAbsPosById components b with
  | Some pa, Some pb => Fin (hypot (fst pa - fst pb) (snd pa - snd pb))
  | _, _ => PInf
  end.

(** The local [add] of [buildWeightedSubgraph]. *)
Definition addWeighted (g : gmap string (list Edge)) (a b : string) (rw : JsNum)
  : gmap string (list Edge) :=
  let g := ensure g a in
  let g := ensure g b in
  let g := alter (fun l => l ++ [mkEdge b rw]) a g in
  alter (fun l => l ++ [mkEdge a rw]) b g.

Definition kindMatches (conductorKey : string) (wr : Wire) : bool :=
  let k := if wire_switchedLive wr then ConductorKinds.L else wire_kind wr in
  String.eqb k ConductorKinds.GEN
  || (String.eqb conductorKey "L" && String.eqb k ConductorKinds.L)
  || (String.eqb conductorKey "N" && String.eqb k ConductorKinds.N)
  || (String.eqb conductorKey "E" && String.eqb k ConductorKinds.E).

Definition wireDistM (components : list Component) (wr : Wire) : JsNum :=
  match wire_lengthM wr with
  | Some l => if Qltb 0 l then Fin l
              else num_div (pxDistanceBetweenTerminals components (wire_a wr) (wire_b wr))
                           (Fin PX_PER_M)
  | None => num_div (pxDistanceBetweenTerminals components (wire_a wr) (wire_b wr))
                    (Fin PX_PER_M)
  end.

(** [(w.sizeMm2 && getRPerM(w.sizeMm2)) ?? (R_PER_M[conductorKey] ?? 0.02)] *)
Definition wireRPerM (conductorKey : string) (wr : Wire) : Q :=
  match wire_sizeMm2 wr with
  | None => R_PER_M conductorKey
  | Some s =>
      if truthyQ s
      then match getRPerM s with Some r => r | None => R_PER_M conductorKey end
      else s
  end.

Definition wireResistance (components : list Component) (conductorKey : string) (wr : Wire)
  : JsNum :=
  let rw := num_add (num_mul (wireDistM components wr) (Fin (wireRPerM conductorKey wr)))
                    (Fin (2 * CONTACT_R)) in
  if bool_decide (wire_fault wr = Some "hr") then num_add rw (Fin 1) else rw.

Definition wireIncluded (tt : gmap string string) (allowedTermTypes : list string)
    (conductorKey : string) (wr : Wire) : bool :=
  negb (bool_decide (wire_fault wr = Some "open"))
  && has_opt allowedTermTypes (tt !! wire_a wr)
  && has_opt allowedTermTypes (tt !! wire_b wr)
  && kindMatches conductorKey wr.

Definition buildWeightedSubgraph (components : list Component) (wires : list Wire)
    (allowedTermTypes : list string) (conductorKey : string) : gmap string (list Edge) :=
  let tt := termTypeById components in
  let g := foldl (fun g wr =>
                    if wireIncluded tt allowedTermTypes conductorKey wr
                    then addWeighted g (wire_a wr) (wire_b wr)
                                     (wireResistance components conductorKey wr)
                    else g) ∅ wires in
  foldl (fun g c =>
           foldl (fun g '(a, b) => addWeighted g a b (Fin CONTACT_R)) g
                 (linkPairs (fun t1 t2 => bool_decide (term_t t1 ∈ allowedTermTypes)
                                          && bool_decide (term_t t2 ∈ allowedTermTypes)) c))
        g components.
End Geometry.

(** ** Traversals *)

(** [g.get(v) || []] *)
Definition nbrs {A : Type} (g : gmap string (list A)) (v : string) : list A :=
  default [] (g !! v).

(** [g.has(v)] *)
Definition hasKey {A : Type} (g : gmap string A) (v : string) : bool :=
  bool_decide (is_Some (g !! v)).

(** Every identifier that occurs in a graph, as a key or as a
    neighbour.  It bounds the number of iterations of the loops. *)
Definition graphNodes {A : Type} (proj : A -> string) (g : gmap string (list A)) : gset string :=
  dom g ∪ ⋃ ((fun kv => list_to_set (proj <$> kv.2)) <$> map_to_list g).

Definition loopFuel {A : Type} (proj : A -> string) (g : gmap string (list A))
    (startId : string) : nat :=
  S (size (graphNodes proj g ∪ {[startId]})).

(** *** [bfs] *)

Definition bfs_visit (st : list string * list string) (nxt : string)
  : list string * list string :=
  if bool_decide (nxt ∈ st.1) then st else (st.1 ++ [nxt], st.2 ++ [nxt]).

Fixpoint bfs_loop (fuel : nat) (adj : gmap string (list string))
    (visited q : list string) : option (list string) :=
  match q with
  | [] => Some visited
  | v :: q' =>
      match fuel with
      | O => None
      | S fuel' =>
          let st := foldl bfs_visit (visited, q') (nbrs adj v) in
          bfs_loop fuel' adj st.1 st.2
      end
  end.

Definition bfs (adj : gmap string (list string)) (startId : string) : list string :=
  default [] (bfs_loop (loopFuel id adj startId) adj [startId] [startId]).

(** *** [bfsSet]

    The neighbour collection holds strings (typed graph) or edge
    objects (weighted graph); [edge_target] is the [u] the loop
    extracts from an element. *)

Class EdgeLike (A : Type) := edge_target : A -> string.
#[export] Instance string_EdgeLike : EdgeLike string := fun s => s.
#[export] Instance Edge_EdgeLike : EdgeLike Edge := to.

Definition bfsSet_visit {A : Type} `{EdgeLike A} (st : list string * list string) (edge : A)
  : list string * list string :=
  let u := edge_target edge in
  if truthy u && negb (bool_decide (u ∈ st.1))
  then (st.1 ++ [u], st.2 ++ [u]) else st.

Fixpoint bfsSet_loop {A : Type} `{EdgeLike A} (fuel : nat) (g : gmap string (list A))
    (seen q : list string) : option (list string) :=
  match q with
  | [] => Some seen
  | v :: q' =>
      match fuel with
      | O => None
      | S fuel' =>
          let st := foldl bfsSet_visit (seen, q') (nbrs g v) in
          bfsSet_loop fuel' g st.1 st.2
      end
  end.

Definition bfsSet {A : Type} `{EdgeLike A} (g : gmap string (list A)) (startId : string)
  : list string :=
  if negb (truthy startId) || negb (hasKey g startId) then []
  else default [] (bfsSet_loop (loopFuel edge_target g startId) g [startId] [startId]).

(** *** [hasCycleThrough]

    The state of the inner [dfs] is the [visited] set and the [cycle]
    flag, both captured variables in the source. *)

Fixpoint dfs (fuel : nat) (g : gmap string (list Edge)) (v : string) (parent : option string)
    (st : list string * bool) : option (list string * bool) :=
  match fuel with
  | O => None
  | S fuel' =>
      foldl (fun acc e =>
               match acc with
               | None => None
               | Some st =>
                   let u := to e in
                   if bool_decide (parent = Some u) then Some st
                   else if bool_decide (u ∈ st.1) then Some (st.1, true)
                   else dfs fuel' g u (Some v) st
               end)
            (Some (set_add v st.1, st.2)) (nbrs g v)
  end.

Definition hasCycleThrough_run (g : gmap string (list Edge)) (startId : string)
  : option (list string * bool) :=
  if truthy startId && hasKey g startId
  then dfs (loopFuel to g startId) g startId None ([], false)
  else Some ([], false).

Definition hasCycleThrough (g : gmap string (list Edge)) (startId : string) : bool :=
  match hasCycleThrough_run g startId with
  | Some st => st.2
  | None => false
  end.

(** *** [dijkstraWeighted] *)

Record PathResult : Type := mkPathResult {
  R : JsNum;
  path : option (list string)
}.

(** [dist.get(v) ?? Infinity] *)
Definition distOf (dist : gmap string JsNum) (v : string) : JsNum :=
  default PInf (dist !! v).

(** The "extract min" scan: the first element of [pq] whose distance
    is strictly below every earlier one, [None] for the initial [null]. *)
Definition extractMin (dist : gmap string JsNum) (pq : list string) : option string * JsNum :=
  foldl (fun ub v =>
           let d := distOf dist v in
           if num_ltb d ub.2 then (Some v, d) else ub)
        (None, PInf) pq.

(** [pq.delete(u)] *)
Definition set_delete (u : string) (s : list string) : list string :=
  filter (fun x => x ≠ u) s.

Definition relax (u : string)
    (st : gmap string JsNum * gmap string string * list string) (e : Edge)
  : gmap string JsNum * gmap string string * list string :=
  let '(dist, prev, pq) := st in
  let alt := num_add (distOf dist u) (w e) in
  if num_ltb alt (distOf dist (to e))
  then (<[to e := alt]> dist, <[to e := u]> prev, set_add (to e) pq)
  else st.

(** The [while (pq.size)] loop.  When the scan leaves [u = null]
    nothing is removed from [pq] and the loop never ends. *)
Fixpoint dijkstra_loop (fuel : nat) (g : gmap string (list Edge)) (goal : string)
    (dist : gmap string JsNum) (prev : gmap string string) (pq : list string)
  : option (gmap string JsNum * gmap string string) :=
  match pq with
  | [] => Some (dist, prev)
  | _ :: _ =>
      match fuel with
      | O => None
      | S fuel' =>
          match (extractMin dist pq).1 with
          | None => None
          | Some u =>
              let pq' := set_delete u pq in
              if String.eqb u goal then Some (dist, prev)
              else
                let '(dist', prev', pq'') := foldl (relax u) (dist, prev, pq') (nbrs g u) in
                dijkstra_loop fuel' g goal dist' prev' pq''
          end
      end
  end.

(** The path rebuild loop, from [goal] along [prev]; [acc] is [path]
    in push order. *)
Fixpoint rebuildPath (fuel : nat) (prev : gmap string string) (start v : string)
    (acc : list string) : option (list string) :=
  match fuel with
  | O => None
  | S fuel' =>
      let acc := acc ++ [v] in
      if String.eqb v start then Some acc
      else match prev !! v with
           | None => Some acc
           | Some v' => rebuildPath fuel' prev start v' acc
           end
  end.

Definition dijkstraWeighted (g : gmap string (list Edge)) (start goal : string)
  : option PathResult :=
  if negb (truthy start) || negb (truthy goal)
     || negb (hasKey g start) || negb (hasKey g goal)
  then Some (mkPathResult PInf None)
  else
    match dijkstra_loop (loopFuel to g start) g goal {[start := Fin 0]} ∅ [start] with
    | None => None
    | Some (dist, prev) =>
        match dist !! goal with
        | None => Some (mkPathResult PInf None)
        | Some d =>
            match rebuildPath (S (size dist)) prev start goal [] with
            | None => None
            | Some p => Some (mkPathResult d (Some (reverse p)))
            end
        end
    end.

(** ** Meter: resistance and voltage *)

Section Meter.
Variable hypot : Q -> Q -> Q.

Record Resistances : Type := mkResistances {
  res_L : JsNum;
  res_N : JsNum;
  res_E : JsNum
}.

(** [measureResistance]; [None] when one of the three searches does
    not end. *)
Definition measureResistance (components : list Component) (wires : list Wire)
    (a b : string) : option Resistances :=
  rl ← dijkstraWeighted (buildWeightedSubgraph hypot components wires LineTermTypes "L") a b;
  rn ← dijkstraWeighted (buildWeightedSubgraph hypot components wires NeutralTermTypes "N") a b;
  re ← dijkstraWeighted (buildWeightedSubgraph hypot components wires EarthTermTypes "E") a b;
  Some (mkResistances (R rl) (R rn) (R re)).
End Meter.

(** [x || y] on optional strings *)
Definition or_else (x y : option string) : option string :=
  match x with
  | Some s => if truthy s then Some s else y
  | None => y
  end.

(** [components.find(c => c.type === SUPPLY) || components.find(c => CU or split CU)] *)
Definition findReference (components : list Component) : option Component :=
  match List.find (fun c => String.eqb (comp_type c) ComponentTypes.SUPPLY) components with
  | Some c => Some c
  | None =>
      List.find (fun c => String.eqb (comp_type c) ComponentTypes.CONSUMER_UNIT
                          || String.eqb (comp_type c) ComponentTypes.CONSUMER_UNIT_SPLIT)
                components
  end.

(** [terminalById(components, termIdByName(supply, name) ||
     supply.terminals.find(t => t.t === ty)?.id)?.term?.id] *)
Definition referenceTerminal (components : list Component) (supply : Component)
    (name ty : string) : option string :=
  match or_else (termIdByName supply name)
                (term_id <$> List.find (fun t => String.eqb (term_t t) ty)
                                       (comp_terminals supply)) with
  | None => None
  | Some tid => (fun ct => term_id ct.2) <$> terminalById components tid
  end.

(** [s ? bfsSet(g, s) : new Set()] *)
Definition reachFromOpt (g : gmap string (list string)) (s : option string) : list string :=
  match s with
  | Some sid => if truthy sid then bfsSet g sid else []
  | None => []
  end.

Definition nodeV (rL rN rE : list string) (tid : string) : option Z :=
  if bool_decide (tid ∈ rL) then Some SYSTEM_V
  else if bool_decide (tid ∈ rN) || bool_decide (tid ∈ rE) then Some 0%Z
  else None.

Record VoltageReading : Type := mkVoltageReading {
  Va : option Z;
  Vb : option Z;
  Vab : option Z
}.

(** The three reachable sets [rL], [rN], [rE] of [measureVoltage]. *)
Definition voltageReach (components : list Component) (wires : list Wire) (supply : Component)
  : list string * list string * list string :=
  let supplyL := referenceTerminal components supply "L" TerminalTypes.L in
  let supplyN := referenceTerminal components supply "N" TerminalTypes.N in
  let supplyE := referenceTerminal components supply "E" TerminalTypes.E in
  let gL := buildTypedSubgraph components wires LineTermTypes in
  let gN := buildTypedSubgraph components wires NeutralTermTypes in
  let gE := buildTypedSubgraph components wires EarthTermTypes in
  (reachFromOpt gL supplyL, reachFromOpt gN supplyN, reachFromOpt gE supplyE).

Definition measureVoltage (components : list Component) (wires : list Wire) (a b : string)
  : option VoltageReading :=
  match findReference components with
  | None => None
  | Some supply =>
      let '(rL, rN, rE) := voltageReach components wires supply in
      let va := nodeV rL rN rE a in
      let vb := nodeV rL rN rE b in
      match va, vb with
      | Some x, Some y => Some (mkVoltageReading va vb (Some (Z.abs (x - y))))
      | _, _ => Some (mkVoltageReading va vb None)
      end
  end.

(** ** Simulation and checks: the shorts and ring part of [analysis] *)

Record Short : Type := mkShort {
  between : string;
  short_path : bool
}.

Record Ring : Type := mkRing {
  ring_L : bool;
  ring_N : bool;
  ring_E : bool
}.

Record Analysis : Type := mkAnalysis {
  shorts : list Short;
  neShort : bool;
  ring : option Ring
}.

(** [reachL.has(x)] where [x] may be [undefined]. *)
Definition has_id (s : list string) (o : option string) : bool :=
  match o with Some x => bool_decide (x ∈ s) | None => false end.

(** [supplyX ? bfs(adj, supplyX) : new Set()] *)
Definition reachFrom (adj : gmap string (list string)) (s : option string) : list string :=
  match s with
  | Some sid => if truthy sid then bfs adj sid else []
  | None => []
  end.

(** [hasCycleThrough(g, supplyX)] where [supplyX] may be [undefined]. *)
Definition ringThrough (g : gmap string (list Edge)) (s : option string) : bool :=
  match s with
  | Some sid => hasCycleThrough g sid
  | None => false
  end.

Section Analysis.
Variable hypot : Q -> Q -> Q.

Definition analysis (components : list Component) (wires : list Wire) : Analysis :=
  match List.find (fun c => String.eqb (comp_type c) ComponentTypes.SUPPLY) components with
  | None => mkAnalysis [] false None
  | Some supply =>
      let supplyL := termIdByName supply "L" in
      let supplyN := termIdByName supply "N" in
      let supplyE := termIdByName supply "E" in
      let adj := buildAdjacency components wires in
      let reachL := reachFrom adj supplyL in
      let reachN := reachFrom adj supplyN in
      let shorts0 :=
        if truthy_opt supplyL && has_id reachL supplyN
        then [mkShort "L–N" true] else [] in
      let shorts1 :=
        if truthy_opt supplyL && has_id reachL supplyE
        then shorts0 ++ [mkShort "L–E" true] else shorts0 in
      let ne := truthy_opt supplyN && has_id reachN supplyE in
      let gLw := buildWeightedSubgraph hypot components wires LineTermTypes "L" in
      let gNw := buildWeightedSubgraph hypot components wires NeutralTermTypes "N" in
      let gEw := buildWeightedSubgraph hypot components wires EarthTermTypes "E" in
      mkAnalysis shorts1 ne
                 (Some (mkRing (ringThrough gLw supplyL) (ringThrough gNw supplyN)
                               (ringThrough gEw supplyE)))
  end.
End Analysis.

(** ** Cable sizing *)

Definition isOneOf (x : string) (l : list string) : bool := bool_decide (x ∈ l).

(** Region-aware per-terminal minimum CSA. *)
Definition requiredCSAForTerminal (comp : Component) (term : Terminal) (region : string) : Q :=
  let isE := isOneOf (term_t term) EarthTermTypes in
  let isLN := isOneOf (term_t term) LineTermTypes || isOneOf (term_t term) NeutralTermTypes in
  if negb isE && negb isLN then 0%Q
  else
    let UK := String.eqb region "UK" in
    let LIGHT_LN := (if UK then 1 else 15 # 10)%Q in
    let LIGHT_E := (if UK then 1 else 15 # 10)%Q in
    let supplyPin := String.eqb (term_name term) "L" || String.eqb (term_name term) "N"
                     || String.eqb (term_name term) "E" in
    let ty := comp_type comp in
    if isOneOf ty [ComponentTypes.SOCKET_1G; ComponentTypes.SOCKET_2G;
                   ComponentTypes.SOCKET_2G_SWITCHED; ComponentTypes.SOCKET_RCD_1G;
                   ComponentTypes.OUTDOOR_SOCKET_RCD]
    then (if isE then 15 # 10 else 25 # 10)%Q
    else if isOneOf ty [ComponentTypes.FCU_UNSWITCHED; ComponentTypes.FCU_SWITCHED]
    then (if isE then 15 # 10 else 25 # 10)%Q
    else if String.eqb ty ComponentTypes.CCU_45A
    then (if isE then 25 # 10 else 6)%Q
    else if String.eqb ty ComponentTypes.EVSE_1P_7kW
    then (if isE then 25 # 10 else 6)%Q
    else if String.eqb ty ComponentTypes.EVSE_3P_11_22kW
    then (if isE then 6 else 10)%Q
    else if isOneOf ty [ComponentTypes.LAMP; ComponentTypes.CEILING_ROSE;
                        ComponentTypes.GARDEN_LIGHT; ComponentTypes.SWITCH_1WAY;
                        ComponentTypes.SWITCH_2WAY; ComponentTypes.SWITCH_INTERMEDIATE]
    then (if isE then LIGHT_E else LIGHT_LN)
    else if String.eqb ty ComponentTypes.SUPPLY
    then (if UK then (if isE then 16 else 25) else 0)%Q
    else if isOneOf ty [ComponentTypes.CONSUMER_UNIT; ComponentTypes.CONSUMER_UNIT_SPLIT]
    then (if UK && supplyPin
          then (if String.eqb (term_name term) "E" then 16 else 25)%Q
          else 0%Q)
    else 0%Q.

Definition wireRequiredMinCSA (components : list Component) (wr : Wire) (region : string) : Q :=
  match terminalById components (wire_a wr), terminalById components (wire_b wr) with
  | Some ta, Some tb =>
      let ra := requiredCSAForTerminal ta.1 ta.2 region in
      let rb := requiredCSAForTerminal tb.1 tb.2 region in
      let req := Qmax (Qmax ra rb) 0%Q in
      if String.eqb region "UK"
         && bool_decide (wire_cableType wr = Some "Bonding")
         && String.eqb (wire_kind wr) ConductorKinds.E
      then Qmax req 10%Q else req
  | _, _ => 0%Q
  end.

Definition EPSILON : Q := 1 # 1000000.

(** [region] is the optional third argument, [UK] when omitted. *)
Definition isWireUndersized (components : list Component) (wr : Wire) (region : option string)
  : bool :=
  let region := default "UK" region in
  let req := wireRequiredMinCSA components wr region in
  match wire_sizeMm2 wr with
  | None => false
  | Some size =>
      if negb (truthyQ size) || negb (truthyQ req) then false
      else Qltb (size + EPSILON)%Q req
  end.

(** ** Wire cutting *)

Record Projection : Type := mkProjection {
  proj_x : Q;
  proj_y : Q;
  proj_t : Q
}.

Definition projectPointOnSegment (point segA segB : Q * Q) : Projection :=
  let ABx := (segB.1 - segA.1)%Q in
  let ABy := (segB.2 - segA.2)%Q in
  let APx := (point.1 - segA.1)%Q in
  let APy := (point.2 - segA.2)%Q in
  let ab2 := (ABx * ABx + ABy * ABy)%Q in
  if Qeq_bool ab2 0 then mkProjection segA.1 segA.2 0%Q
  else
    let t := Qmax 0 (Qmin 1 ((APx * ABx + APy * ABy) / ab2))%Q in
    mkProjection (segA.1 + t * ABx)%Q (segA.2 + t * ABy)%Q t.

(** [Math.hypot(dx, dy) < tol], decided on the squares: the two sides
    of the comparison are non-negative exactly when [0 < tol]. *)
Definition hypot_ltb (dx dy tol : Q) : bool :=
  Qltb 0 tol && Qltb (dx * dx + dy * dy)%Q (tol * tol)%Q.

Record CutOptions : Type := mkCutOptions {
  snapTolerance : option Q;
  createVisibleJunction : option bool
}.

Record CutResult : Type := mkCutResult {
  junction : Component;
  removedWireId : string;
  newWires : Wire * Wire
}.

Definition mapKindToTerm (k : string) : option string :=
  if String.eqb k ConductorKinds.L then Some TerminalTypes.L
  else if String.eqb k ConductorKinds.N then Some TerminalTypes.N
  else if String.eqb k ConductorKinds.E then Some TerminalTypes.E
  else None.

(** [{...wire, id, b}] and [{...wire, id, a}] *)
Definition withIdB (wr : Wire) (id b : string) : Wire :=
  mkWire id (wire_a wr) b (wire_kind wr) (wire_fault wr) (wire_sizeMm2 wr)
         (wire_ampacityA wr) (wire_cableType wr) (wire_label wr) (wire_lengthM wr)
         (wire_switchedLive wr).
Definition withIdA (wr : Wire) (id a : string) : Wire :=
  mkWire id a (wire_b wr) (wire_kind wr) (wire_fault wr) (wire_sizeMm2 wr)
         (wire_ampacityA wr) (wire_cableType wr) (wire_label wr) (wire_lengthM wr)
         (wire_switchedLive wr).

Section Cutting.
(** [newId()] draws from [Math.random]; the embedding threads the
    position in the sequence [rnd] of identifiers it yields. *)
Variable rnd : nat -> string.

Definition Gen (A : Type) : Type := nat -> A * nat.
Definition gret {A : Type} (x : A) : Gen A := fun n => (x, n).
Definition gbind {A B : Type} (m : Gen A) (k : A -> Gen B) : Gen B :=
  fun n => let '(x, n') := m n in k x n'.
Definition newId : Gen string := fun n => (rnd n, S n).

Notation "'let*' x ':=' m 'in' k" := (gbind m (fun x => k))
  (at level 10, x name, m at level 100, k at level 200).

Definition cutWireAt (components : list Component) (wire : Wire) (point : Q * Q)
    (options : CutOptions) : Gen (option CutResult) :=
  let snapTol := default 8%Q (snapTolerance options) in
  let visible := default false (createVisibleJunction options) in
  match terminalById components (wire_a wire), terminalById components (wire_b wire) with
  | Some a, Some b =>
      let pa := componentTerminalAbsPos a.1 a.2 in
      let pb := componentTerminalAbsPos b.1 b.2 in
      if hypot_ltb (point.1 - pa.1)%Q (point.2 - pa.2)%Q snapTol
         || hypot_ltb (point.1 - pb.1)%Q (point.2 - pb.2)%Q snapTol
      then gret None
      else
        let projection := projectPointOnSegment point pa pb in
        let terminalType :=
          default TerminalTypes.L
                  (or_else (Some (term_t a.2)) (or_else (mapKindToTerm (wire_kind wire)) None)) in
        let* junctionId := newId in
        let* terminal1Id := newId in
        let* terminal2Id := newId in
        let junction :=
          mkComponent junctionId ComponentTypes.JUNCTION
                      (proj_x projection) (proj_y projection) (negb visible)
                      [ mkTerminal terminal1Id (terminalType +:+ "1") terminalType (-2)%Q 0%Q;
                        mkTerminal terminal2Id (terminalType +:+ "2") terminalType 2%Q 0%Q ]
                      noState
                      (LinksArr [(terminalType +:+ "1", terminalType +:+ "2")]) in
        let* id1 := newId in
        let* id2 := newId in
        let wire1 := withIdB wire id1 terminal1Id in
        let wire2 := withIdA wire id2 terminal2Id in
        gret (Some (mkCutResult junction (wire_id wire) (wire1, wire2)))
  | _, _ => gret None
  end.

(** The scissors handler once the target wire is known: the cut is
    applied to the two collections only when [cutWireAt] succeeds. *)
Definition applyScissors (components : list Component) (wires : list Wire)
    (targetWire : Wire) (p : Q * Q) : Gen (list Component * list Wire) :=
  let* cutResult := cutWireAt components targetWire p (mkCutOptions None (Some false)) in
  match cutResult with
  | Some res =>
      gret (components ++ [junction res],
            filter (fun x => wire_id x ≠ removedWireId res) wires
              ++ [ (newWires res).1; (newWires res).2 ])
  | None => gret (components, wires)
  end.
End Cutting.

(** ** Specification vocabulary

    The edges a builder inserts, listed in insertion order, and the
    neighbour and reachability relations of a graph. *)

Definition addEdgePair (g : gmap string (list string)) (e : string * string)
  : gmap string (list string) :=
  addEdge g e.1 e.2.

Definition typedLinkKeep (allowedTermTypes : list string) (t1 t2 : Terminal) : bool :=
  bool_decide (term_t t1 ∈ allowedTermTypes) && bool_decide (term_t t2 ∈ allowedTermTypes).

Definition typedEdges (components : list Component) (wires : list Wire)
    (allowedTermTypes : list string) : list (string * string) :=
  omap (fun wr =>
          if has_opt allowedTermTypes (termTypeById components !! wire_a wr)
             && has_opt allowedTermTypes (termTypeById components !! wire_b wr)
          then Some (wire_a wr, wire_b wr) else None) wires
  ++ (components ≫= linkPairs (typedLinkKeep allowedTermTypes)).

Definition adjacencyEdges (components : list Component) (wires : list Wire)
  : list (string * string) :=
  ((fun wr => (wire_a wr, wire_b wr)) <$> wires)
  ++ (components ≫= linkPairs (fun _ _ => true)).

(** [y] is a neighbour of [x]. *)
Definition adjacent {A : Type} `{EdgeLike A} (g : gmap string (list A)) (x y : string) : Prop :=
  y ∈ (edge_target <$> nbrs g x).

(** [y] can be reached from [x] along edges of [g]. *)
Definition connected {A : Type} `{EdgeLike A} (g : gmap string (list A)) : relation string :=
  rtc (adjacent g).

Definition addWeightedEdge (g : gmap string (list Edge)) (e : string * string * JsNum)
  : gmap string (list Edge) :=
  addWeighted g e.1.1 e.1.2 e.2.

Definition weightedEdges (hypot : Q -> Q -> Q) (components : list Component)
    (wires : list Wire) (allowedTermTypes : list string) (conductorKey : string)
  : list (string * string * JsNum) :=
  omap (fun wr =>
          if wireIncluded (termTypeById components) allowedTermTypes conductorKey wr
          then Some (wire_a wr, wire_b wr, wireResistance hypot components conductorKey wr)
          else None) wires
  ++ ((fun p => (p, Fin CONTACT_R))
        <$> (components ≫= linkPairs (typedLinkKeep allowedTermTypes))).

(** What one inserted edge appends to the neighbour array of [x]. *)
Definition contrib (x : string) (e : string * string * JsNum) : list Edge :=
  (if decide (e.1.1 = x) then [mkEdge e.1.2 e.2] else [])
  ++ (if decide (e.1.2 = x) then [mkEdge e.1.1 e.2] else []).

(** The number of entries of [x]'s neighbour array that point to [y]. *)
Definition mult (g : gmap string (list Edge)) (x y : string) : nat :=
  length (filter (fun e => to e = y) (nbrs g x)).

(** An executable stand-in for [Math.hypot], used where an example
    needs a concrete function: the square root of [dx² + dy²] rounded
    down to six decimals. *)
Definition hypotApprox (dx dy : Q) : Q :=
  let s := (dx * dx + dy * dy)%Q in
  Qmake (Z.sqrt (Qnum s * 1000000000000 / Zpos (Qden s))) 1000000.

(** The invariant of the [bfs] loop and what holds of its result. *)
Definition bfs_inv (adj : gmap string (list string)) (s : string) (vis q : list string) : Prop :=
  s ∈ vis
  ∧ (forall x, x ∈ q -> x ∈ vis)
  ∧ (forall x, x ∈ vis -> connected adj s x)
  ∧ (forall x, x ∈ vis -> x ∉ q -> forall y, y ∈ nbrs adj x -> y ∈ vis).

Definition bfs_post (adj : gmap string (list string)) (s : string) (r : list string) : Prop :=
  s ∈ r
  ∧ (forall x, x ∈ r -> connected adj s x)
  ∧ (forall x, x ∈ r -> forall y, y ∈ nbrs adj x -> y ∈ r).

(** ** Example circuits *)

Module Examples.
Definition term (id name t : string) (dx dy : Q) : Terminal := mkTerminal id name t dx dy.

(** [makeSupply] and [makeLamp] with the identifiers made explicit. *)
Definition supply : Component :=
  mkComponent "sup" ComponentTypes.SUPPLY 0 0 false
    [ term "sL" "L" "L" 10 10; term "sN" "N" "N" 10 40; term "sE" "E" "E" 10 70 ]
    noState (LinksArr []).
Definition lamp : Component :=
  mkComponent "lamp" ComponentTypes.LAMP 200 0 false
    [ term "lL" "L" "L" 10 10; term "lN" "N" "N" 10 40; term "lE" "E" "E" 10 70 ]
    noState (LinksArr []).

(** Two earth connector blocks ([makeConnectorE3]). *)
Definition blockE (id t1 t2 t3 : string) (x : Q) : Component :=
  mkComponent id ComponentTypes.CONNECTOR_E3 x 0 false
    [ term t1 "E1" "E" 10 18; term t2 "E2" "E" 10 48; term t3 "E3" "E" 10 78 ]
    noState (LinksArr [("E1", "E2"); ("E1", "E3")]).

Definition wire (id a b kind : string) : Wire :=
  mkWire id a b kind None None None None None None false.
Definition withFault (f : string) (wr : Wire) : Wire :=
  mkWire (wire_id wr) (wire_a wr) (wire_b wr) (wire_kind wr) (Some f) (wire_sizeMm2 wr)
         (wire_ampacityA wr) (wire_cableType wr) (wire_label wr) (wire_lengthM wr)
         (wire_switchedLive wr).
Definition sized (size : Q) (cable : option string) (len : option Q) (wr : Wire) : Wire :=
  mkWire (wire_id wr) (wire_a wr) (wire_b wr) (wire_kind wr) (wire_fault wr) (Some size)
         (wire_ampacityA wr) cable (wire_label wr) len (wire_switchedLive wr).

(** A Line wire Supply.L → Lamp.L marked as an open fault. *)
Definition openLine : Wire := withFault "open" (wire "w1" "sL" "lL" "L").

(** A wire that joins Supply.L to Supply.N. *)
Definition deadShort : Wire := wire "w2" "sL" "sN" "L".

(** A 6 mm² main bonding conductor between two earth blocks. *)
Definition bonding : Wire :=
  sized 6 (Some "Bonding") None (wire "w3" "a1" "b1" "E").

(** A 2.5 mm² Line wire Supply.L → Lamp.L with an explicit 5 m length. *)
Definition longLine : Wire :=
  sized (25 # 10) (Some "T&E") (Some 5%Q) (wire "w4" "sL" "lL" "L").

(** Identifiers [newId] yields in the examples: A, B, C, ... *)
Definition ids (n : nat) : string :=
  String (Ascii.ascii_of_nat (65 + n)) EmptyString.
End Examples.

(** ** Vocabulary of the voltage model *)



(** ** Vocabulary of the sizing rule and of the wire cut *)

Definition isBondingUK (wr : Wire) (region : string) : bool :=
  String.eqb region "UK"
  && bool_decide (wire_cableType wr = Some "Bonding")
  && String.eqb (wire_kind wr) ConductorKinds.E.

(** The sizing rule read with the bare maximum of the two endpoint
    requirements as the requirement. *)
Definition undersized_by_endpoint_max (components : list Component) (wr : Wire)
    (region : option string) : Prop :=
  (wire_sizeMm2 wr = None -> isWireUndersized components wr region = false)
  ∧ (forall s ta tb,
       wire_sizeMm2 wr = Some s ->
       terminalById components (wire_a wr) = Some ta ->
       terminalById components (wire_b wr) = Some tb ->
       (isWireUndersized components wr region = true
        ↔ (s + EPSILON < Qmax (requiredCSAForTerminal ta.1 ta.2 (default "UK" region))
                              (requiredCSAForTerminal tb.1 tb.2 (default "UK" region)))%Q)).

(** The squared distance between two points. *)
Definition dist2 (p q : Q * Q) : Q :=
  ((p.1 - q.1) * (p.1 - q.1) + (p.2 - q.2) * (p.2 - q.2))%Q.

(** The cut read as rejecting a request whose projection on the wire
    is closer than the tolerance to an endpoint. *)
Definition cut_rejects_projected (rnd : nat -> string) (components : list Component)
    (wire : Wire) (point : Q * Q) (options : CutOptions) (n : nat) : Prop :=
  forall a b,
    terminalById components (wire_a wire) = Some a ->
    terminalById components (wire_b wire) = Some b ->
    let pa := componentTerminalAbsPos a.1 a.2 in
    let pb := componentTerminalAbsPos b.1 b.2 in
    let pr := projectPointOnSegment point pa pb in
    let tol := default 8%Q (snapTolerance options) in
    (0 < tol)%Q ->
    (dist2 (proj_x pr, proj_y pr) pa < tol * tol)%Q
    ∨ (dist2 (proj_x pr, proj_y pr) pb < tol * tol)%Q ->
    cutWireAt rnd components wire point options n = (None, n).

(** ** Vocabulary of the shortest-resistance search *)

(** A finite, non-negative number. *)
Definition finNonneg (d : JsNum) : Prop := ∃ q, d = Fin q ∧ (0 <= q)%Q.

(** Every edge weight of the graph is finite and non-negative. *)
Definition nonnegWeights (g : gmap string (list Edge)) : Prop :=
  forall v e, e ∈ nbrs g v -> finNonneg (w e).

(** [a <= b] between finite numbers. *)
Definition num_le (a b : JsNum) : Prop :=
  match a, b with
  | Fin x, Fin y => (x <= y)%Q
  | _, _ => False
  end.

(** A probe identifier is present in the graph: it is a truthy
    identifier and a key of the map. *)
Definition present {A : Type} (g : gmap string (list A)) (v : string) : Prop :=
  truthy v = true ∧ is_Some (g !! v).

(** [prev] points from every identifier to one settled strictly
    earlier; [S] lists the settled identifiers, latest first. *)
Definition prevRanked (S : list string) (prev : gmap string string) : Prop :=
  forall v p, prev !! v = Some p ->
    ∃ j, S !! j = Some p ∧ forall i, S !! i = Some v -> (i < j)%nat.

(** The invariant of the [while (pq.size)] loop of [dijkstraWeighted]:
    [S] are the identifiers already extracted, [U] bounds the
    identifiers that can ever be met. *)
Record DInv (g : gmap string (list Edge)) (start : string) (U : gset string)
    (S : list string) (dist : gmap string JsNum) (prev : gmap string string)
    (pq : list string) : Prop := mkDInv {
  di_nodup : NoDup S;
  di_dom : forall v, is_Some (dist !! v) ↔ v ∈ S ∨ v ∈ pq;
  di_disj : forall v, v ∈ S -> v ∉ pq;
  di_fin : forall v d, dist !! v = Some d -> finNonneg d;
  di_le : forall s v, s ∈ S -> v ∈ pq -> num_le (distOf dist s) (distOf dist v);
  di_prev : prevRanked S prev;
  di_sound : forall v, is_Some (dist !! v) -> connected g start v;
  di_univ : forall v, is_Some (dist !! v) -> v ∈ U;
  di_start : is_Some (dist !! start)
}.

(** Every neighbour of a settled identifier has a distance. *)
Definition settledClosed (g : gmap string (list Edge)) (S : list string)
    (dist : gmap string JsNum) : Prop :=
  forall s, s ∈ S -> forall e, e ∈ nbrs g s -> is_Some (dist !! to e).

(** The invariant of the relaxation loop over the edges of [u]. *)
Definition RInv (g : gmap string (list Edge)) (start : string) (U : gset string)
    (S : list string) (u : string) (qu : Q)
    (st : gmap string JsNum * gmap string string * list string) : Prop :=
  DInv g start U (u :: S) st.1.1 st.1.2 st.2
  ∧ st.1.1 !! u = Some (Fin qu)
  ∧ (forall s, s ∈ u :: S -> num_le (distOf st.1.1 s) (Fin qu))
  ∧ settledClosed g S st.1.1.

(** What holds of the maps the loop returns. *)
Definition DPost (g : gmap string (list Edge)) (start goal : string)
    (dist : gmap string JsNum) (prev : gmap string string) : Prop :=
  (forall v d, dist !! v = Some d -> finNonneg d)
  ∧ (is_Some (dist !! goal) ↔ connected g start goal)
  ∧ ∃ S, NoDup S
         ∧ (forall v, v ∈ S -> is_Some (dist !! v))
         ∧ (is_Some (dist !! goal) -> goal ∈ S)
         ∧ prevRanked S prev.

(** The boolean check of [nonnegWeights]. *)
Definition nonnegNum (d : JsNum) : bool :=
  match d with Fin q => Qle_bool 0 q | _ => false end.

Definition nonnegWeightsb (g : gmap string (list Edge)) : bool :=
  forallb (fun kv => forallb (fun e => nonnegNum (w e)) kv.2) (map_to_list g).

(** ** Vocabulary of the cycle search *)

(** The body of the [for] loop of the inner [dfs], at node [v] with
    parent [parent]; [dfs (S fuel)] is the fold of this step over the
    neighbour array of [v]. *)
Definition dfs_step (fuel : nat) (g : gmap string (list Edge)) (v : string)
    (parent : option string) (acc : option (list string * bool)) (e : Edge)
  : option (list string * bool) :=
  match acc with
  | None => None
  | Some st =>
      let u := to e in
      if bool_decide (parent = Some u) then Some st
      else if bool_decide (u ∈ st.1) then Some (st.1, true)
      else dfs fuel g u (Some v) st
  end.

(** The length of a neighbour array, and its sum over a list. *)
Definition deg (g : gmap string (list Edge)) (x : string) : nat := length (nbrs g x).
Definition sumDeg (g : gmap string (list Edge)) (l : list string) : nat :=
  sum_list_with (deg g) l.

(** The entries of [v]'s array that point to the parent. *)
Definition cntParent (g : gmap string (list Edge)) (v : string) (parent : option string) : nat :=
  match parent with Some p => mult g v p | None => 0 end.

(** The entries of [us] that do not point to the parent. *)
Definition nonParent (parent : option string) (us : list Edge) : nat :=
  length (filter (fun e => parent ≠ Some (to e)) us).

(** 1 when the flag is raised between two states, else 0. *)
Definition flagSet (cyc cyc' : bool) : nat := if cyc' && negb cyc then 1 else 0.

(** Each edge is recorded at both of its ends. *)
Definition symmetricGraph (g : gmap string (list Edge)) : Prop :=
  forall x y, mult g x y = mult g y x.

(** What holds of the identifiers [new] a call or a scan appends to
    [vis].  The last two clauses count array entries: twice the number
    of new identifiers, plus [credit], against the entries of their
    arrays plus [debit]. *)
Definition dfsFacts (g : gmap string (list Edge)) (U : gset string) (v : string)
    (vis new : list string) (cyc cyc' : bool) (credit debit : nat) : Prop :=
  NoDup new
  ∧ (forall x, x ∈ new -> (x ∉ vis) ∧ x ∈ U ∧ connected g v x)
  ∧ (cyc = true -> cyc' = true)
  ∧ (forall x, x ∈ new -> forall e, e ∈ nbrs g x -> to e ∈ vis ++ new)
  ∧ 2 * length new + credit + flagSet cyc cyc' <= sumDeg g new + debit
  ∧ (cyc' = false -> sumDeg g new + debit = 2 * length new + credit).

(** Two graphs with the same keys and, at every node, the same
    neighbours up to the order of the array. *)
Definition sameUpToOrder (g g' : gmap string (list Edge)) : Prop :=
  (forall x, is_Some (g !! x) ↔ is_Some (g' !! x))
  ∧ forall x, (to <$> nbrs g x) ≡ₚ (to <$> nbrs g' x).

(** What a call [dfs fuel g v parent (vis, cyc)] on an unvisited [v]
    returns when the fuel covers the unvisited part of [U]. *)
Definition dfsCallSpec (g : gmap string (list Edge)) (U : gset string) (fuel : nat) : Prop :=
  forall v parent vis cyc,
    v ∉ vis -> v ∈ U ->
    size (U ∖ list_to_set vis) <= fuel ->
    (forall q, parent = Some q -> q ∈ vis) ->
    ∃ new cyc',
      dfs fuel g v parent (vis, cyc) = Some (vis ++ v :: new, cyc')
      ∧ dfsFacts g U v vis (v :: new) cyc cyc' (cntParent g v parent) 2.

(** [makeSocket1G] with the identifiers made explicit, and a ring
    Supply → A → B → Supply of Line, Neutral and Earth wires. *)
Module RingExample.
Definition socket (id lin lout nin nout ein eout : string) (x : Q) : Component :=
  mkComponent id ComponentTypes.SOCKET_1G x 200 false
    [ Examples.term lin "LIN" "LIN" 10 22; Examples.term lout "LOUT" "LOUT" 70 22;
      Examples.term nin "NIN" "NIN" 10 62; Examples.term nout "NOUT" "NOUT" 70 62;
      Examples.term ein "EIN" "EIN" 10 102; Examples.term eout "EOUT" "EOUT" 70 102 ]
    noState (LinksArr [("LIN", "LOUT"); ("NIN", "NOUT"); ("EIN", "EOUT")]).

Definition components : list Component :=
  [ Examples.supply;
    socket "A" "aLi" "aLo" "aNi" "aNo" "aEi" "aEo" 100;
    socket "B" "bLi" "bLo" "bNi" "bNo" "bEi" "bEo" 300 ].

Definition leg (k from_ to_ : string) : Wire :=
  Examples.wire (k +:+ from_ +:+ to_) from_ to_ k.

Definition wires : list Wire :=
  [ leg "L" "sL" "aLi"; leg "N" "sN" "aNi"; leg "E" "sE" "aEi";
    leg "L" "aLo" "bLi"; leg "N" "aNo" "bNi"; leg "E" "aEo" "bEi";
    leg "L" "bLo" "sL"; leg "N" "bNo" "sN"; leg "E" "bEo" "sE" ].
End RingExample.

(** One step of [bfsSet]: to a neighbour with a truthy identifier. *)
Definition truthyStep {A : Type} `{EdgeLike A} (g : gmap string (list A)) (x y : string) : Prop :=
  adjacent g x y ∧ truthy y = true.

(** The invariant of the [bfsSet] loop and what holds of its result. *)
Definition bfsSet_inv {A : Type} `{EdgeLike A} (g : gmap string (list A)) (s : string)
    (vis q : list string) : Prop :=
  s ∈ vis
  ∧ (forall x, x ∈ q -> x ∈ vis)
  ∧ (forall x, x ∈ vis -> rtc (truthyStep g) s x)
  ∧ (forall x, x ∈ vis -> x ∉ q -> forall y, truthyStep g x y -> y ∈ vis).

Definition bfsSet_post {A : Type} `{EdgeLike A} (g : gmap string (list A)) (s : string)
    (r : list string) : Prop :=
  s ∈ r
  ∧ (forall x, x ∈ r -> rtc (truthyStep g) s x)
  ∧ (forall x, x ∈ r -> forall y, truthyStep g x y -> y ∈ r).

(** The same wire drawn from its other end. *)
Definition flipWire (wr : Wire) : Wire :=
  mkWire (wire_id wr) (wire_b wr) (wire_a wr) (wire_kind wr) (wire_fault wr) (wire_sizeMm2 wr)
         (wire_ampacityA wr) (wire_cableType wr) (wire_label wr) (wire_lengthM wr)
         (wire_switchedLive wr).

(** The wires [ws], those marked in [flips] drawn from the other end. *)
Definition redrawn (flips : list bool) (ws : list Wire) : list Wire :=
  zip_with (fun (b : bool) wr => if b then flipWire wr else wr) flips ws.

(** Two weighted edges between the same two identifiers. *)
Definition sameEnds (e e' : string * string * JsNum) : Prop :=
  (e.1.1 = e'.1.1 ∧ e.1.2 = e'.1.2) ∨ (e.1.1 = e'.1.2 ∧ e.1.2 = e'.1.1).

(** ** Vocabulary of the voltage model: the reachable sets *)




(** ** Vocabulary of the least-resistance property *)

(** A walk of [g] from [x] to [y] through the identifiers [p], and the
    sum [c] of the weights of the edges it takes. *)
Inductive walk (g : gmap string (list Edge)) (x : string) : string -> list string -> Q -> Prop :=
| walk_start : walk g x x [x] 0
| walk_step (y z : string) (p : list string) (c : Q) (e : Edge) (q : Q) :
    walk g x y p c -> e ∈ nbrs g y -> to e = z -> w e = Fin q ->
    walk g x z (p ++ [z]) (c + q).

(** The pairs of a settled identifier and one of its edges that the
    relaxation loop has already handled: every edge of an identifier
    of [Sd], and the edges [seen] of [u]. *)
Definition relaxedPairs (g : gmap string (list Edge)) (Sd : list string) (u : string)
    (seen : list Edge) (s : string) (e : Edge) : Prop :=
  (s ∈ Sd ∧ e ∈ nbrs g s) ∨ (s = u ∧ e ∈ seen).

(** What the maps [dist] and [prev] of [dijkstraWeighted] keep beyond
    [DInv]: a handled edge cannot improve its target, [prev] records
    the edge that gave an identifier its distance, the start stays at
    0, and every other identifier with a distance has a [prev]. *)
Definition XInv (g : gmap string (list Edge)) (start : string)
    (handled : string -> Edge -> Prop) (Sd : list string)
    (dist : gmap string JsNum) (prev : gmap string string) : Prop :=
  (forall s e, handled s e -> num_le (distOf dist (to e)) (num_add (distOf dist s) (w e)))
  ∧ (forall v p, prev !! v = Some p ->
       p ∈ Sd ∧ ∃ e, e ∈ nbrs g p ∧ to e = v
                     ∧ dist !! v = Some (num_add (distOf dist p) (w e)))
  ∧ dist !! start = Some (Fin 0)
  ∧ (forall v, is_Some (dist !! v) -> v = start ∨ is_Some (prev !! v)).

(** What holds of the maps the loop returns, for the path rebuild and
    for the resistance reported. *)
Definition DPostX (g : gmap string (list Edge)) (start goal : string)
    (dist : gmap string JsNum) (prev : gmap string string) : Prop :=
  (forall v d, dist !! v = Some d -> finNonneg d)
  ∧ dist !! start = Some (Fin 0)
  ∧ (forall v, is_Some (dist !! v) -> v = start ∨ is_Some (prev !! v))
  ∧ (forall v p, prev !! v = Some p ->
       ∃ e, e ∈ nbrs g p ∧ to e = v ∧ dist !! v = Some (num_add (distOf dist p) (w e)))
  ∧ (forall qg, dist !! goal = Some (Fin qg) ->
       forall p c, walk g start goal p c -> (qg <= c)%Q).

(** ** Hit testing of wires *)

Section HitTest.
Variable hypot : Q -> Q -> Q.

Definition distanceToSegment (point segA segB : Q * Q) : Q :=
  let ABx := (segB.1 - segA.1)%Q in
  let ABy := (segB.2 - segA.2)%Q in
  let APx := (point.1 - segA.1)%Q in
  let APy := (point.2 - segA.2)%Q in
  let ab2 := (ABx * ABx + ABy * ABy)%Q in
  if Qeq_bool ab2 0 then hypot (point.1 - segA.1)%Q (point.2 - segA.2)%Q
  else
    let t := Qmax 0 (Qmin 1 ((APx * ABx + APy * ABy) / ab2))%Q in
    hypot (point.1 - (segA.1 + t * ABx))%Q (point.2 - (segA.2 + t * ABy))%Q.

Record WireHit : Type := mkWireHit {
  hit_wireId : string;
  hit_distance : Q;
  hitPoint : Projection
}.

(** The body of the loop of [hitTestWireAtPoint]; the state is
    [bestHit] and [bestDistance]. *)
Definition hitTest_step (components : list Component) (point : Q * Q) (tolerance : Q)
    (st : option WireHit * JsNum) (wire : Wire) : option WireHit * JsNum :=
  match terminalById components (wire_a wire), terminalById components (wire_b wire) with
  | Some a, Some b =>
      let pa := componentTerminalAbsPos a.1 a.2 in
      let pb := componentTerminalAbsPos b.1 b.2 in
      let distance := distanceToSegment point pa pb in
      if Qle_bool distance tolerance && num_ltb (Fin distance) st.2
      then (Some (mkWireHit (wire_id wire) distance (projectPointOnSegment point pa pb)),
            Fin distance)
      else st
  | _, _ => st
  end.

Definition hitTestWireAtPoint (wires : list Wire) (components : list Component)
    (point : Q * Q) (tolerance : Q) : option WireHit :=
  (foldl (hitTest_step components point tolerance) (None, PInf) wires).1.

(** The distance from [point] to a wire both of whose ends resolve. *)
Definition wireDistance (components : list Component) (point : Q * Q) (wire : Wire)
  : option Q :=
  match terminalById components (wire_a wire), terminalById components (wire_b wire) with
  | Some a, Some b =>
      Some (distanceToSegment point (componentTerminalAbsPos a.1 a.2)
                              (componentTerminalAbsPos b.1 b.2))
  | _, _ => None
  end.
(** What holds of the state of the hit-test loop after the wires
    [seen]. *)
Definition hitInv (components : list Component) (point : Q * Q) (tolerance : Q)
    (seen : list Wire) (st : option WireHit * JsNum) : Prop :=
  match st.1 with
  | None =>
      st.2 = PInf
      ∧ forall wire d, wire ∈ seen ->
          wireDistance components point wire = Some d -> (tolerance < d)%Q
  | Some h =>
      st.2 = Fin (hit_distance h)
      ∧ (hit_distance h <= tolerance)%Q
      ∧ (∃ wire a b,
           wire ∈ seen
           ∧ terminalById components (wire_a wire) = Some a
           ∧ terminalById components (wire_b wire) = Some b
           ∧ hit_wireId h = wire_id wire
           ∧ hit_distance h
             = distanceToSegment point (componentTerminalAbsPos a.1 a.2)
                                 (componentTerminalAbsPos b.1 b.2)
           ∧ hitPoint h
             = projectPointOnSegment point (componentTerminalAbsPos a.1 a.2)
                                     (componentTerminalAbsPos b.1 b.2))
      ∧ forall wire d, wire ∈ seen ->
          wireDistance components point wire = Some d -> (hit_distance h <= d)%Q
  end.
End HitTest.

(** The point of the segment from [a] to [b] at parameter [s]. *)
Definition pointAt (a b : Q * Q) (s : Q) : Q * Q :=
  (a.1 + s * (b.1 - a.1), a.2 + s * (b.2 - a.2))%Q.

(** ** Vocabulary of the wire cut *)

(** [id] is the identifier of no terminal of [components] and of no
    end of a wire of [wires]. *)
Definition freshTerminalId (components : list Component) (wires : list Wire) (id : string)
  : Prop :=
  (forall c t, c ∈ components -> t ∈ comp_terminals c -> term_id t ≠ id)
  ∧ (forall wr, wr ∈ wires -> wire_a wr ≠ id ∧ wire_b wr ≠ id).

(** ** Editor state: selection, history and deletion

    The handlers of [App] read the state of the render they were
    created in and queue updates.  A handler is embedded as the
    function from that state to the state after its updates. *)

Record Selection : Type := mkSelection {
  sel_components : list string;
  sel_wires : list string
}.

Record AppState : Type := mkAppState {
  app_components : list Component;
  app_wires : list Wire;
  app_selection : Selection;
  app_pending : option string;
  app_undoStack : list (list Component * list Wire);
  app_redoStack : list (list Component * list Wire)
}.

Definition clearSelection (st : AppState) : AppState :=
  mkAppState (app_components st) (app_wires st) (mkSelection [] []) (app_pending st)
             (app_undoStack st) (app_redoStack st).

Definition isSelected (st : AppState) (kind id : string) : bool :=
  let list := if String.eqb kind "component"
              then sel_components (app_selection st) else sel_wires (app_selection st) in
  bool_decide (id ∈ list).

Definition replaceSelection (kind id : string) (st : AppState) : AppState :=
  mkAppState (app_components st) (app_wires st)
             (mkSelection (if String.eqb kind "component" then [id] else [])
                          (if String.eqb kind "wire" then [id] else []))
             (app_pending st) (app_undoStack st) (app_redoStack st).

(** [sel[key].includes(id) ? sel[key].filter(x => x !== id) : [...sel[key], id]] *)
Definition toggleIn (id : string) (l : list string) : list string :=
  if bool_decide (id ∈ l) then filter (fun x => x ≠ id) l else l ++ [id].

Definition toggleSelection (kind id : string) (st : AppState) : AppState :=
  let sel := app_selection st in
  mkAppState (app_components st) (app_wires st)
             (if String.eqb kind "component"
              then mkSelection (toggleIn id (sel_components sel)) (sel_wires sel)
              else mkSelection (sel_components sel) (toggleIn id (sel_wires sel)))
             (app_pending st) (app_undoStack st) (app_redoStack st).

Section History.
(** [deepCloneState]: [structuredClone] with a JSON fallback, both
    supplied by the platform. *)
Variable deepCloneState : list Component * list Wire -> list Component * list Wire.

Definition pushHistory (st : AppState) : AppState :=
  let snap := deepCloneState (app_components st, app_wires st) in
  mkAppState (app_components st) (app_wires st) (app_selection st) (app_pending st)
             (app_undoStack st ++ [snap]) [].

(** [stack.slice(0, -1)] *)
Definition dropLast {A : Type} (l : list A) : list A := take (length l - 1) l.

Definition undo (st : AppState) : AppState :=
  match last (app_undoStack st) with
  | None => st
  | Some prevState =>
      mkAppState prevState.1 prevState.2 (mkSelection [] []) None
                 (dropLast (app_undoStack st))
                 (app_redoStack st ++ [(app_components st, app_wires st)])
  end.

Definition redo (st : AppState) : AppState :=
  match last (app_redoStack st) with
  | None => st
  | Some nextState =>
      mkAppState nextState.1 nextState.2 (mkSelection [] []) None
                 (app_undoStack st ++ [(app_components st, app_wires st)])
                 (dropLast (app_redoStack st))
  end.

Definition removeSelected (st : AppState) : AppState :=
  let sel := app_selection st in
  if bool_decide (sel_components sel = []) && bool_decide (sel_wires sel = []) then st
  else
    let st1 := pushHistory st in
    let termIdsToPurge :=
      filter (fun c => comp_id c ∈ sel_components sel) (app_components st)
        ≫= (fun c => term_id <$> comp_terminals c) in
    mkAppState
      (filter (fun c => comp_id c ∉ sel_components sel) (app_components st1))
      (filter (fun wr => (wire_id wr ∉ sel_wires sel)
                         ∧ (wire_a wr ∉ termIdsToPurge)
                         ∧ (wire_b wr ∉ termIdsToPurge)) (app_wires st1))
      (mkSelection [] []) None (app_undoStack st1) (app_redoStack st1).
End History.

(** The document and its history agree in two states. *)
Definition sameDocument (s t : AppState) : Prop :=
  app_components s = app_components t ∧ app_wires s = app_wires t
  ∧ app_undoStack s = app_undoStack t ∧ app_redoStack s = app_redoStack t.

(** Both ends of every wire are terminals of a component. *)
Definition wiresAttached (components : list Component) (wires : list Wire) : Prop :=
  forall wr, wr ∈ wires ->
    is_Some (terminalById components (wire_a wr))
    ∧ is_Some (terminalById components (wire_b wr)).

(** ** The sizing check of the validator *)



(** ** Lamps and earth continuity in [analysis] *)

Section AnalysisLamps.
Variable hypot : Q -> Q -> Q.

(** [on] of a lamp [c]:
    [!!(lId && nId && reachL.has(lId) && reachN.has(nId)
        && results.shorts.length === 0)]. *)
Definition lampOn (components : list Component) (wires : list Wire) (supply c : Component)
  : bool :=
  let adj := buildAdjacency components wires in
  let reachL := reachFrom adj (termIdByName supply "L") in
  let reachN := reachFrom adj (termIdByName supply "N") in
  let lId := termIdByName c "L" in
  let nId := termIdByName c "N" in
  truthy_opt lId && truthy_opt nId && has_id reachL lId && has_id reachN nId
  && bool_decide (length (shorts (analysis hypot components wires)) = 0%nat).

(** [eok] of a lamp: [!!(eId && reachE.has(eId))]. *)
Definition lampEarthOk (components : list Component) (wires : list Wire)
    (supply c : Component) : bool :=
  let adj := buildAdjacency components wires in
  let reachE := reachFrom adj (termIdByName supply "E") in
  truthy_opt (termIdByName c "E") && has_id reachE (termIdByName c "E").

Definition isLamp (c : Component) : bool := String.eqb (comp_type c) ComponentTypes.LAMP.

(** [results.lamps]: one entry [{id, on}] per lamp. *)
Definition analysisLamps (components : list Component) (wires : list Wire)
  : list (string * bool) :=
  match List.find (fun c => String.eqb (comp_type c) ComponentTypes.SUPPLY) components with
  | None => []
  | Some supply =>
      (fun c => (comp_id c, lampOn components wires supply c))
        <$> filter (fun c => isLamp c = true) components
  end.

(** [results.earth]: the lamps first, then every other component
    with a terminal of type E. *)
Definition analysisEarth (components : list Component) (wires : list Wire)
  : list (string * bool) :=
  match List.find (fun c => String.eqb (comp_type c) ComponentTypes.SUPPLY) components with
  | None => []
  | Some supply =>
      let reachE := reachFrom (buildAdjacency components wires) (termIdByName supply "E") in
      ((fun c => (comp_id c, lampEarthOk components wires supply c))
         <$> filter (fun c => isLamp c = true) components)
      ++ omap (fun c =>
                 if isLamp c then None
                 else
                   let eTerms := filter (fun t => term_t t = TerminalTypes.E)
                                        (comp_terminals c) in
                   match eTerms with
                   | [] => None
                   | _ :: _ =>
                       Some (comp_id c,
                             existsb (fun t => bool_decide (term_id t ∈ reachE)) eTerms)
                   end) components
  end.
End AnalysisLamps.

(** ** Vocabulary of the family graphs *)

(** The wires that are not marked as an open fault. *)
Definition closedWires (wires : list Wire) : list Wire :=
  filter (fun wr => wire_fault wr ≠ Some "open") wires.

(** An infinite reading, or a finite one of at least [m]. *)
Definition readingAtLeast (m : Q) (x : JsNum) : Prop :=
  x = PInf ∨ ∃ q, x = Fin q ∧ (m <= q)%Q.

(** ** Dragging components and marquee selection *)

Definition gridSize : Q := 20.

(** [Math.round]: the nearest integer, a half rounded up. *)
Definition mathRound (v : Q) : Z := Qfloor (v + (1 # 2)).

(** [if (snapToGrid) x = Math.round(x / gridSize) * gridSize] *)
Definition snapCoord (snapToGrid : bool) (v : Q) : Q :=
  if snapToGrid then (inject_Z (mathRound (v / gridSize)) * gridSize)%Q else v.

Record DragOffset : Type := mkDragOffset {
  off_id : string;
  off_dx : Q;
  off_dy : Q
}.

Record Drag : Type := mkDrag {
  drag_id : string;
  drag_dx : Q;
  drag_dy : Q;
  drag_mode : string;
  drag_offsets : option (list DragOffset)
}.

(** [{ ...c, x, y }] *)
Definition moveTo (c : Component) (x y : Q) : Component :=
  mkComponent (comp_id c) (comp_type c) x y (comp_hidden c) (comp_terminals c)
              (comp_state c) (comp_internalLinks c).

(** The drag branch of [onMouseMoveSVG] with the pointer at
    [(mx, my)] in world coordinates. *)
Definition dragComponents (snapToGrid : bool) (drag : Drag) (mx my : Q)
    (components : list Component) : list Component :=
  match (if String.eqb (drag_mode drag) "multi" then drag_offsets drag else None) with
  | Some offsets =>
      (fun c =>
         match List.find (fun v => String.eqb (off_id v) (comp_id c)) offsets with
         | None => c
         | Some o => moveTo c (snapCoord snapToGrid (mx - off_dx o))
                            (snapCoord snapToGrid (my - off_dy o))
         end) <$> components
  | None =>
      let x := snapCoord snapToGrid (mx - drag_dx drag) in
      let y := snapCoord snapToGrid (my - drag_dy drag) in
      (fun c => if String.eqb (comp_id c) (drag_id drag) then moveTo c x y else c)
        <$> components
  end.

(** A coordinate on the grid. *)
Definition onGrid (v : Q) : Prop := ∃ k : Z, v = (inject_Z k * gridSize)%Q.

(** The coordinate [v] a drag gives for the position [p] under the
    pointer: with snapping a grid coordinate within half a cell above
    or below [p], without snapping [p] itself. *)
Definition snappedFrom (snapToGrid : bool) (p v : Q) : Prop :=
  if snapToGrid then onGrid v ∧ (p - 10 < v)%Q ∧ (v <= p + 10)%Q else v = p.

(** The component [c'] is [c] moved to where the pointer [(mx, my)]
    puts it when it was grabbed at the offset [(dx, dy)]; nothing but
    its coordinates changes. *)
Definition draggedBy (snapToGrid : bool) (mx my dx dy : Q) (c c' : Component) : Prop :=
  ∃ x y, c' = moveTo c x y
         ∧ snappedFrom snapToGrid (mx - dx) x ∧ snappedFrom snapToGrid (my - dy) y.

(** [c.type.startsWith(p)] *)
Definition startsWith (s p : string) : bool := String.prefix p s.

(** The box [onMouseUpSVG] gives a component, against the marquee. *)
Definition inMarquee (minx maxx miny maxy : Q) (c : Component) : bool :=
  let w := 150%Q in
  let h := (if startsWith (comp_type c) "CONNECTOR" || startsWith (comp_type c) "WAGO"
            then 120 else 110)%Q in
  negb (Qltb maxx (comp_x c) || Qltb (comp_x c + w) minx
        || Qltb maxy (comp_y c) || Qltb (comp_y c + h) miny).

Definition pointInMarquee (minx maxx miny maxy : Q) (p : option (Q * Q)) : bool :=
  match p with
  | None => false
  | Some pa => Qle_bool minx pa.1 && Qle_bool pa.1 maxx
               && Qle_bool miny pa.2 && Qle_bool pa.2 maxy
  end.

(** The selection [onMouseUpSVG] makes from the marquee with corners
    [(x0, y0)] and [(x1, y1)]. *)
Definition marqueeSelect (components : list Component) (wires : list Wire)
    (x0 y0 x1 y1 : Q) : Selection :=
  let minx := Qmin x0 x1 in
  let maxx := Qmax x0 x1 in
  let miny := Qmin y0 y1 in
  let maxy := Qmax y0 y1 in
  mkSelection
    (comp_id <$> filter (fun c => inMarquee minx maxx miny maxy c = true) components)
    (wire_id <$> filter (fun wr =>
                           pointInMarquee minx maxx miny maxy
                             (terminalAbsPosById components (wire_a wr))
                           && pointInMarquee minx maxx miny maxy
                                (terminalAbsPosById components (wire_b wr)) = true) wires).

(** ** Proof automation *)

(** Turns boolean comparisons of rationals in the hypotheses into
    their propositions. *)
Ltac qbool :=
  repeat match goal with
         | H : Qle_bool _ _ = true |- _ => apply Qle_bool_iff in H
         | H : Qle_bool _ _ = false |- _ =>
             apply not_true_iff_false in H; rewrite Qle_bool_iff in H
         end.

(** * Properties *)

(** ** Graph builders *)

Section GraphBuilders.
Implicit Types (m : gmap string (list string)).

Lemma elem_of_set_add x y (s : list string) : y ∈ set_add x s ↔ y ∈ s ∨ y = x.
Proof.
  unfold set_add. case_bool_decide as Hx.
  - split; [auto | intros [?| ->]; auto].
  - rewrite elem_of_app, list_elem_of_singleton. tauto.
Qed.

Lemma lookup_ensure {A} (m : gmap string (list A)) k x :
  ensure m k !! x = if decide (k = x) then Some (default [] (m !! k)) else m !! x.
Proof.
  unfold ensure. destruct (m !! k) as [l|] eqn:Hk.
  - case_decide; subst; simpl; auto.
  - rewrite lookup_insert. case_decide; subst; auto.
Qed.

Lemma nbrs_ensure {A} (m : gmap string (list A)) k x : nbrs (ensure m k) x = nbrs m x.
Proof.
  unfold nbrs. rewrite lookup_ensure. case_decide; subst; auto.
Qed.

Lemma is_Some_ensure {A} (m : gmap string (list A)) k x :
  is_Some (ensure m k !! x) ↔ is_Some (m !! x) ∨ x = k.
Proof.
  rewrite lookup_ensure. case_decide; subst.
  - split; eauto.
  - split; [auto | intros [?|?]; congruence].
Qed.

Lemma nbrs_alter {A} (f : list A -> list A) (m : gmap string (list A)) k x :
  is_Some (m !! k) ->
  nbrs (alter f k m) x = if decide (k = x) then f (nbrs m x) else nbrs m x.
Proof.
  intros [l Hl]. unfold nbrs. rewrite lookup_alter.
  case_decide; subst; auto. rewrite Hl. reflexivity.
Qed.

Lemma is_Some_alter {A} (f : list A -> list A) (m : gmap string (list A)) k x :
  is_Some (alter f k m !! x) ↔ is_Some (m !! x).
Proof.
  rewrite lookup_alter. case_decide; subst; auto.
  rewrite fmap_is_Some. reflexivity.
Qed.

Lemma is_Some_addEdge m a b x :
  is_Some (addEdge m a b !! x) ↔ is_Some (m !! x) ∨ x = a ∨ x = b.
Proof.
  unfold addEdge. rewrite !is_Some_alter, !is_Some_ensure. tauto.
Qed.

Lemma nbrs_addEdge m a b x :
  nbrs (addEdge m a b) x =
    let l := nbrs m x in
    let l := if decide (a = x) then set_add b l else l in
    if decide (b = x) then set_add a l else l.
Proof.
  unfold addEdge.
  rewrite nbrs_alter.
  2:{ apply is_Some_alter, is_Some_ensure. auto. }
  rewrite nbrs_alter.
  2:{ apply is_Some_ensure. left. apply is_Some_ensure. auto. }
  rewrite !nbrs_ensure. reflexivity.
Qed.

Lemma elem_of_nbrs_addEdge m a b x y :
  y ∈ nbrs (addEdge m a b) x ↔ y ∈ nbrs m x ∨ (x = a ∧ y = b) ∨ (x = b ∧ y = a).
Proof.
  rewrite nbrs_addEdge. simpl.
  destruct (decide (a = x)) as [->|Ha], (decide (b = x)) as [->|Hb];
    rewrite ?elem_of_set_add; intuition congruence.
Qed.

(** The two loops of a builder, as one pass over a list of edges. *)
Lemma foldl_ext {A B} (f f' : A -> B -> A) (a : A) (l : list B) :
  (forall acc x, f acc x = f' acc x) -> foldl f a l = foldl f' a l.
Proof.
  intros Hf. revert a. induction l as [|x l IH]; intros a; simpl; [done|].
  rewrite Hf. apply IH.
Qed.

Lemma foldl_if {A B C} (f : A -> C -> A) (P : B -> bool) (h : B -> C) (a : A) (l : list B) :
  foldl (fun acc x => if P x then f acc (h x) else acc) a l
  = foldl f a (omap (fun x => if P x then Some (h x) else None) l).
Proof.
  revert a. induction l as [|x l IH]; intros a; simpl; [done|].
  destruct (P x); simpl; apply IH.
Qed.

Lemma foldl_nested {A B C} (f : A -> C -> A) (h : B -> list C) (a : A) (l : list B) :
  foldl (fun acc x => foldl f acc (h x)) a l = foldl f a (l ≫= h).
Proof.
  revert a. induction l as [|x l IH]; intros a; simpl; [done|].
  rewrite foldl_app. apply IH.
Qed.

Lemma buildTypedSubgraph_edges components wires allowed :
  buildTypedSubgraph components wires allowed
  = foldl addEdgePair ∅ (typedEdges components wires allowed).
Proof.
  unfold buildTypedSubgraph, typedEdges. rewrite foldl_app.
  rewrite <- (foldl_nested addEdgePair), <- (foldl_if addEdgePair).
  apply foldl_ext. intros acc c. apply foldl_ext. intros g [a b]. reflexivity.
Qed.

Lemma buildAdjacency_edges components wires :
  buildAdjacency components wires
  = foldl addEdgePair ∅ (adjacencyEdges components wires).
Proof.
  unfold buildAdjacency, adjacencyEdges. rewrite foldl_app.
  rewrite <- (foldl_nested addEdgePair), foldl_fmap.
  apply foldl_ext. intros acc c. apply foldl_ext. intros g [a b]. reflexivity.
Qed.

Lemma elem_of_nbrs_foldl_addEdge es m x y :
  y ∈ nbrs (foldl addEdgePair m es) x
  ↔ y ∈ nbrs m x ∨ ∃ a b, (a, b) ∈ es ∧ ((x = a ∧ y = b) ∨ (x = b ∧ y = a)).
Proof.
  revert m. induction es as [|[a b] es IH]; intros m; simpl.
  - split; [auto | intros [?|(a & b & Hin & _)]; [done | by apply elem_of_nil in Hin]].
  - rewrite IH. unfold addEdgePair at 1. simpl. rewrite elem_of_nbrs_addEdge.
    split.
    + intros [[?|?]|(a' & b' & ? & ?)]; eauto.
      * right. exists a, b. split; [left | done].
      * right. exists a', b'. split; [by right | done].
    + intros [?|(a' & b' & Hin & ?)]; [by auto|].
      apply elem_of_cons in Hin as [[= -> ->]|?]; eauto 10.
Qed.

Lemma is_Some_foldl_addEdge es m x :
  is_Some (foldl addEdgePair m es !! x)
  ↔ is_Some (m !! x) ∨ ∃ a b, (a, b) ∈ es ∧ (x = a ∨ x = b).
Proof.
  revert m. induction es as [|[a b] es IH]; intros m; simpl.
  - split; [auto | intros [?|(a & b & Hin & _)]; [done | by apply elem_of_nil in Hin]].
  - rewrite IH. unfold addEdgePair at 1. simpl. rewrite is_Some_addEdge.
    split.
    + intros [[?|?]|(a' & b' & ? & ?)]; eauto.
      * right. exists a, b. split; [left | tauto].
      * right. exists a', b'. split; [by right | done].
    + intros [?|(a' & b' & Hin & ?)]; [by auto|].
      apply elem_of_cons in Hin as [[= -> ->]|?]; eauto 10.
Qed.

Lemma nbrs_empty {A} x : nbrs (∅ : gmap string (list A)) x = [].
Proof. unfold nbrs. by rewrite lookup_empty. Qed.

Lemma adjacent_foldl_addEdge_sym es x y :
  y ∈ nbrs (foldl addEdgePair ∅ es) x ↔ x ∈ nbrs (foldl addEdgePair ∅ es) y.
Proof.
  rewrite !elem_of_nbrs_foldl_addEdge, !nbrs_empty.
  split; (intros [Hnil|(a & b & Hin & Hab)]; [by apply elem_of_nil in Hnil|]);
    right; exists a, b; tauto.
Qed.

Lemma nbrs_addWeighted (g : gmap string (list Edge)) a b rw x :
  nbrs (addWeighted g a b rw) x
  = nbrs g x ++ (if decide (a = x) then [mkEdge b rw] else [])
           ++ (if decide (b = x) then [mkEdge a rw] else []).
Proof.
  unfold addWeighted.
  rewrite nbrs_alter.
  2:{ apply is_Some_alter, is_Some_ensure. auto. }
  rewrite nbrs_alter.
  2:{ apply is_Some_ensure. left. apply is_Some_ensure. auto. }
  rewrite !nbrs_ensure.
  destruct (decide (a = x)), (decide (b = x)); simpl;
    rewrite ?app_nil_r, <- ?app_assoc; reflexivity.
Qed.

Lemma is_Some_addWeighted (g : gmap string (list Edge)) a b rw x :
  is_Some (addWeighted g a b rw !! x) ↔ is_Some (g !! x) ∨ x = a ∨ x = b.
Proof.
  unfold addWeighted. rewrite !is_Some_alter, !is_Some_ensure. tauto.
Qed.

Lemma nbrs_foldl_addWeighted es (g : gmap string (list Edge)) x :
  nbrs (foldl addWeightedEdge g es) x = nbrs g x ++ (es ≫= contrib x).
Proof.
  revert g. induction es as [|[[a b] rw] es IH]; intros g; simpl.
  - by rewrite app_nil_r.
  - rewrite IH. unfold addWeightedEdge at 1. simpl.
    rewrite nbrs_addWeighted. unfold contrib at 2. simpl.
    by rewrite <- !app_assoc.
Qed.

Lemma is_Some_foldl_addWeighted es (g : gmap string (list Edge)) x :
  is_Some (foldl addWeightedEdge g es !! x)
  ↔ is_Some (g !! x) ∨ ∃ e, e ∈ es ∧ (x = e.1.1 ∨ x = e.1.2).
Proof.
  revert g. induction es as [|e es IH]; intros g; simpl.
  - split; [auto | intros [?|(e & Hin & _)]; [done | by apply elem_of_nil in Hin]].
  - rewrite IH. unfold addWeightedEdge at 1. rewrite is_Some_addWeighted.
    split.
    + intros [[?|?]|(e' & ? & ?)]; eauto.
      * right. exists e. split; [left | tauto].
      * right. exists e'. split; [by right | done].
    + intros [?|(e' & Hin & ?)]; [by auto|].
      apply elem_of_cons in Hin as [->|?]; eauto 10.
Qed.

Lemma buildWeightedSubgraph_edges hypot components wires allowed key :
  buildWeightedSubgraph hypot components wires allowed key
  = foldl addWeightedEdge ∅ (weightedEdges hypot components wires allowed key).
Proof.
  unfold buildWeightedSubgraph, weightedEdges. rewrite foldl_app.
  rewrite foldl_fmap, <- (foldl_nested (fun g p => addWeightedEdge g (p, Fin CONTACT_R))).
  rewrite <- (foldl_if addWeightedEdge).
  apply foldl_ext. intros acc c. apply foldl_ext. intros g [a b]. reflexivity.
Qed.

Lemma count_contrib_sym x y e :
  length (filter (fun d => to d = y) (contrib x e))
  = length (filter (fun d => to d = x) (contrib y e)).
Proof.
  destruct e as [[a b] rw]. unfold contrib. simpl.
  destruct (decide (a = x)) as [->|Ha], (decide (b = x)) as [->|Hb],
    (decide (x = y)) as [->|Hxy]; simpl;
    repeat (case_decide; simplify_eq; simpl);
    rewrite ?filter_cons, ?filter_nil; simpl;
    repeat (case_decide; simplify_eq; simpl); try reflexivity; try congruence.
Qed.

Lemma mult_foldl_sym es x y :
  mult (foldl addWeightedEdge ∅ es) x y = mult (foldl addWeightedEdge ∅ es) y x.
Proof.
  unfold mult. rewrite !nbrs_foldl_addWeighted, !nbrs_empty, !app_nil_l.
  induction es as [|e es IH]; [done|].
  rewrite !bind_cons, !filter_app, !length_app, IH, count_contrib_sym. reflexivity.
Qed.
End GraphBuilders.

Section Adjacency.
Lemma adjacent_string (g : gmap string (list string)) x y :
  adjacent g x y ↔ y ∈ nbrs g x.
Proof.
  unfold adjacent. rewrite list_elem_of_fmap. unfold edge_target, string_EdgeLike.
  split; [intros (z & -> & Hz); done | eauto].
Qed.

Lemma adjacent_mult (g : gmap string (list Edge)) x y :
  adjacent g x y ↔ 0 < mult g x y.
Proof.
  unfold adjacent, mult. rewrite list_elem_of_fmap.
  unfold edge_target, Edge_EdgeLike. split.
  - intros (e & -> & He).
    assert (e ∈ filter (fun d => to d = to e) (nbrs g x)) as Hin
      by (apply list_elem_of_filter; done).
    destruct (filter _ _); [by apply elem_of_nil in Hin | simpl; lia].
  - intros Hlen. destruct (filter _ _) as [|e l] eqn:Hf; [simpl in Hlen; lia|].
    assert (e ∈ filter (fun d => to d = y) (nbrs g x)) as Hin
      by (rewrite Hf; left).
    apply list_elem_of_filter in Hin as [<- Hin]. eauto.
Qed.
End Adjacency.

(** C9.  Every adjacency structure the three builders produce is
    symmetric: [b] is a neighbour of [a] exactly when [a] is a
    neighbour of [b]. *)
Theorem builders_symmetric (hypot : Q -> Q -> Q) (components : list Component)
    (wires : list Wire) (allowedTermTypes : list string) (conductorKey a b : string) :
  (adjacent (buildAdjacency components wires) a b
   ↔ adjacent (buildAdjacency components wires) b a)
  ∧ (adjacent (buildTypedSubgraph components wires allowedTermTypes) a b
     ↔ adjacent (buildTypedSubgraph components wires allowedTermTypes) b a)
  ∧ (adjacent (buildWeightedSubgraph hypot components wires allowedTermTypes conductorKey) a b
     ↔ adjacent (buildWeightedSubgraph hypot components wires allowedTermTypes conductorKey) b a).
Proof.
  split; [|split].
  - rewrite !adjacent_string, buildAdjacency_edges. apply adjacent_foldl_addEdge_sym.
  - rewrite !adjacent_string, buildTypedSubgraph_edges. apply adjacent_foldl_addEdge_sym.
  - rewrite !adjacent_mult, buildWeightedSubgraph_edges, mult_foldl_sym. reflexivity.
Qed.

(** ** Breadth-first reachability *)

Section Nodes.
Context {A : Type} (proj : A -> string).

Lemma elem_of_graphNodes_nbrs (g : gmap string (list A)) v e :
  e ∈ nbrs g v -> proj e ∈ graphNodes proj g.
Proof.
  unfold nbrs, graphNodes. intros He.
  destruct (g !! v) as [l|] eqn:Hv; simpl in He; [|by apply elem_of_nil in He].
  apply elem_of_union_r, elem_of_union_list.
  exists (list_to_set (proj <$> l)). split.
  - apply list_elem_of_fmap. exists (v, l). split; [done|].
    by apply elem_of_map_to_list.
  - apply elem_of_list_to_set, list_elem_of_fmap. eauto.
Qed.

Lemma elem_of_graphNodes_key (g : gmap string (list A)) v :
  is_Some (g !! v) -> v ∈ graphNodes proj g.
Proof. intros Hv. apply elem_of_union_l, elem_of_dom, Hv. Qed.
End Nodes.

(** The universe minus the visited list shrinks by the number of
    fresh elements appended. *)
Lemma size_difference_step (U V : gset string) (y : string) :
  y ∈ U -> y ∉ V -> size (U ∖ (V ∪ {[y]})) + 1 = size (U ∖ V).
Proof.
  intros HyU HyV.
  assert (U ∖ V = {[y]} ∪ U ∖ (V ∪ {[y]})) as Heq.
  { apply set_eq. intros z. destruct (decide (z = y)) as [->|Hzy]; set_solver. }
  rewrite Heq, (size_union {[y]}) by set_solver. rewrite size_singleton. lia.
Qed.

Lemma size_unvisited_app (U : gset string) (vis new : list string) :
  NoDup new ->
  (forall y, y ∈ new -> y ∈ U ∧ y ∉ vis) ->
  size (U ∖ list_to_set (vis ++ new)) + length new = size (U ∖ list_to_set vis).
Proof.
  intros Hnd. revert vis.
  induction Hnd as [|y new Hy Hnd IH]; intros vis Hnew.
  - rewrite app_nil_r. simpl. lia.
  - replace (vis ++ y :: new) with ((vis ++ [y]) ++ new) by (by rewrite <- app_assoc).
    destruct (Hnew y) as [HyU Hyv]; [left|].
    assert (forall z, z ∈ new -> z ∈ U ∧ z ∉ vis ++ [y]) as Hnew'.
    { intros z Hz. destruct (Hnew z) as [HzU Hzv]; [by right|].
      split; [done|]. rewrite elem_of_app, list_elem_of_singleton.
      intros [?| ->]; done. }
    specialize (IH (vis ++ [y]) Hnew').
    pose proof (size_difference_step U (list_to_set vis) y HyU) as Hstep.
    rewrite elem_of_list_to_set in Hstep. specialize (Hstep Hyv).
    assert (list_to_set (vis ++ [y]) =@{gset string} list_to_set vis ∪ {[y]}) as Hsnoc.
    { rewrite list_to_set_app_L. simpl. by rewrite (right_id_L ∅ (∪)). }
    rewrite <- Hsnoc in Hstep. simpl. lia.
Qed.

Section Bfs.
Variable adj : gmap string (list string).

Lemma foldl_bfs_visit (l vis q : list string) :
  ∃ new, foldl bfs_visit (vis, q) l = (vis ++ new, q ++ new)
         ∧ NoDup new ∧ (forall y, y ∈ new ↔ y ∈ l ∧ y ∉ vis).
Proof.
  revert vis q. induction l as [|y l IH]; intros vis q; simpl.
  - exists []. rewrite !app_nil_r. split; [done|]. split; [constructor|].
    intros y. split; [intros Hy; by apply elem_of_nil in Hy | intros [Hy _]; done].
  - unfold bfs_visit at 2. simpl. case_bool_decide as Hy.
    + destruct (IH vis q) as (new & Heq & Hnd & Hnew).
      exists new. split; [done|]. split; [done|].
      intros z. rewrite Hnew, elem_of_cons. split; [tauto|].
      intros [[->|Hz] Hzv]; [done | tauto].
    + destruct (IH (vis ++ [y]) (q ++ [y])) as (new & Heq & Hnd & Hnew).
      exists (y :: new). rewrite Heq, <- !app_assoc. split; [done|].
      split.
      * constructor; [|done]. rewrite Hnew, elem_of_app, list_elem_of_singleton. tauto.
      * intros z. rewrite !elem_of_cons, Hnew, elem_of_app, list_elem_of_singleton.
        destruct (decide (z = y)) as [->|Hzy]; tauto.
Qed.

Lemma bfs_loop_spec (U : gset string) (s : string) (fuel : nat) (vis q : list string) :
  (forall x y, y ∈ nbrs adj x -> y ∈ U) ->
  size (U ∖ list_to_set vis) + length q < fuel ->
  bfs_inv adj s vis q ->
  ∃ r, bfs_loop fuel adj vis q = Some r ∧ bfs_post adj s r.
Proof.
  intros HU. revert vis q.
  induction fuel as [|fuel IH]; intros vis q Hfuel (Hs & Hq & Hconn & Hclosed); [lia|].
  destruct q as [|v q]; simpl.
  - exists vis. split; [done|]. split; [done|]. split; [done|].
    intros x Hx. apply Hclosed; [done|]. apply not_elem_of_nil.
  - destruct (foldl_bfs_visit (nbrs adj v) vis q) as (new & -> & Hnd & Hnew). simpl.
    assert (v ∈ vis) as Hv by (apply Hq; left).
    apply IH.
    + pose proof (size_unvisited_app U vis new Hnd) as Hsize.
      rewrite length_app. simpl in Hfuel.
      assert (forall y, y ∈ new -> y ∈ U ∧ y ∉ vis) as Hfresh.
      { intros y Hy. apply Hnew in Hy as [Hy ?]. split; [by eapply HU | done]. }
      specialize (Hsize Hfresh). lia.
    + split; [apply elem_of_app; by left|]. split; [|split].
      * intros x. rewrite !elem_of_app. intros [Hx|Hx]; [|by right].
        left. apply Hq. by right.
      * intros x. rewrite elem_of_app. intros [Hx|Hx]; [by apply Hconn|].
        apply Hnew in Hx as [Hx _].
        eapply rtc_r; [apply Hconn, Hv|]. by apply adjacent_string.
      * intros x. rewrite !elem_of_app. intros Hx Hnq y Hy.
        apply elem_of_app.
        destruct Hx as [Hx|Hx]; [|tauto].
        destruct (decide (x = v)) as [->|Hxv].
        -- destruct (decide (y ∈ vis)); [by left|]. right. by apply Hnew.
        -- left. apply (Hclosed x Hx); [|done].
           rewrite elem_of_cons. tauto.
Qed.

Lemma bfs_post_complete (s : string) (r : list string) (x : string) :
  bfs_post adj s r -> connected adj s x -> x ∈ r.
Proof.
  intros (Hs & _ & Hclosed). revert x. apply rtc_ind_r; [done|].
  intros y z _ Hyz IH.
  eapply Hclosed; [exact IH|]. by apply adjacent_string.
Qed.

(** [bfs] ends within its fuel, and returns exactly the identifiers
    connected to the start. *)
Lemma bfs_run (s : string) :
  ∃ r, bfs_loop (loopFuel id adj s) adj [s] [s] = Some r ∧ bfs_post adj s r.
Proof.
  apply (bfs_loop_spec (graphNodes id adj ∪ {[s]})).
  - intros x y Hy. apply elem_of_union_l.
    by apply (elem_of_graphNodes_nbrs id adj x y).
  - unfold loopFuel. simpl.
    pose proof (size_difference_step (graphNodes id adj ∪ {[s]}) ∅ s) as Hstep.
    rewrite (left_id_L ∅ (∪)) in Hstep. rewrite (right_id_L ∅ (∪)).
    rewrite difference_empty_L in Hstep.
    specialize (Hstep ltac:(set_solver) ltac:(set_solver)). lia.
  - split; [left|]. split; [done|]. split.
    + intros x ->%list_elem_of_singleton. constructor.
    + intros x ->%list_elem_of_singleton Hx. exfalso. apply Hx. left.
Qed.

Lemma elem_of_bfs (s x : string) : x ∈ bfs adj s ↔ connected adj s x.
Proof.
  unfold bfs. destruct (bfs_run s) as (r & -> & Hpost). simpl.
  split; [apply Hpost | apply bfs_post_complete, Hpost].
Qed.
End Bfs.

(** ** [bfsSet] *)

Section BfsSet.
Context {A : Type} `{EdgeLike A}.
Variable g : gmap string (list A).

Lemma foldl_bfsSet_visit (l : list A) (vis q : list string) :
  ∃ new, foldl bfsSet_visit (vis, q) l = (vis ++ new, q ++ new)
         ∧ NoDup new
         ∧ (forall y, y ∈ new ↔ y ∈ (edge_target <$> l) ∧ truthy y = true ∧ y ∉ vis).
Proof.
  revert vis q. induction l as [|e l IH]; intros vis q; simpl.
  - exists []. rewrite !app_nil_r. split; [done|]. split; [constructor|].
    intros y. split; [intros Hy; by apply elem_of_nil in Hy | intros [Hy _]; by apply elem_of_nil in Hy].
  - unfold bfsSet_visit at 2. cbn [fst snd].
    destruct (truthy (edge_target e)) eqn:Ht; cbn [andb].
    + case_bool_decide as Hy; cbn [negb].
      * destruct (IH vis q) as (new & Heq & Hnd & Hnew).
        exists new. split; [done|]. split; [done|].
        intros z. rewrite Hnew, elem_of_cons. split; [tauto|].
        intros [[->|Hz] [? Hzv]]; [done | tauto].
      * destruct (IH (vis ++ [edge_target e]) (q ++ [edge_target e]))
          as (new & Heq & Hnd & Hnew).
        exists (edge_target e :: new). rewrite Heq, <- !app_assoc. split; [done|].
        split.
        -- constructor; [|done]. rewrite Hnew, elem_of_app, list_elem_of_singleton. tauto.
        -- intros z. rewrite !elem_of_cons, Hnew, elem_of_app, list_elem_of_singleton.
           destruct (decide (z = edge_target e)) as [->|Hzy]; tauto.
    + destruct (IH vis q) as (new & Heq & Hnd & Hnew).
      exists new. split; [done|]. split; [done|].
      intros z. rewrite Hnew, elem_of_cons. split; [tauto|].
      intros [[->|Hz] [Htz Hzv]]; [congruence | tauto].
Qed.

Lemma bfsSet_loop_spec (U : gset string) (s : string) (fuel : nat) (vis q : list string) :
  (forall x e, e ∈ nbrs g x -> edge_target e ∈ U) ->
  size (U ∖ list_to_set vis) + length q < fuel ->
  bfsSet_inv g s vis q ->
  ∃ r, bfsSet_loop fuel g vis q = Some r ∧ bfsSet_post g s r.
Proof.
  intros HU. revert vis q.
  induction fuel as [|fuel IH]; intros vis q Hfuel (Hs & Hq & Hconn & Hclosed); [lia|].
  destruct q as [|v q]; simpl.
  - exists vis. split; [done|]. split; [done|]. split; [done|].
    intros x Hx. apply Hclosed; [done|]. apply not_elem_of_nil.
  - destruct (foldl_bfsSet_visit (nbrs g v) vis q) as (new & -> & Hnd & Hnew). simpl.
    assert (v ∈ vis) as Hv by (apply Hq; left).
    apply IH.
    + pose proof (size_unvisited_app U vis new Hnd) as Hsize.
      rewrite length_app. simpl in Hfuel.
      assert (forall y, y ∈ new -> y ∈ U ∧ y ∉ vis) as Hfresh.
      { intros y Hy. apply Hnew in Hy as (Hy & _ & ?). split; [|done].
        apply list_elem_of_fmap in Hy as (e & -> & He). by eapply HU. }
      specialize (Hsize Hfresh). lia.
    + split; [apply elem_of_app; by left|]. split; [|split].
      * intros x. rewrite !elem_of_app. intros [Hx|Hx]; [|by right].
        left. apply Hq. by right.
      * intros x. rewrite elem_of_app. intros [Hx|Hx]; [by apply Hconn|].
        apply Hnew in Hx as (Hx & Ht & _).
        eapply rtc_r; [apply Hconn, Hv|]. split; done.
      * intros x. rewrite !elem_of_app. intros Hx Hnq y [Hy Hty].
        apply elem_of_app.
        destruct Hx as [Hx|Hx]; [|tauto].
        destruct (decide (x = v)) as [->|Hxv].
        -- destruct (decide (y ∈ vis)); [by left|]. right. by apply Hnew.
        -- left. apply (Hclosed x Hx); [|done].
           rewrite elem_of_cons. tauto.
Qed.

(** [bfsSet] ends within its fuel: it returns the identifiers
    reached from a present start along truthy neighbours, and the
    empty set from an absent one. *)
Lemma elem_of_bfsSet (s x : string) :
  x ∈ bfsSet g s ↔ present g s ∧ rtc (truthyStep g) s x.
Proof.
  unfold bfsSet, present, hasKey.
  destruct (truthy s) eqn:Hts; cbn [negb orb];
    [|split; [intros Hx; by apply elem_of_nil in Hx | intros [[? _] _]; done]].
  case_bool_decide as Hks; cbn [negb];
    [|split; [intros Hx; by apply elem_of_nil in Hx | intros [[_ ?] _]; done]].
  destruct (bfsSet_loop_spec (graphNodes edge_target g ∪ {[s]}) s
              (loopFuel edge_target g s) [s] [s]) as (r & -> & Hs & Hsound & Hclosed).
  - intros y e He. apply elem_of_union_l. by eapply elem_of_graphNodes_nbrs.
  - unfold loopFuel. simpl.
    pose proof (size_difference_step (graphNodes edge_target g ∪ {[s]}) ∅ s) as Hstep.
    rewrite (left_id_L ∅ (∪)) in Hstep. rewrite (right_id_L ∅ (∪)).
    rewrite difference_empty_L in Hstep.
    specialize (Hstep ltac:(set_solver) ltac:(set_solver)). lia.
  - split; [left|]. split; [done|]. split.
    + intros y ->%list_elem_of_singleton. constructor.
    + intros y ->%list_elem_of_singleton Hy. exfalso. apply Hy. left.
  - simpl. split; [intros Hx; split; [done | by apply Hsound]|].
    intros [_ Hreach]. revert x Hreach. apply rtc_ind_r; [done|].
    intros y z _ Hyz Hy. by eapply Hclosed.
Qed.
End BfsSet.

Lemma connected_sym {A : Type} `{EdgeLike A} (g : gmap string (list A)) :
  (forall a b, adjacent g a b -> adjacent g b a) ->
  forall a b, connected g a b -> connected g b a.
Proof.
  intros Hsym a b Hab. unfold connected in *.
  induction Hab as [|a c b Hac _ IH]; [constructor|].
  eapply rtc_r; [exact IH|]. by apply Hsym.
Qed.

Lemma elem_of_reachFrom (adj : gmap string (list string)) (s : option string) (x : string) :
  x ∈ reachFrom adj s ↔ ∃ sid, s = Some sid ∧ truthy sid = true ∧ connected adj sid x.
Proof.
  unfold reachFrom. destruct s as [sid|].
  - destruct (truthy sid) eqn:Ht.
    + rewrite elem_of_bfs. split; [eauto | intros (? & [= <-] & _ & ?); done].
    + split; [intros Hx; by apply elem_of_nil in Hx | intros (? & [= <-] & ? & _); congruence].
  - split; [intros Hx; by apply elem_of_nil in Hx | intros (? & ? & _); done].
Qed.

(** C2.  When the supply's Neutral terminal is in the Line-reachable
    set, or the Line-reachable and Neutral-reachable sets intersect,
    the shorts list of the analysis holds an L–N entry. *)
Theorem analysis_reports_LN (hypot : Q -> Q -> Q) (components : list Component)
    (wires : list Wire) (supply : Component) :
  List.find (fun c => String.eqb (comp_type c) ComponentTypes.SUPPLY) components = Some supply ->
  let adj := buildAdjacency components wires in
  let reachL := reachFrom adj (termIdByName supply "L") in
  let reachN := reachFrom adj (termIdByName supply "N") in
  has_id reachL (termIdByName supply "N") = true ∨ (∃ x, x ∈ reachL ∧ x ∈ reachN) ->
  mkShort "L–N" true ∈ shorts (analysis hypot components wires).
Proof.
  intros Hsupply adj reachL reachN Hreach.
  assert (truthy_opt (termIdByName supply "L") && has_id reachL (termIdByName supply "N") = true)
    as Hcond.
  { destruct Hreach as [Hn|(x & HxL & HxN)].
    - rewrite Hn, andb_true_r.
      destruct (termIdByName supply "N") as [n|] eqn:HN; [|done]. simpl in Hn.
      apply bool_decide_eq_true in Hn.
      apply elem_of_reachFrom in Hn as (l & -> & Hl & _). done.
    - apply elem_of_reachFrom in HxL as (l & HL & Hl & Hlx).
      apply elem_of_reachFrom in HxN as (n & HN & Hn & Hnx).
      subst reachL. rewrite HL, HN. simpl. rewrite Hl. simpl.
      apply bool_decide_eq_true, elem_of_bfs.
      etrans; [exact Hlx|]. apply connected_sym; [|done].
      intros a b. rewrite !adjacent_string. unfold adj.
      rewrite buildAdjacency_edges. apply adjacent_foldl_addEdge_sym. }
  unfold analysis. rewrite Hsupply. simpl.
  fold adj. fold reachL. rewrite Hcond.
  destruct (truthy_opt _ && has_id reachL (termIdByName supply "E"));
    [apply elem_of_app; left|]; left.
Qed.

(** C2 on a supply whose Line and Neutral terminals are joined by one
    wire. *)
Lemma analysis_reports_LN_witness :
  has_id (reachFrom (buildAdjacency [Examples.supply; Examples.lamp] [Examples.deadShort])
                    (termIdByName Examples.supply "L"))
         (termIdByName Examples.supply "N") = true
  ∧ mkShort "L–N" true
      ∈ shorts (analysis hypotApprox [Examples.supply; Examples.lamp] [Examples.deadShort]).
Proof.
  split; [vm_compute; reflexivity|].
  apply (analysis_reports_LN hypotApprox [Examples.supply; Examples.lamp]
           [Examples.deadShort] Examples.supply).
  - reflexivity.
  - left. vm_compute. reflexivity.
Defined.

(** ** Open faults and the unweighted graphs *)

(** [buildTypedSubgraph] never reads the fault marker. *)
Lemma buildTypedSubgraph_ignores_fault (components : list Component) (wires : list Wire)
    (allowedTermTypes : list string) (f : string) :
  buildTypedSubgraph components (Examples.withFault f <$> wires) allowedTermTypes
  = buildTypedSubgraph components wires allowedTermTypes.
Proof.
  unfold buildTypedSubgraph. rewrite foldl_fmap. reflexivity.
Qed.

(** C1.  On Supply.L —open— Lamp.L the Line graph of
    [buildTypedSubgraph] still has the edge of the open wire, so the
    lamp terminal is reached from the supply and the meter reads 230 V
    on it; [buildWeightedSubgraph] drops the same wire. *)
Theorem open_wire_still_an_edge :
  let components := [Examples.supply; Examples.lamp] in
  let wires := [Examples.openLine] in
  adjacent (buildTypedSubgraph components wires LineTermTypes) "sL" "lL"
  ∧ "lL" ∈ bfsSet (buildTypedSubgraph components wires LineTermTypes) "sL"
  ∧ (Va <$> measureVoltage components wires "lL" "sN") = Some (Some 230%Z)
  ∧ forall hypot, nbrs (buildWeightedSubgraph hypot components wires LineTermTypes "L") "sL" = [].
Proof.
  repeat split.
  - apply adjacent_string. vm_compute. left.
  - vm_compute. right. left.
Qed.

(** ** Voltage model *)

Lemma find_none_iff {A : Type} (p : A -> bool) (l : list A) :
  List.find p l = None ↔ forall x, x ∈ l -> p x = false.
Proof.
  induction l as [|y l IH]; simpl.
  - split; [intros _ x Hx; by apply elem_of_nil in Hx | done].
  - destruct (p y) eqn:Hy.
    + split; [done|]. intros Hall. rewrite Hall in Hy; [done | left].
    + rewrite IH. split.
      * intros Hall x [->|Hx]%elem_of_cons; auto.
      * intros Hall x Hx. apply Hall. by right.
Qed.

Lemma find_some_elem {A : Type} (p : A -> bool) (l : list A) (x : A) :
  List.find p l = Some x -> x ∈ l ∧ p x = true.
Proof.
  induction l as [|y l IH]; simpl; [done|].
  destruct (p y) eqn:Hy.
  - intros [= <-]. split; [left | done].
  - intros Hx. destruct (IH Hx). split; [by right | done].
Qed.







(** C10.  Swapping the probes swaps [Va] and [Vb] and keeps [Vab],
    which is never negative. *)
Theorem measureVoltage_swap (components : list Component) (wires : list Wire) (a b : string) :
  match measureVoltage components wires a b, measureVoltage components wires b a with
  | Some r, Some r' =>
      Va r = Vb r' ∧ Vb r = Va r' ∧ Vab r = Vab r'
      ∧ forall v, Vab r = Some v -> (0 <= v)%Z
  | None, None => True
  | _, _ => False
  end.
Proof.
  unfold measureVoltage.
  destruct (findReference components) as [supply|]; [|done].
  destruct (voltageReach _ _ _) as [[rL rN] rE].
  destruct (nodeV rL rN rE a) as [x|], (nodeV rL rN rE b) as [y|]; simpl;
    repeat split; try done.
  - f_equal. lia.
  - intros v [= <-]. lia.
Qed.

(** ** Cable sizing *)

Lemma Qltb_lt (x y : Q) : Qltb x y = true ↔ (x < y)%Q.
Proof.
  unfold Qltb. rewrite negb_true_iff, <- not_true_iff_false, Qle_bool_iff.
  split; [apply Qnot_le_lt | apply Qlt_not_le].
Qed.

Lemma Qltb_ge (x y : Q) : Qltb x y = false ↔ (y <= x)%Q.
Proof.
  unfold Qltb. rewrite negb_false_iff, Qle_bool_iff. reflexivity.
Qed.

Lemma Qmax_spec (x y : Q) :
  ((x <= y)%Q ∧ Qmax x y = y) ∨ ((y < x)%Q ∧ Qmax x y = x).
Proof.
  unfold Qmax. destruct (Qle_bool x y) eqn:Hle.
  - left. split; [by apply Qle_bool_iff | done].
  - right. split; [|done]. apply Qnot_le_lt. intros H%Qle_bool_iff. congruence.
Qed.

Lemma Qmin_spec (x y : Q) :
  ((x <= y)%Q ∧ Qmin x y = x) ∨ ((y < x)%Q ∧ Qmin x y = y).
Proof.
  unfold Qmin. destruct (Qle_bool x y) eqn:Hle.
  - left. split; [by apply Qle_bool_iff | done].
  - right. split; [|done]. apply Qnot_le_lt. intros H%Qle_bool_iff. congruence.
Qed.

Lemma truthyQ_true (q : Q) : truthyQ q = true ↔ ¬ (q == 0)%Q.
Proof.
  unfold truthyQ. rewrite negb_true_iff, <- not_true_iff_false, Qeq_bool_iff. reflexivity.
Qed.

Lemma requiredCSAForTerminal_nonneg (c : Component) (t : Terminal) (region : string) :
  (0 <= requiredCSAForTerminal c t region)%Q.
Proof.
  unfold requiredCSAForTerminal.
  repeat match goal with
         | |- context [if ?b then _ else _] => destruct b
         end; unfold Qle; simpl; lia.
Qed.

Lemma wireRequiredMinCSA_nonneg (components : list Component) (wr : Wire) (region : string) :
  (0 <= wireRequiredMinCSA components wr region)%Q.
Proof.
  unfold wireRequiredMinCSA.
  destruct (terminalById components (wire_a wr)) as [ta|]; [|apply Qle_refl].
  destruct (terminalById components (wire_b wr)) as [tb|]; [|apply Qle_refl].
  set (m := Qmax (requiredCSAForTerminal _ _ _) (requiredCSAForTerminal _ _ _)).
  assert (0 <= Qmax m 0)%Q as Hm.
  { destruct (Qmax_spec m 0) as [[? ->]|[? ->]]; lra. }
  destruct (_ && _ && _); [|exact Hm].
  destruct (Qmax_spec (Qmax m 0) 10) as [[? ->]|[? ->]]; lra.
Qed.

(** C8, amended.  Without a declared size a wire is never undersized.
    With a positive declared size it is undersized exactly when the
    size plus 1e-6 is below the requirement of [wireRequiredMinCSA];
    with both endpoints resolved that requirement is the maximum of
    the two endpoint requirements, raised to 10 mm² for a UK Bonding
    cable of kind Earth. *)
Theorem isWireUndersized_spec (components : list Component) (wr : Wire)
    (region : option string) :
  (wire_sizeMm2 wr = None -> isWireUndersized components wr region = false)
  ∧ (forall s, wire_sizeMm2 wr = Some s -> (0 < s)%Q ->
       (isWireUndersized components wr region = true
        ↔ (s + EPSILON < wireRequiredMinCSA components wr (default "UK" region))%Q))
  ∧ (forall ta tb,
       terminalById components (wire_a wr) = Some ta ->
       terminalById components (wire_b wr) = Some tb ->
       let m := Qmax (requiredCSAForTerminal ta.1 ta.2 (default "UK" region))
                     (requiredCSAForTerminal tb.1 tb.2 (default "UK" region)) in
       (wireRequiredMinCSA components wr (default "UK" region)
        == if isBondingUK wr (default "UK" region) then Qmax m 10 else m)%Q).
Proof.
  split; [|split].
  - intros Hsize. unfold isWireUndersized. by rewrite Hsize.
  - intros s Hsize Hpos. unfold isWireUndersized. rewrite Hsize.
    set (req := wireRequiredMinCSA _ _ _).
    pose proof (wireRequiredMinCSA_nonneg components wr (default "UK" region)) as Hreq.
    fold req in Hreq.
    assert (truthyQ s = true) as -> by (apply truthyQ_true; lra). simpl.
    destruct (truthyQ req) eqn:Hr; simpl.
    + apply Qltb_lt.
    + split; [done|]. intros Hlt.
      apply not_true_iff_false in Hr. rewrite truthyQ_true in Hr.
      assert (req == 0)%Q as Hz by (destruct (Qeq_dec req 0); tauto).
      unfold EPSILON in Hlt. lra.
  - intros ta tb Ha Hb m. unfold wireRequiredMinCSA. rewrite Ha, Hb. fold m.
    fold (isBondingUK wr (default "UK" region)).
    assert (0 <= m)%Q as Hm.
    { subst m. pose proof (requiredCSAForTerminal_nonneg ta.1 ta.2 (default "UK" region)).
      destruct (Qmax_spec (requiredCSAForTerminal ta.1 ta.2 (default "UK" region))
                          (requiredCSAForTerminal tb.1 tb.2 (default "UK" region)))
        as [[? ->]|[? ->]]; lra. }
    assert (Qmax m 0 == m)%Q as Hm0.
    { destruct (Qmax_spec m 0) as [[? ->]|[? ->]]; lra. }
    destruct (isBondingUK _ _); [|done].
    destruct (Qmax_spec (Qmax m 0) 10) as [[? ->]|[? ->]];
      destruct (Qmax_spec m 10) as [[? ->]|[? ->]]; lra.
Qed.

(** C8 as stated fails on a 6 mm² UK main bonding conductor between
    two connector blocks: both endpoint requirements are 0, yet the
    wire is reported undersized against the 10 mm² bonding floor. *)
Lemma undersized_by_endpoint_max_fails :
  ¬ undersized_by_endpoint_max
      [Examples.blockE "ba" "a1" "a2" "a3" 0; Examples.blockE "bb" "b1" "b2" "b3" 300]
      Examples.bonding None.
Proof.
  intros [_ Hclaim].
  specialize (Hclaim 6%Q _ _ eq_refl eq_refl eq_refl).
  destruct Hclaim as [Hclaim _]. specialize (Hclaim eq_refl).
  vm_compute in Hclaim. discriminate.
Qed.

(** ** Wire cutting *)

Section Cut.
Variable rnd : nat -> string.

Lemma hypot_ltb_dist2 (p q : Q * Q) (tol : Q) :
  hypot_ltb (p.1 - q.1) (p.2 - q.2) tol = true ↔ (0 < tol)%Q ∧ (dist2 p q < tol * tol)%Q.
Proof.
  unfold hypot_ltb, dist2. rewrite andb_true_iff, !Qltb_lt. reflexivity.
Qed.

(** What a successful cut returns. *)
Lemma cutWireAt_some (components : list Component) (wire : Wire) (point : Q * Q)
    (options : CutOptions) (n n' : nat) (res : CutResult) :
  cutWireAt rnd components wire point options n = (Some res, n') ->
  n' = (n + 5)%nat
  ∧ removedWireId res = wire_id wire
  ∧ comp_id (junction res) = rnd n
  ∧ (term_id <$> comp_terminals (junction res)) = [rnd (n + 1)%nat; rnd (n + 2)%nat]
  ∧ (newWires res).1 = withIdB wire (rnd (n + 3)%nat) (rnd (n + 1)%nat)
  ∧ (newWires res).2 = withIdA wire (rnd (n + 4)%nat) (rnd (n + 2)%nat).
Proof.
  unfold cutWireAt.
  destruct (terminalById components (wire_a wire)) as [a|]; [|done].
  destruct (terminalById components (wire_b wire)) as [b|]; [|done].
  destruct (_ || _); [done|].
  unfold gbind, newId, gret. simpl. intros [= <- <-]. simpl.
  replace (n + 1)%nat with (S n) by lia.
  replace (n + 2)%nat with (S (S n)) by lia.
  replace (n + 3)%nat with (S (S (S n))) by lia.
  replace (n + 4)%nat with (S (S (S (S n)))) by lia.
  repeat split; lia.
Qed.

(** Both replacement wires carry every field of the original except
    the identifier and the rewired endpoint. *)
Lemma cutWireAt_inherits (components : list Component) (wire : Wire) (point : Q * Q)
    (options : CutOptions) (n n' : nat) (res : CutResult) :
  cutWireAt rnd components wire point options n = (Some res, n') ->
  forall wr, wr = (newWires res).1 ∨ wr = (newWires res).2 ->
    wire_kind wr = wire_kind wire
    ∧ wire_sizeMm2 wr = wire_sizeMm2 wire
    ∧ wire_cableType wr = wire_cableType wire
    ∧ wire_lengthM wr = wire_lengthM wire.
Proof.
  intros Hcut wr Hwr. apply cutWireAt_some in Hcut as (_ & _ & _ & _ & H1 & H2).
  destruct Hwr as [->| ->]; [rewrite H1 | rewrite H2]; done.
Qed.

(** What the guard of [cutWireAt] does test is the requested point
    itself: when it is closer than the tolerance to the position of
    either endpoint terminal, the cut returns null without drawing an
    identifier, and the scissors handler (default tolerance 8) leaves
    both collections as they were. *)
Lemma cutWireAt_too_close (components : list Component) (wires : list Wire)
    (wire : Wire) (point : Q * Q) (options : CutOptions) (n : nat)
    (a b : Component * Terminal) :
  terminalById components (wire_a wire) = Some a ->
  terminalById components (wire_b wire) = Some b ->
  let pa := componentTerminalAbsPos a.1 a.2 in
  let pb := componentTerminalAbsPos b.1 b.2 in
  let tol := default 8%Q (snapTolerance options) in
  (0 < tol)%Q ->
  (dist2 point pa < tol * tol)%Q ∨ (dist2 point pb < tol * tol)%Q ->
  cutWireAt rnd components wire point options n = (None, n)
  ∧ (snapTolerance options = None ->
     applyScissors rnd components wires wire point n = ((components, wires), n)).
Proof.
  intros Ha Hb pa pb tol Htol Hclose.
  assert (forall opts, default 8%Q (snapTolerance opts) = tol ->
                       cutWireAt rnd components wire point opts n = (None, n)) as Hcut.
  { intros opts Hopts. unfold cutWireAt. rewrite Ha, Hb, Hopts.
    fold pa. fold pb.
    assert (hypot_ltb (point.1 - pa.1) (point.2 - pa.2) tol
            || hypot_ltb (point.1 - pb.1) (point.2 - pb.2) tol = true) as ->; [|done].
    apply orb_true_iff. rewrite !hypot_ltb_dist2. tauto. }
  split; [by apply Hcut|].
  intros Hnone. unfold applyScissors, gbind.
  rewrite Hcut; [done|]. subst tol. by rewrite Hnone.
Qed.
End Cut.

(** C4.  Two scissors clicks beside the wire Supply.L (10,10) →
    Lamp.L (210,10).  The click (0,10) is a hit of the handler's test
    (tolerance 12) and projects onto the endpoint (10,10) itself; the
    click (14,17) is a hit and projects onto (14,10), 4 px from the
    endpoint.  Both projections are within the tolerance 8 of the
    endpoint, and both cuts are made: [cutWireAt] returns a junction
    placed on the projection, and the handler adds it and replaces the
    wire by two wires.  The guard measures the click, not its
    projection. *)
Theorem cut_near_endpoint_is_made :
  let components := [Examples.supply; Examples.lamp] in
  let wr := Examples.wire "w1" "sL" "lL" "L" in
  let options := mkCutOptions None (Some false) in
  let pa := (10, 10)%Q in
  let pb := (210, 10)%Q in
  let made (click j : Q * Q) :=
    hit_wireId <$> hitTestWireAtPoint hypotApprox [wr] components click 12
    = Some (wire_id wr)
    ∧ ((proj_x (projectPointOnSegment click pa pb) == j.1)%Q
       ∧ (proj_y (projectPointOnSegment click pa pb) == j.2)%Q)
    ∧ (dist2 j pa < 8 * 8)%Q
    ∧ ¬ cut_rejects_projected Examples.ids components wr click options 0
    ∧ ∃ res n,
        cutWireAt Examples.ids components wr click options 0 = (Some res, n)
        ∧ (comp_x (junction res) == j.1)%Q ∧ (comp_y (junction res) == j.2)%Q
        ∧ applyScissors Examples.ids components [wr] wr click 0
          = ((components ++ [junction res], [(newWires res).1; (newWires res).2]), n) in
  terminalAbsPosById components (wire_a wr) = Some pa
  ∧ terminalAbsPosById components (wire_b wr) = Some pb
  ∧ made (0, 10)%Q (10, 10)%Q
  ∧ made (14, 17)%Q (14, 10)%Q.
Proof.
  intros components wr options pa pb made.
  assert (forall click j,
            (dist2 j pa < 8 * 8)%Q ->
            (proj_x (projectPointOnSegment click pa pb) == j.1)%Q ->
            (proj_y (projectPointOnSegment click pa pb) == j.2)%Q ->
            cutWireAt Examples.ids components wr click options 0 ≠ (None, 0%nat) ->
            ¬ cut_rejects_projected Examples.ids components wr click options 0) as Hfails.
  { intros click j Hj Hx Hy Hcut Hclaim. apply Hcut.
    apply (Hclaim (Examples.supply, Examples.term "sL" "L" "L" 10 10)
                  (Examples.lamp, Examples.term "lL" "L" "L" 10 10));
      [reflexivity | reflexivity | reflexivity |].
    left.
    change (componentTerminalAbsPos (Examples.supply, Examples.term "sL" "L" "L" 10 10).1
              (Examples.supply, Examples.term "sL" "L" "L" 10 10).2) with pa.
    change (componentTerminalAbsPos (Examples.lamp, Examples.term "lL" "L" "L" 10 10).1
              (Examples.lamp, Examples.term "lL" "L" "L" 10 10).2) with pb.
    unfold dist2 in *. cbn [fst snd] in *. rewrite Hx, Hy. exact Hj. }
  assert (forall click j,
            from_option (fun res => (comp_x (junction res) == j.1)%Q
                                    ∧ (comp_y (junction res) == j.2)%Q) False
                        (cutWireAt Examples.ids components wr click options 0).1 ->
            ∃ res n,
              cutWireAt Examples.ids components wr click options 0 = (Some res, n)
              ∧ (comp_x (junction res) == j.1)%Q ∧ (comp_y (junction res) == j.2)%Q
              ∧ applyScissors Examples.ids components [wr] wr click 0
                = ((components ++ [junction res], [(newWires res).1; (newWires res).2]), n))
    as Hmade.
  { intros click j Hj. unfold applyScissors, gbind. fold options.
    destruct (cutWireAt Examples.ids components wr click options 0) as [[res|] n] eqn:Hcut;
      [|done].
    cbn [fst from_option] in Hj. destruct Hj as [Hjx Hjy].
    exists res, n. split; [done|]. split; [done|]. split; [done|]. unfold gret.
    apply cutWireAt_some in Hcut as (_ & Hrem & _). rewrite Hrem.
    do 2 f_equal. }
  split; [reflexivity|]. split; [reflexivity|].
  split.
  - split; [vm_compute; reflexivity|].
    split; [split; vm_compute; reflexivity|].
    split; [vm_compute; reflexivity|].
    split.
    + apply (Hfails _ (10, 10)%Q); [vm_compute; reflexivity | vm_compute; reflexivity
                                    | vm_compute; reflexivity | vm_compute; discriminate].
    + apply (Hmade _ (10, 10)%Q). vm_compute. split; reflexivity.
  - split; [vm_compute; reflexivity|].
    split; [split; vm_compute; reflexivity|].
    split; [vm_compute; reflexivity|].
    split.
    + apply (Hfails _ (14, 10)%Q); [vm_compute; reflexivity | vm_compute; reflexivity
                                    | vm_compute; reflexivity | vm_compute; discriminate].
    + apply (Hmade _ (14, 10)%Q). vm_compute. split; reflexivity.
Qed.

(** The guard on the same wire: a request 5 px from Supply.L is refused. *)
Lemma cutWireAt_too_close_witness :
  cutWireAt Examples.ids [Examples.supply; Examples.lamp]
    (Examples.wire "w1" "sL" "lL" "L") (13, 14)%Q (mkCutOptions None None) 0 = (None, 0%nat)
  ∧ (snapTolerance (mkCutOptions None None) = None ->
     applyScissors Examples.ids [Examples.supply; Examples.lamp]
       [Examples.wire "w1" "sL" "lL" "L"] (Examples.wire "w1" "sL" "lL" "L") (13, 14)%Q 0
     = (([Examples.supply; Examples.lamp], [Examples.wire "w1" "sL" "lL" "L"]), 0%nat)).
Proof.
  apply (cutWireAt_too_close Examples.ids [Examples.supply; Examples.lamp]
           [Examples.wire "w1" "sL" "lL" "L"] (Examples.wire "w1" "sL" "lL" "L")
           (13, 14)%Q (mkCutOptions None None) 0
           (Examples.supply, Examples.term "sL" "L" "L" 10 10)
           (Examples.lamp, Examples.term "lL" "L" "L" 10 10)).
  - reflexivity.
  - reflexivity.
  - reflexivity.
  - left. vm_compute. reflexivity.
Defined.

(** C3.  Cutting the 5 m wire Supply.L → Lamp.L at its midpoint
    succeeds, and both replacement wires keep the kind, the size and
    the cable type of the original — and its explicit length of 5 m
    as well: the spread copies [lengthM]. *)
Theorem cut_keeps_explicit_length :
  ∃ res n,
    cutWireAt Examples.ids [Examples.supply; Examples.lamp] Examples.longLine (110, 10)%Q
              (mkCutOptions None None) 0 = (Some res, n)
    ∧ wire_lengthM Examples.longLine = Some 5%Q
    ∧ forall wr, wr = (newWires res).1 ∨ wr = (newWires res).2 ->
        wire_kind wr = wire_kind Examples.longLine
        ∧ wire_sizeMm2 wr = wire_sizeMm2 Examples.longLine
        ∧ wire_cableType wr = wire_cableType Examples.longLine
        ∧ wire_lengthM wr = Some 5%Q.
Proof.
  eexists _, _. split; [vm_compute; reflexivity|]. split; [reflexivity|].
  intros wr [->| ->]; vm_compute; done.
Qed.

(** ** Shortest-resistance search *)

Section Dijkstra.
Variable g : gmap string (list Edge).
Variable start : string.
Variable U : gset string.
Hypothesis weights : nonnegWeights g.
Hypothesis universe : forall v e, e ∈ nbrs g v -> to e ∈ U.

Lemma distOf_Some (dist : gmap string JsNum) v d : dist !! v = Some d -> distOf dist v = d.
Proof. unfold distOf. by intros ->. Qed.

Lemma distOf_None (dist : gmap string JsNum) v : dist !! v = None -> distOf dist v = PInf.
Proof. unfold distOf. by intros ->. Qed.

(** The scan picks an element of [pq] of least distance. *)
Lemma extractMin_spec (dist : gmap string JsNum) (pq : list string) :
  pq ≠ [] ->
  (forall v, v ∈ pq -> ∃ q, dist !! v = Some (Fin q)) ->
  ∃ u qu, extractMin dist pq = (Some u, Fin qu)
          ∧ u ∈ pq ∧ dist !! u = Some (Fin qu)
          ∧ forall v, v ∈ pq -> num_le (Fin qu) (distOf dist v).
Proof.
  unfold extractMin. intros Hne Hfin.
  assert (forall seen acc,
    (forall v, v ∈ seen -> ∃ q, dist !! v = Some (Fin q)) ->
    (forall v, v ∈ pq -> ∃ q, dist !! v = Some (Fin q)) ->
    (acc = (None, PInf) ∧ seen = []
     ∨ ∃ u qu, acc = (Some u, Fin qu) ∧ u ∈ seen ∧ dist !! u = Some (Fin qu)
               ∧ forall v, v ∈ seen -> num_le (Fin qu) (distOf dist v)) ->
    let r := foldl (fun ub v => let d := distOf dist v in
                                if num_ltb d ub.2 then (Some v, d) else ub) acc pq in
    (r = (None, PInf) ∧ seen ++ pq = []
     ∨ ∃ u qu, r = (Some u, Fin qu) ∧ u ∈ seen ++ pq ∧ dist !! u = Some (Fin qu)
               ∧ forall v, v ∈ seen ++ pq -> num_le (Fin qu) (distOf dist v))) as Hgen.
  { clear Hne Hfin. induction pq as [|x l IH]; intros seen acc Hseen Hpq Hacc; simpl.
    - rewrite app_nil_r. exact Hacc.
    - replace (seen ++ x :: l) with ((seen ++ [x]) ++ l) by (by rewrite <- app_assoc).
      destruct (Hpq x) as [qx Hx]; [left|].
      apply IH.
      + intros v [Hv| ->%list_elem_of_singleton]%elem_of_app; [by apply Hseen | eauto].
      + intros v Hv. apply Hpq. by right.
      + right. rewrite (distOf_Some _ _ _ Hx).
        destruct Hacc as [[-> ->]|(u & qu & -> & Hu & Hdu & Hmin)]; simpl.
        * exists x, qx. split; [done|]. split; [by left|]. split; [done|].
          intros v ->%list_elem_of_singleton. rewrite (distOf_Some _ _ _ Hx). simpl. lra.
        * destruct (Qltb qx qu) eqn:Hlt.
          -- apply Qltb_lt in Hlt. exists x, qx. split; [done|].
             split; [apply elem_of_app; right; left|]. split; [done|].
             intros v [Hv| ->%list_elem_of_singleton]%elem_of_app.
             ++ specialize (Hmin v Hv). destruct (Hseen v Hv) as [qv Hqv].
                rewrite (distOf_Some _ _ _ Hqv) in Hmin |- *. simpl in *. lra.
             ++ rewrite (distOf_Some _ _ _ Hx). simpl. lra.
          -- apply Qltb_ge in Hlt. exists u, qu. split; [done|].
             split; [apply elem_of_app; by left|]. split; [done|].
             intros v [Hv| ->%list_elem_of_singleton]%elem_of_app; [by apply Hmin|].
             rewrite (distOf_Some _ _ _ Hx). simpl. lra. }
  specialize (Hgen [] (None, PInf)). simpl in Hgen.
  destruct Hgen as [[_ ->]|(u & qu & Hr & Hu & Hdu & Hmin)]; eauto 10.
  - intros v Hv. by apply elem_of_nil in Hv.
  - done.
Qed.

Lemma prevRanked_cons (Sd : list string) (prev : gmap string string) (u : string) :
  u ∉ Sd -> prevRanked Sd prev -> prevRanked (u :: Sd) prev.
Proof.
  intros Hu Hprev v p Hvp. destruct (Hprev v p Hvp) as (j & Hj & Hlt).
  exists (Datatypes.S j). split; [done|]. intros [|i] Hi; [lia|].
  simpl in Hi. specialize (Hlt i Hi). lia.
Qed.

Lemma prevRanked_insert (Sd : list string) (prev : gmap string string) (u x : string) :
  x ∉ u :: Sd -> prevRanked (u :: Sd) prev -> prevRanked (u :: Sd) (<[x := u]> prev).
Proof.
  intros Hx Hprev v p. rewrite lookup_insert. case_decide as Hxv.
  - intros [= <-]. subst v. exists 0%nat. split; [done|].
    intros i Hi. exfalso. apply Hx. by eapply list_elem_of_lookup_2.
  - apply Hprev.
Qed.

Lemma elem_of_set_delete (u v : string) (pq : list string) :
  v ∈ set_delete u pq ↔ v ∈ pq ∧ v ≠ u.
Proof. unfold set_delete. rewrite list_elem_of_filter. tauto. Qed.

Lemma num_ltb_Fin_PInf (q : Q) : num_ltb (Fin q) PInf = true.
Proof. reflexivity. Qed.

(** One relaxation step keeps the invariant and gives the target a
    distance. *)
Lemma relax_preserves (Sd : list string) (u : string) (qu : Q)
    (st : gmap string JsNum * gmap string string * list string) (e : Edge) :
  e ∈ nbrs g u ->
  RInv g start U Sd u qu st ->
  RInv g start U Sd u qu (relax u st e)
  ∧ is_Some ((relax u st e).1.1 !! to e)
  ∧ forall v, is_Some (st.1.1 !! v) -> is_Some ((relax u st e).1.1 !! v).
Proof.
  intros He (Hinv & Hu & Hmax & Hclosed).
  destruct st as [[dist prev] pq]. simpl in *.
  destruct (weights u e He) as (we & Hwe & Hwe0).
  unfold relax. rewrite (distOf_Some _ _ _ Hu), Hwe. simpl.
  assert (connected g start (to e)) as Hconn.
  { eapply rtc_r; [apply (di_sound _ _ _ _ _ _ _ Hinv); by rewrite Hu|].
    unfold adjacent. apply list_elem_of_fmap. eauto. }
  assert (to e ∉ u :: Sd ->
          RInv g start U Sd u qu
               (<[to e := Fin (qu + we)]> dist, <[to e := u]> prev, set_add (to e) pq))
    as Hupd.
  { intros Hnew.
    assert (to e ≠ u) as Hne by (intros Heq; apply Hnew; rewrite Heq; left).
    split; [|split; [|split]]; simpl.
    - destruct Hinv as [Hnd Hdom Hdisj Hfin Hle Hprev Hsound Huniv Hstart].
      split.
      + done.
      + intros v. rewrite lookup_insert_is_Some, elem_of_set_add, Hdom.
        destruct (decide (to e = v)) as [<-|Hv]; [tauto|].
        split; [intros [?|[_ ?]]; [congruence|tauto] | intros [?|[?|?]]; [| |congruence]; tauto].
      + intros v Hv. rewrite elem_of_set_add. intros [Hpq| ->]; [by eapply Hdisj|done].
      + intros v d. rewrite lookup_insert. case_decide; [|by apply Hfin].
        intros [= <-]. exists (qu + we)%Q. split; [done|].
        destruct (Hfin u _ Hu) as (qu' & [= <-] & ?). lra.
      + intros s v Hs Hv.
        assert (s ≠ to e) as Hs' by (intros ->; done).
        unfold distOf at 1. rewrite lookup_insert_ne by done. fold (distOf dist s).
        unfold distOf at 2. rewrite lookup_insert. case_decide as Hv'.
        * simpl. specialize (Hmax s Hs).
          destruct (distOf dist s); simpl in *; try done. lra.
        * fold (distOf dist v). apply Hle; [done|].
          apply elem_of_set_add in Hv as [?|?]; [done|congruence].
      + by apply prevRanked_insert.
      + intros v. rewrite lookup_insert_is_Some.
        intros [<-|[_ Hv]]; [done | by apply Hsound].
      + intros v. rewrite lookup_insert_is_Some.
        intros [<-|[_ Hv]]; [by eapply universe | by apply Huniv].
      + rewrite lookup_insert_is_Some. destruct (decide (to e = start)); auto.
    - by rewrite lookup_insert_ne.
    - intros s Hs. assert (s ≠ to e) as Hs' by (intros ->; done).
      unfold distOf. rewrite lookup_insert_ne by done. by apply Hmax.
    - intros s Hs e' He'. rewrite lookup_insert_is_Some.
      destruct (decide (to e = to e')); [by left|]. right. split; [done|].
      by eapply Hclosed. }
  destruct (dist !! to e) as [dt|] eqn:Hdt.
  - rewrite (distOf_Some _ _ _ Hdt).
    destruct (di_fin _ _ _ _ _ _ _ Hinv _ _ Hdt) as (qt & -> & Hqt). simpl.
    destruct (Qltb (qu + we) qt) eqn:Hlt; simpl.
    + apply Qltb_lt in Hlt.
      assert (to e ∉ u :: Sd) as Hnew.
      { intros Hin. specialize (Hmax _ Hin).
        rewrite (distOf_Some _ _ _ Hdt) in Hmax. simpl in Hmax. lra. }
      split; [by apply Hupd|]. split.
      * rewrite lookup_insert_is_Some. by left.
      * intros v Hv. rewrite lookup_insert_is_Some.
        destruct (decide (to e = v)); [by left | by right].
    + split; [done|]. split; [by rewrite Hdt | done].
  - rewrite (distOf_None _ _ Hdt). simpl.
    assert (to e ∉ u :: Sd) as Hnew.
    { intros Hin.
      assert (is_Some (dist !! to e)) as [? ?]; [|congruence].
      apply (di_dom _ _ _ _ _ _ _ Hinv). by left. }
    split; [by apply Hupd|]. split.
    + rewrite lookup_insert_is_Some. by left.
    + intros v Hv. rewrite lookup_insert_is_Some.
      destruct (decide (to e = v)); [by left | by right].
Qed.

Lemma relax_fold (Sd : list string) (u : string) (qu : Q) (es : list Edge)
    (st : gmap string JsNum * gmap string string * list string) :
  (forall e, e ∈ es -> e ∈ nbrs g u) ->
  RInv g start U Sd u qu st ->
  RInv g start U Sd u qu (foldl (relax u) st es)
  ∧ (forall e, e ∈ es -> is_Some ((foldl (relax u) st es).1.1 !! to e))
  ∧ forall v, is_Some (st.1.1 !! v) -> is_Some ((foldl (relax u) st es).1.1 !! v).
Proof.
  revert st. induction es as [|e es IH]; intros st Hes Hinv; simpl.
  - split; [done|]. split; [|done]. intros e He. by apply elem_of_nil in He.
  - destruct (relax_preserves Sd u qu st e) as (Hinv' & Hto & Hmono);
      [apply Hes; left | done |].
    destruct (IH (relax u st e)) as (Hinv'' & Hall & Hmono');
      [intros e' He'; apply Hes; by right | done |].
    split; [done|]. split.
    + intros e' [->|He']%elem_of_cons; [by apply Hmono' | by apply Hall].
    + intros v Hv. by apply Hmono', Hmono.
Qed.

Lemma size_unsettled_cons (Sd : list string) (u : string) :
  u ∈ U -> u ∉ Sd ->
  size (U ∖ list_to_set (u :: Sd)) + 1 = size (U ∖ list_to_set Sd).
Proof.
  intros HuU HuS. simpl.
  rewrite (comm_L (∪) {[u]}). apply size_difference_step; [done|].
  by rewrite elem_of_list_to_set.
Qed.

(** The loop ends within its fuel and returns maps that satisfy
    [DPost]. *)
Lemma dijkstra_loop_spec (goal : string) (fuel : nat) (Sd : list string)
    (dist : gmap string JsNum) (prev : gmap string string) (pq : list string) :
  DInv g start U Sd dist prev pq ->
  settledClosed g Sd dist ->
  size (U ∖ list_to_set Sd) < fuel ->
  ∃ dist' prev', dijkstra_loop fuel g goal dist prev pq = Some (dist', prev')
                 ∧ DPost g start goal dist' prev'.
Proof.
  revert Sd dist prev pq.
  induction fuel as [|fuel IH]; intros Sd dist prev pq Hinv Hclosed Hfuel; [lia|].
  pose proof Hinv as [Hnd Hdom Hdisj Hfin Hle Hprev Hsound Huniv Hstart].
  destruct pq as [|p0 pq0] eqn:Hpq.
  - exists dist, prev. split; [done|]. split; [done|]. split.
    + split; [apply Hsound|].
      assert (forall x, connected g start x -> is_Some (dist !! x)) as Hall; [|apply Hall].
      apply rtc_ind_r; [done|].
      intros y z _ Hyz Hy.
      apply Hdom in Hy as [Hy|Hy]; [|by apply elem_of_nil in Hy].
      unfold adjacent in Hyz. apply list_elem_of_fmap in Hyz as (e & -> & He).
      by eapply Hclosed.
    + exists Sd. split; [done|]. split; [|split; [|done]].
      * intros v Hv. apply Hdom. by left.
      * intros Hg. apply Hdom in Hg as [Hg|Hg]; [done | by apply elem_of_nil in Hg].
  - rewrite <- Hpq in *.
    assert (dijkstra_loop (Datatypes.S fuel) g goal dist prev pq
            = match (extractMin dist pq).1 with
              | None => None
              | Some u =>
                  if String.eqb u goal then Some (dist, prev)
                  else let '(dist', prev', pq'') :=
                         foldl (relax u) (dist, prev, set_delete u pq) (nbrs g u) in
                       dijkstra_loop fuel g goal dist' prev' pq''
              end) as -> by (rewrite Hpq; reflexivity).
    destruct (extractMin_spec dist pq) as (u & qu & -> & Hu & Hdu & Hmin).
    { rewrite Hpq. done. }
    { intros v Hv. assert (is_Some (dist !! v)) as [d Hd] by (apply Hdom; by right).
      destruct (Hfin v d Hd) as (q & -> & _). eauto. }
    simpl.
    assert (u ∉ Sd) as HuS by (intros Hin; by apply (Hdisj u Hin)).
    destruct (String.eqb u goal) eqn:Hug.
    + apply String.eqb_eq in Hug. subst u.
      exists dist, prev. split; [done|]. split; [done|].
      assert (is_Some (dist !! goal)) as Hg by (by rewrite Hdu).
      split; [split; [apply Hsound | done]|].
      exists (goal :: Sd). split; [by constructor|]. split; [|split].
      * intros v [->|Hv]%elem_of_cons; [done|]. apply Hdom. by left.
      * intros _. left.
      * by apply prevRanked_cons.
    + assert (RInv g start U Sd u qu (dist, prev, set_delete u pq)) as Hrinv.
      { split; [|split; [|split]]; simpl; [|done| |done].
        - split; try done.
          + by constructor.
          + intros v. rewrite Hdom, elem_of_cons, elem_of_set_delete.
            destruct (decide (v = u)) as [->|Hvu]; [tauto|]. tauto.
          + intros v [->|Hv]%elem_of_cons; rewrite elem_of_set_delete; [tauto|].
            intros [Hv' _]. by apply (Hdisj v).
          + intros s v [->|Hs]%elem_of_cons [Hv _]%elem_of_set_delete.
            * rewrite (distOf_Some _ _ _ Hdu). by apply Hmin.
            * by apply Hle.
          + by apply prevRanked_cons.
        - intros s [->|Hs]%elem_of_cons.
          + rewrite (distOf_Some _ _ _ Hdu). simpl. lra.
          + specialize (Hle s u Hs Hu). by rewrite (distOf_Some _ _ _ Hdu) in Hle. }
      destruct (relax_fold Sd u qu (nbrs g u) _ (fun e He => He) Hrinv)
        as (Hrinv' & Hedges & Hmono).
      destruct (foldl (relax u) (dist, prev, set_delete u pq) (nbrs g u))
        as [[dist' prev'] pq''].
      destruct Hrinv' as (Hinv' & _ & _ & Hclosed'). simpl in *.
      apply (IH (u :: Sd)); [done| |].
      * intros s [->|Hs]%elem_of_cons e He; [by apply Hedges | by eapply Hclosed'].
      * pose proof (size_unsettled_cons Sd u) as Hsize.
        specialize (Hsize ltac:(apply Huniv; by rewrite Hdu) HuS). lia.
Qed.

Lemma rebuildPath_terminates (Sd : list string) (prev : gmap string string)
    (fuel : nat) (v : string) (i : nat) (acc : list string) :
  prevRanked Sd prev ->
  Sd !! i = Some v ->
  length Sd - i < fuel ->
  ∃ p, rebuildPath fuel prev start v acc = Some p.
Proof.
  intros Hprev. revert v i acc.
  induction fuel as [|fuel IH]; intros v i acc Hi Hfuel; [lia|]. simpl.
  destruct (String.eqb v start); [eauto|].
  destruct (prev !! v) as [v'|] eqn:Hv; [|eauto].
  destruct (Hprev v v' Hv) as (j & Hj & Hlt). specialize (Hlt i Hi).
  apply (IH v' j); [done|].
  apply lookup_lt_Some in Hj. lia.
Qed.
End Dijkstra.

Lemma nonnegNum_finNonneg (d : JsNum) : nonnegNum d = true ↔ finNonneg d.
Proof.
  unfold finNonneg. destruct d as [q| | |]; simpl.
  - rewrite Qle_bool_iff. split; [eauto | intros (? & [= <-] & ?); done].
  - split; [done | intros (? & ? & _); done].
  - split; [done | intros (? & ? & _); done].
  - split; [done | intros (? & ? & _); done].
Qed.

Lemma nonnegWeightsb_sound (g : gmap string (list Edge)) :
  nonnegWeightsb g = true -> nonnegWeights g.
Proof.
  unfold nonnegWeightsb, nonnegWeights, nbrs. intros Hall v e He.
  destruct (g !! v) as [l|] eqn:Hv; simpl in He; [|by apply elem_of_nil in He].
  rewrite forallb_forall in Hall.
  specialize (Hall (v, l)). simpl in Hall.
  rewrite forallb_forall in Hall.
  apply nonnegNum_finNonneg, Hall.
  - apply list_elem_of_In. by apply elem_of_map_to_list.
  - by apply list_elem_of_In.
Qed.

Lemma length_le_size_dom (l : list string) (dist : gmap string JsNum) :
  NoDup l -> (forall v, v ∈ l -> is_Some (dist !! v)) -> length l <= size dist.
Proof.
  intros Hnd Hl. rewrite <- size_dom, <- (size_list_to_set (C:=gset string) l) by done.
  apply subseteq_size. intros v Hv. apply elem_of_dom, Hl. by apply elem_of_list_to_set in Hv.
Qed.

(** The search always returns, with one of two results: infinite
    resistance and no path when a probe is absent or the probes are
    not connected, or a finite non-negative resistance and a path when
    both probes are present and connected. *)
Lemma dijkstraWeighted_dichotomy (g : gmap string (list Edge)) (start goal : string) :
  nonnegWeights g ->
  ∃ res, dijkstraWeighted g start goal = Some res
         ∧ (R res = PInf ∧ path res = None
            ∧ ¬ (present g start ∧ present g goal ∧ connected g start goal)
            ∨ finNonneg (R res) ∧ is_Some (path res)
              ∧ present g start ∧ present g goal ∧ connected g start goal).
Proof.
  intros Hw. unfold dijkstraWeighted, present, hasKey.
  destruct (truthy start) eqn:Hts; cbn [negb orb];
    [|eexists; split; [done|]; left; split; [done|]; split; [done | intros [[? _] _]; done]].
  destruct (truthy goal) eqn:Htg; cbn [negb orb];
    [|eexists; split; [done|]; left; split; [done|]; split; [done | intros (_ & [? _] & _); done]].
  case_bool_decide as Hks; cbn [negb orb];
    [|eexists; split; [done|]; left; split; [done|]; split; [done | intros [[_ ?] _]; done]].
  case_bool_decide as Hkg; cbn [negb orb];
    [|eexists; split; [done|]; left; split; [done|]; split; [done | intros (_ & [_ ?] & _); done]].
  set (U := graphNodes to g ∪ {[start]}).
  destruct (dijkstra_loop_spec g start U Hw) with (goal := goal) (fuel := loopFuel to g start)
    (Sd := @nil string) (dist := ({[start := Fin 0]} : gmap string JsNum))
    (prev := (∅ : gmap string string)) (pq := [start])
    as (dist & prev & -> & Hfin & Hgoal & Sd & Hnd & Hdom & HgS & Hprev).
  - intros v e He. apply elem_of_union_l. by eapply elem_of_graphNodes_nbrs.
  - split.
    + constructor.
    + intros v. rewrite lookup_singleton_is_Some, list_elem_of_singleton.
      split; [intros <-; by right | intros [Hv| ->]; [by apply elem_of_nil in Hv | done]].
    + intros v Hv. by apply elem_of_nil in Hv.
    + intros v d [<- <-]%lookup_singleton_Some. exists 0%Q. split; [done | lra].
    + intros s v Hs. by apply elem_of_nil in Hs.
    + intros v p. by rewrite lookup_empty.
    + intros v <-%lookup_singleton_is_Some. constructor.
    + intros v <-%lookup_singleton_is_Some. apply elem_of_union_r. by apply elem_of_singleton.
    + by rewrite lookup_singleton_eq.
  - intros s Hs. by apply elem_of_nil in Hs.
  - unfold loopFuel. fold U. simpl. rewrite difference_empty_L. lia.
  - destruct (dist !! goal) as [d|] eqn:Hd.
    + assert (is_Some (Some d)) as Hsome by done.
      pose proof (HgS Hsome) as Hin.
      apply list_elem_of_lookup in Hin as [i Hi].
      destruct (rebuildPath_terminates start Sd prev (S (size dist)) goal i [] Hprev Hi)
        as [p ->].
      { pose proof (length_le_size_dom Sd dist Hnd Hdom). lia. }
      eexists. split; [done|]. simpl. right.
      split; [by eapply Hfin|]. split; [done|]. split; [done|]. split; [done|].
      by apply Hgoal.
    + eexists. split; [done|]. simpl. left. split; [done|]. split; [done|].
      intros (_ & _ & Hconn). apply Hgoal in Hconn as [? ?]. congruence.
Qed.

(** C6.  On a graph whose weights are finite and non-negative the
    search always returns.  If the start or the goal is absent from
    the graph, or no path connects them, it returns infinite resistance
    and no path; otherwise it returns a finite, non-negative resistance
    together with a path. *)
Theorem dijkstraWeighted_spec (g : gmap string (list Edge)) (start goal : string) :
  nonnegWeights g ->
  ∃ res, dijkstraWeighted g start goal = Some res
         ∧ (¬ present g start ∨ ¬ present g goal ∨ ¬ connected g start goal ->
            R res = PInf ∧ path res = None)
         ∧ (present g start -> present g goal -> connected g start goal ->
            (∃ r, R res = Fin r ∧ (0 <= r)%Q) ∧ ∃ p, path res = Some p).
Proof.
  intros Hw.
  destruct (dijkstraWeighted_dichotomy g start goal Hw)
    as (res & Hres & [(HR & Hp & Hno)|(HR & Hp & Hs & Hg & Hc)]);
    exists res; (split; [done|]); split.
  - done.
  - intros Hs Hg Hc. destruct Hno. done.
  - intros [Hn|[Hn|Hn]]; by destruct Hn.
  - intros _ _ _. done.
Qed.

(** C6 on the Neutral graph of Supply.N → Lamp.N: 0.08 Ω along the
    one wire. *)
Lemma dijkstraWeighted_spec_witness :
  let g := buildWeightedSubgraph hypotApprox [Examples.supply; Examples.lamp]
             [Examples.wire "w5" "sN" "lN" "N"] NeutralTermTypes "N" in
  ∃ res, dijkstraWeighted g "sN" "lN" = Some res
         ∧ (¬ present g "sN" ∨ ¬ present g "lN" ∨ ¬ connected g "sN" "lN" ->
            R res = PInf ∧ path res = None)
         ∧ (present g "sN" -> present g "lN" -> connected g "sN" "lN" ->
            (∃ r, R res = Fin r ∧ (0 <= r)%Q) ∧ ∃ p, path res = Some p).
Proof.
  intros g. apply (dijkstraWeighted_spec g "sN" "lN").
  apply nonnegWeightsb_sound. vm_compute. reflexivity.
Defined.

(** ** Edge weights are non-negative by construction *)

Lemma find_is_Some {A : Type} (p : A -> bool) (l : list A) :
  is_Some (List.find p l) ↔ ∃ x, x ∈ l ∧ p x = true.
Proof.
  split.
  - intros [x Hx]. apply find_some_elem in Hx. eauto.
  - intros (x & Hx & Hp). destruct (List.find p l) eqn:Hf; [done|].
    rewrite find_none_iff in Hf. rewrite (Hf x Hx) in Hp. done.
Qed.

Lemma terminalById_is_Some (components : list Component) (tid : string) :
  is_Some (terminalById components tid)
  ↔ ∃ c t, c ∈ components ∧ t ∈ comp_terminals c ∧ term_id t = tid.
Proof.
  induction components as [|c cs IH]; simpl.
  - split; [intros [? ?]; done | intros (c & t & Hc & _); by apply elem_of_nil in Hc].
  - destruct (List.find _ (comp_terminals c)) as [t|] eqn:Hf.
    + apply find_some_elem in Hf as [Ht Hid]. apply String.eqb_eq in Hid.
      split; [intros _ | done]. exists c, t. split; [left | done].
    + rewrite IH. rewrite find_none_iff in Hf. split.
      * intros (c' & t & Hc & Ht & Hid). exists c', t. split; [by right | done].
      * intros (c' & t & [->|Hc]%elem_of_cons & Ht & Hid); [|eauto].
        specialize (Hf t Ht). apply String.eqb_neq in Hf. done.
Qed.

Lemma termTypeById_is_Some (components : list Component) (tid : string) :
  is_Some (termTypeById components !! tid)
  ↔ ∃ c t, c ∈ components ∧ t ∈ comp_terminals c ∧ term_id t = tid.
Proof.
  unfold termTypeById.
  assert (forall ts (m : gmap string string),
            is_Some (foldl (fun m t => <[term_id t := term_t t]> m) m ts !! tid)
            ↔ is_Some (m !! tid) ∨ ∃ t, t ∈ ts ∧ term_id t = tid) as Hterms.
  { induction ts as [|t ts IH]; intros m; simpl.
    - split; [auto | intros [?|(t & Ht & _)]; [done | by apply elem_of_nil in Ht]].
    - rewrite IH, lookup_insert_is_Some. split.
      + intros [[<-|[_ ?]]|(t' & Ht' & Hid)]; [|by left|].
        * right. exists t. split; [left | done].
        * right. exists t'. split; [by right | done].
      + intros [Hm|(t' & [->|Ht']%elem_of_cons & Hid)].
        * left. destruct (decide (term_id t = tid)); [by left | by right].
        * left. by left.
        * right. eauto. }
  assert (forall cs (m : gmap string string),
            is_Some (foldl (fun m c => foldl (fun m t => <[term_id t := term_t t]> m) m
                                             (comp_terminals c)) m cs !! tid)
            ↔ is_Some (m !! tid)
              ∨ ∃ c t, c ∈ cs ∧ t ∈ comp_terminals c ∧ term_id t = tid) as Hcomps.
  { induction cs as [|c cs IH]; intros m; simpl.
    - split; [auto | intros [?|(c & t & Hc & _)]; [done | by apply elem_of_nil in Hc]].
    - rewrite IH, Hterms. split.
      + intros [[?|(t & Ht & Hid)]|(c' & t & Hc & Ht & Hid)]; [by left| |].
        * right. exists c, t. split; [left | done].
        * right. exists c', t. split; [by right | done].
      + intros [?|(c' & t & [->|Hc]%elem_of_cons & Ht & Hid)]; [by left; left| |].
        * left. right. eauto.
        * right. eauto. }
  rewrite Hcomps, lookup_empty. split; [intros [[? ?]|?]; done | by right].
Qed.

Lemma has_opt_is_Some (s : list string) (o : option string) :
  has_opt s o = true -> is_Some o.
Proof. destruct o; [eauto | done]. Qed.

Section Weights.
Variable hypot : Q -> Q -> Q.
Hypothesis hypot_nonneg : forall dx dy, (0 <= hypot dx dy)%Q.

Lemma wireRPerM_nonneg (key : string) (wr : Wire) : (0 <= wireRPerM key wr)%Q.
Proof.
  assert (0 <= R_PER_M key)%Q as Hdef.
  { unfold R_PER_M. repeat (destruct (String.eqb _ _)); unfold Qle; simpl; lia. }
  unfold wireRPerM. destruct (wire_sizeMm2 wr) as [s|]; [|done].
  destruct (truthyQ s) eqn:Hs.
  - unfold getRPerM.
    repeat (destruct (Qeq_bool s _); [unfold Qle; simpl; lia|]). done.
  - apply not_true_iff_false in Hs. rewrite truthyQ_true in Hs.
    destruct (Qeq_dec s 0) as [Hz|Hz]; [lra | tauto].
Qed.

Lemma wireDistM_nonneg (components : list Component) (wr : Wire) :
  is_Some (terminalById components (wire_a wr)) ->
  is_Some (terminalById components (wire_b wr)) ->
  finNonneg (wireDistM hypot components wr).
Proof.
  intros [[ca ta] Ha] [[cb tb] Hb].
  assert (finNonneg (num_div (pxDistanceBetweenTerminals hypot components
                                (wire_a wr) (wire_b wr)) (Fin PX_PER_M))) as Hgeo.
  { unfold pxDistanceBetweenTerminals, terminalAbsPosById. rewrite Ha, Hb. simpl.
    eexists. split; [done|].
    pose proof (hypot_nonneg (comp_x ca + term_dx ta - (comp_x cb + term_dx tb))
                             (comp_y ca + term_dy ta - (comp_y cb + term_dy tb))) as Hh.
    unfold PX_PER_M. apply Qle_shift_div_l; lra. }
  unfold wireDistM. destruct (wire_lengthM wr) as [l|]; [|done].
  destruct (Qltb 0 l) eqn:Hl; [|done].
  apply Qltb_lt in Hl. exists l. split; [done | lra].
Qed.

Lemma wireResistance_nonneg (components : list Component) (key : string) (wr : Wire) :
  is_Some (terminalById components (wire_a wr)) ->
  is_Some (terminalById components (wire_b wr)) ->
  finNonneg (wireResistance hypot components key wr).
Proof.
  intros Ha Hb. unfold wireResistance.
  destruct (wireDistM_nonneg components wr Ha Hb) as (d & -> & Hd).
  pose proof (wireRPerM_nonneg key wr) as Hr. simpl.
  assert (0 <= d * wireRPerM key wr)%Q as Hprod by (by apply Qmult_le_0_compat).
  case_bool_decide; simpl; eexists; (split; [done|]); unfold CONTACT_R; lra.
Qed.

(** All weights of a built graph are finite and non-negative. *)
Lemma buildWeightedSubgraph_nonneg (components : list Component) (wires : list Wire)
    (allowedTermTypes : list string) (conductorKey : string) :
  nonnegWeights (buildWeightedSubgraph hypot components wires allowedTermTypes conductorKey).
Proof.
  intros v e. rewrite buildWeightedSubgraph_edges, nbrs_foldl_addWeighted, nbrs_empty.
  simpl. rewrite list_elem_of_bind. intros (ed & He & Hed).
  assert (w e = ed.2) as ->.
  { unfold contrib in He. apply elem_of_app in He as [He|He];
      case_decide; try (by apply elem_of_nil in He);
      apply list_elem_of_singleton in He; by subst e. }
  unfold weightedEdges in Hed. apply elem_of_app in Hed as [Hed|Hed].
  - apply list_elem_of_omap in Hed as (wr & _ & Hsel).
    destruct (wireIncluded _ _ _ wr) eqn:Hinc; [|done].
    injection Hsel as <-. simpl.
    unfold wireIncluded in Hinc. rewrite !andb_true_iff in Hinc.
    destruct Hinc as [[[_ Ha] Hb] _].
    apply wireResistance_nonneg; apply terminalById_is_Some, termTypeById_is_Some;
      by eapply has_opt_is_Some.
  - apply list_elem_of_fmap in Hed as (p & -> & _). simpl.
    exists CONTACT_R. split; [done|]. unfold CONTACT_R. lra.
Qed.

(** The three searches of [measureResistance] all return, each with
    an infinite or a finite non-negative reading. *)
Lemma measureResistance_total (components : list Component) (wires : list Wire)
    (a b : string) :
  ∃ res, measureResistance hypot components wires a b = Some res
         ∧ forall x, x ∈ [res_L res; res_N res; res_E res] -> x = PInf ∨ finNonneg x.
Proof.
  unfold measureResistance.
  assert (forall allowed key,
            ∃ r, dijkstraWeighted
                   (buildWeightedSubgraph hypot components wires allowed key) a b = Some r
                 ∧ (R r = PInf ∨ finNonneg (R r))) as Hone.
  { intros allowed key.
    destruct (dijkstraWeighted_dichotomy _ a b
                (buildWeightedSubgraph_nonneg components wires allowed key))
      as (r & Hr & Hrange).
    exists r. split; [done|]. tauto. }
  destruct (Hone LineTermTypes "L") as (rl & -> & Hl).
  destruct (Hone NeutralTermTypes "N") as (rn & -> & Hn).
  destruct (Hone EarthTermTypes "E") as (re & -> & He).
  simpl. eexists. split; [done|]. simpl.
  intros x. rewrite !elem_of_cons. intros [->|[->|[->|Hx]]]; [done..|].
  by apply elem_of_nil in Hx.
Qed.
End Weights.

(** ** Cycle search *)

Lemma dfs_unfold (fuel : nat) (g : gmap string (list Edge)) (v : string)
    (parent : option string) (st : list string * bool) :
  dfs (S fuel) g v parent st
  = foldl (dfs_step fuel g v parent) (Some (set_add v st.1, st.2)) (nbrs g v).
Proof. reflexivity. Qed.

Lemma set_add_fresh (x : string) (s : list string) : x ∉ s -> set_add x s = s ++ [x].
Proof. intros Hx. unfold set_add. by rewrite bool_decide_eq_false_2. Qed.

Lemma size_unvisited_mono (U : gset string) (vis new : list string) :
  size (U ∖ list_to_set (vis ++ new)) <= size (U ∖ list_to_set vis).
Proof.
  apply subseteq_size. rewrite list_to_set_app_L. set_solver.
Qed.

Lemma size_unvisited_snoc (U : gset string) (vis : list string) (v : string) :
  v ∈ U -> v ∉ vis ->
  size (U ∖ list_to_set (vis ++ [v])) + 1 = size (U ∖ list_to_set vis).
Proof.
  intros HvU Hv.
  pose proof (size_unvisited_app U vis [v]) as Hsize. simpl in Hsize.
  rewrite <- Hsize; [lia | apply NoDup_singleton |].
  intros y ->%list_elem_of_singleton. done.
Qed.

Lemma flagSet_trans (a b c : bool) :
  (a = true -> b = true) -> flagSet a c <= flagSet a b + flagSet b c.
Proof.
  destruct a, b, c; unfold flagSet; simpl; intros H; try lia.
Qed.

Lemma flagSet_refl (a : bool) : flagSet a a = 0.
Proof. by destruct a. Qed.

Lemma sumDeg_app (g : gmap string (list Edge)) (l k : list string) :
  sumDeg g (l ++ k) = sumDeg g l + sumDeg g k.
Proof. apply sum_list_with_app. Qed.

Lemma sumDeg_cons (g : gmap string (list Edge)) (x : string) (l : list string) :
  sumDeg g (x :: l) = deg g x + sumDeg g l.
Proof. reflexivity. Qed.

Lemma length_filter_split {A : Type} (P : A -> Prop) `{forall x, Decision (P x)} (l : list A) :
  length l = length (filter P l) + length (filter (fun x => ¬ P x) l).
Proof.
  induction l as [|x l IH]; [done|].
  rewrite !filter_cons. destruct (decide (P x)), (decide (¬ P x)); simpl; try lia; tauto.
Qed.

Lemma deg_split (g : gmap string (list Edge)) (v : string) (parent : option string) :
  deg g v = cntParent g v parent + nonParent parent (nbrs g v).
Proof.
  unfold deg, cntParent, nonParent, mult. destruct parent as [p|].
  - rewrite (length_filter_split (fun e => to e = p)). f_equal.
    f_equal. apply list_filter_iff. intros e.
    split; [intros Hn [= Heq]; by apply Hn | intros Hn Heq; apply Hn; by rewrite Heq].
  - simpl. induction (nbrs g v) as [|e l IH]; [done|].
    rewrite filter_cons. destruct (decide _) as [_|Hn]; [simpl; by f_equal|].
    destruct Hn. done.
Qed.

Section Dfs.
Variable g : gmap string (list Edge).
Variable U : gset string.
Hypothesis sym : symmetricGraph g.
Hypothesis universe : forall v e, e ∈ nbrs g v -> to e ∈ U.

Lemma nonParent_cons_parent (parent : option string) (e : Edge) (us : list Edge) :
  parent = Some (to e) -> nonParent parent (e :: us) = nonParent parent us.
Proof.
  intros Hp. unfold nonParent. rewrite filter_cons.
  destruct (decide _) as [Hn|_]; [by destruct Hn | done].
Qed.

Lemma nonParent_cons_other (parent : option string) (e : Edge) (us : list Edge) :
  parent ≠ Some (to e) -> nonParent parent (e :: us) = S (nonParent parent us).
Proof.
  intros Hp. unfold nonParent. rewrite filter_cons.
  destruct (decide _) as [_|Hn]; [done | by destruct Hn].
Qed.

Lemma mult_pos (v : string) (e : Edge) : e ∈ nbrs g v -> 1 <= mult g v (to e).
Proof.
  intros He. unfold mult.
  assert (e ∈ filter (fun d => to d = to e) (nbrs g v)) as Hin
    by (by apply list_elem_of_filter).
  destruct (filter _ _); [by apply elem_of_nil in Hin | simpl; lia].
Qed.

(** An array [pre ++ e :: us] in which only [e] points to [to e]. *)
Lemma mult_unique (v : string) (e : Edge) (pre us : list Edge) :
  nbrs g v = pre ++ e :: us ->
  (forall d, d ∈ pre -> to d ≠ to e) ->
  (forall d, d ∈ us -> to d ≠ to e) ->
  mult g v (to e) = 1.
Proof.
  intros Hsplit Hpre Hus. unfold mult. rewrite Hsplit, filter_app, filter_cons.
  rewrite decide_True by done.
  assert (forall l : list Edge, (forall d, d ∈ l -> to d ≠ to e) ->
            filter (fun d => to d = to e) l = []) as Hnone.
  { intros l Hl. induction l as [|d l IH]; [done|].
    rewrite filter_cons, decide_False by (apply Hl; left).
    apply IH. intros d' Hd'. apply Hl. by right. }
  rewrite (Hnone pre Hpre), (Hnone us Hus). reflexivity.
Qed.

Lemma dfs_scan_spec (fuel : nat) (v : string) (parent : option string) :
  dfsCallSpec g U fuel ->
  forall us pre vis cyc,
    nbrs g v = pre ++ us ->
    v ∈ vis ->
    (forall q, parent = Some q -> q ∈ vis) ->
    (forall e, e ∈ pre -> to e ∈ vis ∨ parent = Some (to e)) ->
    size (U ∖ list_to_set vis) <= fuel ->
    ∃ new cyc',
      foldl (dfs_step fuel g v parent) (Some (vis, cyc)) us = Some (vis ++ new, cyc')
      ∧ dfsFacts g U v vis new cyc cyc' 0 (nonParent parent us)
      ∧ (forall e, e ∈ us -> to e ∈ vis ++ new)
      ∧ (cyc' = false -> forall e, e ∈ us -> to e ∈ vis -> parent = Some (to e)).
Proof.
  intros Hcall. induction us as [|e us IH]; intros pre vis cyc Hsplit Hv Hpar Hpre Hfuel.
  - exists [], cyc. simpl. rewrite app_nil_r. split; [done|]. split; [|split].
    + split; [constructor|]. split; [intros x Hx; by apply elem_of_nil in Hx|].
      split; [done|]. split; [intros x Hx; by apply elem_of_nil in Hx|].
      rewrite flagSet_refl. unfold nonParent, sumDeg. simpl. split; [lia | done].
    + intros e He. by apply elem_of_nil in He.
    + intros _ e He. by apply elem_of_nil in He.
  - assert (nbrs g v = (pre ++ [e]) ++ us) as Hsplit' by (by rewrite <- app_assoc).
    assert (e ∈ nbrs g v) as He
      by (rewrite Hsplit; apply elem_of_app; right; left).
    cbn [foldl]. unfold dfs_step at 2. cbn [fst snd].
    case_bool_decide as Hep.
    + (* the entry points to the parent *)
      destruct (IH (pre ++ [e]) vis cyc Hsplit' Hv Hpar) as
        (new & cyc' & Hrun & Hfacts & Htargets & Hnox); [|done|].
      { intros d [Hd| ->%list_elem_of_singleton]%elem_of_app; [by apply Hpre | by right]. }
      exists new, cyc'. split; [done|]. rewrite (nonParent_cons_parent _ _ _ Hep).
      split; [done|]. split.
      * intros d [->|Hd]%elem_of_cons; [|by apply Htargets].
        apply elem_of_app. left. by apply Hpar.
      * intros Hc d [->|Hd]%elem_of_cons; [done | by apply Hnox].
    + case_bool_decide as Hvis.
      * (* the entry points to a visited identifier: the flag is raised *)
        destruct (IH (pre ++ [e]) vis true Hsplit' Hv Hpar) as
          (new & cyc' & Hrun & Hfacts & Htargets & Hnox); [|done|].
        { intros d [Hd| ->%list_elem_of_singleton]%elem_of_app; [by apply Hpre | by left]. }
        destruct Hfacts as (Hnd & Hnew & Hmono & Hclosed & Hge & Heq).
        specialize (Hmono eq_refl). subst cyc'.
        exists new, true. split; [done|]. rewrite (nonParent_cons_other _ _ _ Hep).
        split; [|split].
        -- split; [done|]. split; [done|]. split; [done|]. split; [done|].
           split; [|done]. rewrite flagSet_refl in Hge.
           assert (flagSet cyc true <= 1) by (destruct cyc; unfold flagSet; simpl; lia). lia.
        -- intros d [->|Hd]%elem_of_cons; [|by apply Htargets].
           apply elem_of_app. by left.
        -- done.
      * (* the entry points to an unvisited identifier: a nested call *)
        set (u := to e) in *.
        destruct (Hcall u (Some v) vis cyc) as (new1 & cyc1 & Hrun1 & Hfacts1);
          [done | by eapply universe | done | by intros q [= <-] |].
        rewrite Hrun1.
        destruct Hfacts1 as (Hnd1 & Hnew1 & Hmono1 & Hclosed1 & Hge1 & Heq1).
        destruct (IH (pre ++ [e]) (vis ++ u :: new1) cyc1 Hsplit') as
          (new2 & cyc' & Hrun2 & Hfacts2 & Htargets2 & Hnox2).
        { apply elem_of_app. by left. }
        { intros q Hq. apply elem_of_app. left. by apply Hpar. }
        { intros d [Hd| ->%list_elem_of_singleton]%elem_of_app.
          - destruct (Hpre d Hd) as [?|?]; [left; apply elem_of_app; by left | by right].
          - left. apply elem_of_app. right. left. }
        { etrans; [apply size_unvisited_mono | done]. }
        destruct Hfacts2 as (Hnd2 & Hnew2 & Hmono2 & Hclosed2 & Hge2 & Heq2).
        exists ((u :: new1) ++ new2), cyc'.
        rewrite Hrun2, <- app_assoc. split; [done|].
        rewrite (nonParent_cons_other _ _ _ Hep).
        assert (1 <= mult g u v) as Hback.
        { rewrite sym. by apply mult_pos. }
        simpl in Hge1, Heq1.
        split; [|split].
        -- split; [|split; [|split; [|split; [|split]]]].
           ++ apply NoDup_app. split; [done|]. split; [|done].
              intros x Hx Hx2. destruct (Hnew2 x Hx2) as [Hnot _].
              apply Hnot, elem_of_app. by right.
           ++ intros x [Hx|Hx]%elem_of_app.
              ** destruct (Hnew1 x Hx) as (? & ? & Hconn). split; [done|]. split; [done|].
                 eapply rtc_l; [|exact Hconn]. unfold adjacent.
                 apply list_elem_of_fmap. exists e. done.
              ** destruct (Hnew2 x Hx) as (Hnot & ? & ?). split; [|done].
                 intros Hin. apply Hnot, elem_of_app. by left.
           ++ auto.
           ++ intros x [Hx|Hx]%elem_of_app d Hd.
              ** specialize (Hclosed1 x Hx d Hd). rewrite app_assoc.
                 apply elem_of_app. by left.
              ** specialize (Hclosed2 x Hx d Hd). by rewrite app_assoc.
           ++ rewrite sumDeg_app, length_app.
              pose proof (flagSet_trans cyc cyc1 cyc' Hmono1). simpl in *. lia.
           ++ intros Hc.
              assert (cyc1 = false) as Hc1
                by (destruct cyc1; [by specialize (Hmono2 eq_refl); congruence | done]).
              specialize (Heq1 Hc1). specialize (Heq2 Hc).
              assert (mult g u v = 1) as Hone.
              { rewrite sym. apply (mult_unique v e pre us Hsplit).
                - intros d Hd Heq. fold u in Heq. destruct (Hpre d Hd) as [Hin|Hp].
                  + apply Hvis. by rewrite <- Heq.
                  + apply Hep. by rewrite <- Heq.
                - intros d Hd Heq. fold u in Heq. apply Hep. rewrite <- Heq.
                  apply (Hnox2 Hc d Hd). rewrite Heq. apply elem_of_app. right. left. }
              rewrite sumDeg_app, length_app. simpl in *. lia.
        -- intros d [->|Hd]%elem_of_cons.
           ++ apply elem_of_app. right. left.
           ++ specialize (Htargets2 d Hd). by rewrite <- app_assoc in Htargets2.
        -- intros Hc d [->|Hd]%elem_of_cons Hin; [done|].
           apply (Hnox2 Hc d Hd). apply elem_of_app. by left.
Qed.

Lemma dfs_call_spec (fuel : nat) : dfsCallSpec g U fuel.
Proof.
  induction fuel as [|fuel IH]; intros v parent vis cyc Hv HvU Hfuel Hpar.
  - pose proof (size_unvisited_snoc U vis v HvU Hv). lia.
  - rewrite dfs_unfold. cbn [fst snd]. rewrite (set_add_fresh v vis Hv).
    destruct (dfs_scan_spec fuel v parent IH (nbrs g v) [] (vis ++ [v]) cyc)
      as (new & cyc' & Hrun & Hfacts & Htargets & _).
    { done. }
    { apply elem_of_app. right. left. }
    { intros q Hq. apply elem_of_app. left. by apply Hpar. }
    { intros e He. by apply elem_of_nil in He. }
    { pose proof (size_unvisited_snoc U vis v HvU Hv). lia. }
    exists new, cyc'. rewrite Hrun, <- app_assoc. split; [done|].
    destruct Hfacts as (Hnd & Hnew & Hmono & Hclosed & Hge & Heq).
    split; [|split; [|split; [|split; [|split]]]].
    + constructor; [|done]. intros Hin. destruct (Hnew v Hin) as [Hnot _].
      apply Hnot, elem_of_app. right. left.
    + intros x [->|Hx]%elem_of_cons.
      * split; [done|]. split; [done | constructor].
      * destruct (Hnew x Hx) as (Hnot & ? & ?). split; [|done].
        intros Hin. apply Hnot, elem_of_app. by left.
    + done.
    + intros x [->|Hx]%elem_of_cons e He.
      * specialize (Htargets e He). by rewrite <- app_assoc in Htargets.
      * specialize (Hclosed x Hx e He). by rewrite <- app_assoc in Hclosed.
    + rewrite sumDeg_cons, (deg_split g v parent). simpl. lia.
    + intros Hc. specialize (Heq Hc).
      rewrite sumDeg_cons, (deg_split g v parent). simpl. lia.
Qed.
End Dfs.

(** The run of [hasCycleThrough] on a present start: it ends within
    its fuel, visits exactly the identifiers connected to the start,
    each once, and leaves the flag down exactly when the arrays of the
    visited identifiers hold twice as many entries as a tree on them
    has edges. *)
Lemma hasCycleThrough_run_spec (g : gmap string (list Edge)) (s : string) :
  symmetricGraph g ->
  truthy s = true -> is_Some (g !! s) ->
  ∃ vis cyc,
    hasCycleThrough_run g s = Some (vis, cyc)
    ∧ NoDup vis
    ∧ (forall x, x ∈ vis ↔ connected g s x)
    ∧ (cyc = false ↔ sumDeg g vis + 2 = 2 * length vis).
Proof.
  intros Hsym Hts Hks. unfold hasCycleThrough_run, hasKey.
  rewrite Hts, bool_decide_eq_true_2 by done. cbn [andb].
  set (U := graphNodes to g ∪ {[s]}).
  destruct (dfs_call_spec g U Hsym) with (fuel := loopFuel to g s)
    (v := s) (parent := @None string) (vis := @nil string) (cyc := false)
    as (new & cyc & Hrun & Hnd & Hnew & _ & Hclosed & Hge & Heq).
  - intros v e He. apply elem_of_union_l. by eapply elem_of_graphNodes_nbrs.
  - apply not_elem_of_nil.
  - apply elem_of_union_r. by apply elem_of_singleton.
  - unfold loopFuel. fold U. simpl. rewrite difference_empty_L. lia.
  - done.
  - simpl in Hrun. exists (s :: new), cyc. split; [done|]. split; [done|]. split.
    + intros x. split; [intros Hx; by apply Hnew|].
      revert x. apply rtc_ind_r; [left|].
      intros y z _ Hyz Hy. unfold adjacent in Hyz.
      apply list_elem_of_fmap in Hyz as (e & -> & He).
      apply (Hclosed y Hy e He).
    + simpl in Hge, Heq. split; [intros Hc; specialize (Heq Hc); simpl; lia|].
      intros Hsum. destruct cyc; [|done]. unfold flagSet in Hge. simpl in *. lia.
Qed.

(** ** Ring detection does not depend on the order of the wires *)

Lemma sameUpToOrder_adjacent (g g' : gmap string (list Edge)) (x y : string) :
  sameUpToOrder g g' -> adjacent g x y ↔ adjacent g' x y.
Proof.
  intros [_ Hperm]. unfold adjacent, edge_target, Edge_EdgeLike.
  by rewrite (Hperm x).
Qed.

Lemma sameUpToOrder_connected (g g' : gmap string (list Edge)) (x y : string) :
  sameUpToOrder g g' -> connected g x y -> connected g' x y.
Proof.
  intros Hsame. unfold connected. revert y. apply rtc_ind_r; [constructor|].
  intros y z _ Hyz IH. eapply rtc_r; [exact IH|].
  by apply (sameUpToOrder_adjacent g g').
Qed.

Lemma sameUpToOrder_sym (g g' : gmap string (list Edge)) :
  sameUpToOrder g g' -> sameUpToOrder g' g.
Proof. intros [Hk Hp]. split; intros x; [by rewrite Hk | by rewrite Hp]. Qed.

Lemma sameUpToOrder_deg (g g' : gmap string (list Edge)) (x : string) :
  sameUpToOrder g g' -> deg g x = deg g' x.
Proof.
  intros [_ Hperm]. unfold deg.
  rewrite <- (length_fmap to (nbrs g x)), <- (length_fmap to (nbrs g' x)).
  by rewrite (Hperm x).
Qed.

Lemma sameUpToOrder_sumDeg (g g' : gmap string (list Edge)) (l l' : list string) :
  sameUpToOrder g g' -> l ≡ₚ l' -> sumDeg g l = sumDeg g' l'.
Proof.
  intros Hsame Hperm. unfold sumDeg.
  transitivity (sum_list_with (deg g') l); [|by rewrite Hperm].
  clear Hperm. induction l as [|x l IH]; [done|]. simpl.
  by rewrite IH, (sameUpToOrder_deg g g' x Hsame).
Qed.

(** On two symmetric graphs that differ only in the order of their
    arrays, [hasCycleThrough] gives the same answer. *)
Lemma hasCycleThrough_order (g g' : gmap string (list Edge)) (s : string) :
  symmetricGraph g -> symmetricGraph g' -> sameUpToOrder g g' ->
  hasCycleThrough g s = hasCycleThrough g' s.
Proof.
  intros Hsym Hsym' Hsame. unfold hasCycleThrough.
  destruct (truthy s) eqn:Hts;
    [|unfold hasCycleThrough_run; by rewrite Hts].
  destruct (decide (is_Some (g !! s))) as [Hks|Hks].
  - assert (is_Some (g' !! s)) as Hks' by (by apply Hsame).
    destruct (hasCycleThrough_run_spec g s Hsym Hts Hks)
      as (vis & cyc & -> & Hnd & Hvis & Hcyc).
    destruct (hasCycleThrough_run_spec g' s Hsym' Hts Hks')
      as (vis' & cyc' & -> & Hnd' & Hvis' & Hcyc').
    simpl.
    assert (vis ≡ₚ vis') as Hperm.
    { apply NoDup_Permutation; [done..|]. intros x. rewrite Hvis, Hvis'.
      split; apply sameUpToOrder_connected; [done | by apply sameUpToOrder_sym]. }
    assert (cyc = false ↔ cyc' = false) as Hiff.
    { rewrite Hcyc, Hcyc', (sameUpToOrder_sumDeg g g' vis vis' Hsame Hperm).
      by rewrite (Permutation_length Hperm). }
    destruct cyc, cyc'; try done; destruct Hiff as [H1 H2];
      [by specialize (H2 eq_refl) | by specialize (H1 eq_refl)].
  - assert (¬ is_Some (g' !! s)) as Hks' by (intros H; by apply Hks, Hsame).
    unfold hasCycleThrough_run, hasKey.
    by rewrite !bool_decide_eq_false_2, andb_false_r by done.
Qed.

Section RingOrder.
Variable hypot : Q -> Q -> Q.

Lemma buildWeightedSubgraph_symmetric (components : list Component) (wires : list Wire)
    (allowed : list string) (key : string) :
  symmetricGraph (buildWeightedSubgraph hypot components wires allowed key).
Proof.
  intros x y. rewrite buildWeightedSubgraph_edges. apply mult_foldl_sym.
Qed.

Lemma weightedEdges_Permutation (components : list Component) (wires wires' : list Wire)
    (allowed : list string) (key : string) :
  wires ≡ₚ wires' ->
  weightedEdges hypot components wires allowed key
  ≡ₚ weightedEdges hypot components wires' allowed key.
Proof. intros Hperm. unfold weightedEdges. by rewrite Hperm. Qed.

Lemma buildWeightedSubgraph_order (components : list Component) (wires wires' : list Wire)
    (allowed : list string) (key : string) :
  wires ≡ₚ wires' ->
  sameUpToOrder (buildWeightedSubgraph hypot components wires allowed key)
                (buildWeightedSubgraph hypot components wires' allowed key).
Proof.
  intros Hperm.
  pose proof (weightedEdges_Permutation components wires wires' allowed key Hperm) as Hedges.
  rewrite !buildWeightedSubgraph_edges. split; intros x.
  - rewrite !is_Some_foldl_addWeighted, !lookup_empty.
    split; (intros [[? ?]|(e & He & Hx)]; [done|]); right; exists e;
      (split; [|done]); [by rewrite <- Hedges | by rewrite Hedges].
  - rewrite !nbrs_foldl_addWeighted, !nbrs_empty, !app_nil_l. by rewrite Hedges.
Qed.

(** C5.  Two wire collections that hold the same wires in a
    different order give the same answer on every family graph and
    from every start, and so the same ring status for Line, Neutral
    and Earth in the analysis. *)
Theorem ring_order_independent (components : list Component) (wires wires' : list Wire) :
  wires ≡ₚ wires' ->
  (forall allowed key s,
     hasCycleThrough (buildWeightedSubgraph hypot components wires allowed key) s
     = hasCycleThrough (buildWeightedSubgraph hypot components wires' allowed key) s)
  ∧ ring (analysis hypot components wires) = ring (analysis hypot components wires').
Proof.
  intros Hperm.
  assert (forall allowed key s,
     hasCycleThrough (buildWeightedSubgraph hypot components wires allowed key) s
     = hasCycleThrough (buildWeightedSubgraph hypot components wires' allowed key) s) as Hsame.
  { intros allowed key s. apply hasCycleThrough_order;
      [apply buildWeightedSubgraph_symmetric.. | by apply buildWeightedSubgraph_order]. }
  split; [done|]. unfold analysis.
  destruct (List.find _ components) as [supply|]; [|done]. simpl.
  unfold ringThrough.
  destruct (termIdByName supply "L"), (termIdByName supply "N"),
    (termIdByName supply "E"); by rewrite ?Hsame.
Qed.
End RingOrder.

(** C5 on the ring Supply → A → B → Supply, against the same nine
    wires listed backwards. *)
Lemma ring_order_independent_witness :
  (forall allowed key s,
     hasCycleThrough (buildWeightedSubgraph hypotApprox RingExample.components
                        RingExample.wires allowed key) s
     = hasCycleThrough (buildWeightedSubgraph hypotApprox RingExample.components
                          (reverse RingExample.wires) allowed key) s)
  ∧ ring (analysis hypotApprox RingExample.components RingExample.wires)
    = ring (analysis hypotApprox RingExample.components (reverse RingExample.wires)).
Proof.
  apply (ring_order_independent hypotApprox RingExample.components
           RingExample.wires (reverse RingExample.wires)).
  symmetry. apply reverse_Permutation.
Defined.

(** The ring of the example is seen on all three conductors. *)
Example ring_example_status :
  ring (analysis hypotApprox RingExample.components RingExample.wires)
  = Some (mkRing true true true).
Proof. vm_compute. reflexivity. Qed.

(** ** Ring detection does not depend on the direction of the wires *)

Lemma sameUpToOrder_trans (g1 g2 g3 : gmap string (list Edge)) :
  sameUpToOrder g1 g2 -> sameUpToOrder g2 g3 -> sameUpToOrder g1 g3.
Proof.
  intros [Hk Hp] [Hk' Hp']. split; intros x; [by rewrite Hk | by rewrite Hp].
Qed.

Lemma contrib_sameEnds (x : string) (e e' : string * string * JsNum) :
  sameEnds e e' -> (to <$> contrib x e) ≡ₚ (to <$> contrib x e').
Proof.
  destruct e as [[a b] r], e' as [[a' b'] r']. unfold sameEnds, contrib. simpl.
  intros [[-> ->]|[-> ->]].
  - by destruct (decide (a' = x)), (decide (b' = x)).
  - destruct (decide (b' = x)), (decide (a' = x)); simpl; try done. apply perm_swap.
Qed.

Lemma foldl_addWeighted_sameEnds (es es' : list (string * string * JsNum)) :
  Forall2 sameEnds es es' ->
  sameUpToOrder (foldl addWeightedEdge ∅ es) (foldl addWeightedEdge ∅ es').
Proof.
  intros Hall. split; intros x.
  - rewrite !is_Some_foldl_addWeighted, !lookup_empty.
    assert (forall l l', Forall2 sameEnds l l' ->
              (∃ e, e ∈ l ∧ (x = e.1.1 ∨ x = e.1.2)) ->
              ∃ e, e ∈ l' ∧ (x = e.1.1 ∨ x = e.1.2)) as Hone.
    { intros l l' Hl. induction Hl as [|e e' l l' He Hl IH].
      - intros (e & He & _). by apply elem_of_nil in He.
      - intros (d & [->|Hd]%elem_of_cons & Hx).
        + exists e'. split; [left|]. destruct He as [[<- <-]|[<- <-]]; tauto.
        + destruct IH as (d' & Hd' & Hx'); [eauto|]. exists d'. split; [by right | done]. }
    split; (intros [[? ?]|Hex]; [done|]); right.
    + by apply (Hone es es').
    + apply (Hone es' es); [|done].
      clear -Hall. induction Hall as [|e e' l l' He Hl IH]; constructor; [|done].
      destruct He as [[? ?]|[? ?]]; [left | right]; done.
  - rewrite !nbrs_foldl_addWeighted, !nbrs_empty, !app_nil_l.
    induction Hall as [|e e' l l' He Hl IH]; [done|].
    rewrite !bind_cons, !fmap_app, IH. by rewrite (contrib_sameEnds x e e' He).
Qed.

Section RingDirection.
Variable hypot : Q -> Q -> Q.

Lemma wireIncluded_flip (tt : gmap string string) (allowed : list string) (key : string)
    (wr : Wire) :
  wireIncluded tt allowed key (flipWire wr) = wireIncluded tt allowed key wr.
Proof.
  unfold wireIncluded, kindMatches. simpl.
  by destruct (has_opt allowed (tt !! wire_a wr)), (has_opt allowed (tt !! wire_b wr)),
    (bool_decide (wire_fault wr = Some "open")).
Qed.

Lemma weightedEdges_redrawn (components : list Component) (flips : list bool)
    (wires : list Wire) (allowed : list string) (key : string) :
  length flips = length wires ->
  Forall2 sameEnds (weightedEdges hypot components wires allowed key)
                   (weightedEdges hypot components (redrawn flips wires) allowed key).
Proof.
  intros Hlen. unfold weightedEdges. apply Forall2_app.
  - revert flips Hlen. induction wires as [|wr wires IH]; intros [|b flips] Hlen;
      simpl in *; try done; try constructor.
    assert (wireIncluded (termTypeById components) allowed key
              (if b then flipWire wr else wr)
            = wireIncluded (termTypeById components) allowed key wr) as Hinc
      by (destruct b; [apply wireIncluded_flip | done]).
    rewrite Hinc. destruct (wireIncluded _ _ _ wr); [|apply IH; lia].
    constructor; [|apply IH; lia].
    destruct b; [right | left]; done.
  - apply Forall_Forall2_diag, Forall_forall. intros e _. by left.
Qed.

(** X1.  Redrawing some wires from their other end and listing the
    collection in another order leaves the ring status unchanged:
    the ring Supply → A → B → Supply is the ring
    Supply → B → A → Supply. *)
Lemma ring_direction_independent (components : list Component) (flips : list bool)
    (wires wires' : list Wire) :
  length flips = length wires ->
  redrawn flips wires ≡ₚ wires' ->
  ring (analysis hypot components wires) = ring (analysis hypot components wires').
Proof.
  intros Hlen Hperm.
  assert (forall allowed key s,
     hasCycleThrough (buildWeightedSubgraph hypot components wires allowed key) s
     = hasCycleThrough (buildWeightedSubgraph hypot components wires' allowed key) s) as Hsame.
  { intros allowed key s. apply hasCycleThrough_order;
      [apply buildWeightedSubgraph_symmetric.. |].
    eapply sameUpToOrder_trans; [|by apply buildWeightedSubgraph_order].
    rewrite !buildWeightedSubgraph_edges.
    by apply foldl_addWeighted_sameEnds, weightedEdges_redrawn. }
  unfold analysis.
  destruct (List.find _ components) as [supply|]; [|done]. simpl.
  unfold ringThrough.
  destruct (termIdByName supply "L"), (termIdByName supply "N"),
    (termIdByName supply "E"); by rewrite ?Hsame.
Qed.
End RingDirection.

(** The example ring drawn the other way round, Supply → B → A →
    Supply: still a ring on all three conductors. *)
Example ring_example_other_way :
  ring (analysis hypotApprox RingExample.components
          (flipWire <$> reverse RingExample.wires))
  = Some (mkRing true true true).
Proof. vm_compute. reflexivity. Qed.

(** ** The search returns a least-resistance walk *)

Section Shortest.
Variable g : gmap string (list Edge).
Variable start : string.
Variable U : gset string.
Hypothesis weights : nonnegWeights g.
Hypothesis universe : forall v e, e ∈ nbrs g v -> to e ∈ U.

Lemma num_le_Fin (a b : JsNum) :
  num_le a b -> ∃ x y, a = Fin x ∧ b = Fin y ∧ (x <= y)%Q.
Proof. destruct a, b; simpl; try done. eauto. Qed.

(** One relaxation step keeps [XInv] and handles its edge. *)
Lemma relax_preserves_x (Sd : list string) (u : string) (qu : Q) (seen : list Edge)
    (st : gmap string JsNum * gmap string string * list string) (e : Edge) :
  e ∈ nbrs g u ->
  RInv g start U Sd u qu st ->
  XInv g start (relaxedPairs g Sd u seen) (u :: Sd) st.1.1 st.1.2 ->
  XInv g start (relaxedPairs g Sd u (seen ++ [e])) (u :: Sd)
       (relax u st e).1.1 (relax u st e).1.2.
Proof.
  intros He (Hinv & Hu & Hmax & _) (Hcl & Hprev & Hstart & Hhas).
  destruct st as [[dist prev] pq]. simpl in *.
  destruct (weights u e He) as (we & Hwe & Hwe0).
  destruct (di_fin _ _ _ _ _ _ _ Hinv _ _ Hu) as (qu' & [= <-] & Hqu0).
  unfold relax. rewrite (distOf_Some _ _ _ Hu), Hwe. cbn [num_add].
  destruct (num_ltb (Fin (qu + we)) (distOf dist (to e))) eqn:Hlt; cbn [fst snd].
  - (* the target is updated *)
    assert (to e ∉ u :: Sd) as Hnew.
    { intros Hin. specialize (Hmax _ Hin).
      apply num_le_Fin in Hmax as (x & y & Hx & [= <-] & Hxy).
      rewrite Hx in Hlt. simpl in Hlt. apply Qltb_lt in Hlt. lra. }
    assert (forall s, s ∈ u :: Sd ->
              distOf (<[to e := Fin (qu + we)]> dist) s = distOf dist s) as Hsame.
    { intros s Hs. unfold distOf. rewrite lookup_insert_ne; [done|].
      intros Heq. apply Hnew. by rewrite Heq. }
    assert (forall x b, num_le (distOf dist x) b ->
              num_le (distOf (<[to e := Fin (qu + we)]> dist) x) b) as Hdown.
    { intros x b Hxb. unfold distOf at 1. rewrite lookup_insert. case_decide as Hx.
      - subst x. apply num_le_Fin in Hxb as (qx & y & Hqx & -> & Hle).
        rewrite Hqx in Hlt. simpl in Hlt. apply Qltb_lt in Hlt. simpl. lra.
      - done. }
    split; [|split; [|split]].
    + intros s e' [[Hs He']|[-> He']].
      * rewrite (Hsame s) by (by right). apply Hdown, Hcl. by left.
      * rewrite (Hsame u) by left.
        apply elem_of_app in He' as [He'| ->%list_elem_of_singleton].
        -- apply Hdown, Hcl. by right.
        -- unfold distOf at 1. rewrite lookup_insert_eq.
           rewrite (distOf_Some _ _ _ Hu), Hwe. simpl. lra.
    + intros v p. rewrite lookup_insert. case_decide as Hv.
      * intros [= <-]. subst v. split; [left|]. exists e. split; [done|]. split; [done|].
        rewrite lookup_insert_eq, (Hsame u) by left.
        by rewrite (distOf_Some _ _ _ Hu), Hwe.
      * intros Hvp. destruct (Hprev v p Hvp) as (Hp & e0 & He0 & Hto & Hd).
        split; [done|]. exists e0. split; [done|]. split; [done|].
        rewrite lookup_insert_ne by done. by rewrite (Hsame p).
    + rewrite lookup_insert_ne; [done|]. intros Heq.
      unfold distOf in Hlt. rewrite Heq, Hstart in Hlt. simpl in Hlt.
      apply Qltb_lt in Hlt. lra.
    + intros v. rewrite lookup_insert_is_Some.
      intros [<-|[Hne Hv]].
      * right. by rewrite lookup_insert_eq.
      * destruct (Hhas v Hv) as [?|Hp]; [by left|]. right.
        by rewrite lookup_insert_ne.
  - (* nothing changes *)
    split; [|split; [|split]]; try done.
    intros s e' [[Hs He']|[-> He']].
    + apply Hcl. by left.
    + apply elem_of_app in He' as [He'| ->%list_elem_of_singleton].
      * apply Hcl. by right.
      * rewrite (distOf_Some _ _ _ Hu), Hwe. simpl.
        destruct (dist !! to e) as [d|] eqn:Hd.
        -- rewrite (distOf_Some _ _ _ Hd) in Hlt |- *.
           destruct (di_fin _ _ _ _ _ _ _ Hinv _ _ Hd) as (qt & -> & _).
           simpl in *. by apply Qltb_ge in Hlt.
        -- by rewrite (distOf_None _ _ Hd) in Hlt.
Qed.

Lemma XInv_weaken (h h' : string -> Edge -> Prop) (Sd Sd' : list string)
    (dist : gmap string JsNum) (prev : gmap string string) :
  (forall s e, h' s e -> h s e) -> (forall s, s ∈ Sd -> s ∈ Sd') ->
  XInv g start h Sd dist prev -> XInv g start h' Sd' dist prev.
Proof.
  intros Hh HS (Hcl & Hprev & Hstart & Hhas).
  split; [|split; [|split]]; try done.
  - intros s e Hse. by apply Hcl, Hh.
  - intros v p Hvp. destruct (Hprev v p Hvp) as (Hp & He). split; [by apply HS | done].
Qed.

Lemma relax_fold_x (Sd : list string) (u : string) (qu : Q) (es seen : list Edge)
    (st : gmap string JsNum * gmap string string * list string) :
  (forall e, e ∈ es -> e ∈ nbrs g u) ->
  RInv g start U Sd u qu st ->
  XInv g start (relaxedPairs g Sd u seen) (u :: Sd) st.1.1 st.1.2 ->
  XInv g start (relaxedPairs g Sd u (seen ++ es)) (u :: Sd)
       (foldl (relax u) st es).1.1 (foldl (relax u) st es).1.2.
Proof.
  revert seen st. induction es as [|e es IH]; intros seen st Hes Hr Hx; simpl.
  - by rewrite app_nil_r.
  - replace (seen ++ e :: es) with ((seen ++ [e]) ++ es) by (by rewrite <- app_assoc).
    apply IH.
    + intros e' He'. apply Hes. by right.
    + apply (relax_preserves g start U weights universe); [apply Hes; left | done].
    + apply relax_preserves_x with (qu := qu); [apply Hes; left | done | done].
Qed.

(** The bound behind the reported resistance: when the goal is
    extracted with distance [qg], no walk from the start to it costs
    less. *)
Lemma extracted_least (goal : string) (Sd : list string) (dist : gmap string JsNum)
    (prev : gmap string string) (pq : list string) (qg : Q) :
  DInv g start U Sd dist prev pq ->
  XInv g start (relaxedPairs g Sd goal []) Sd dist prev ->
  goal ∈ pq -> dist !! goal = Some (Fin qg) ->
  (forall v, v ∈ pq -> num_le (Fin qg) (distOf dist v)) ->
  forall p c, walk g start goal p c -> (qg <= c)%Q.
Proof.
  intros Hinv (Hcl & _ & Hstart & _) Hgpq Hdg Hmin.
  pose proof Hinv as [Hnd Hdom Hdisj Hfin Hle _ _ _ _].
  assert (forall x p c, walk g start x p c ->
            (x ∈ Sd -> ∃ q, dist !! x = Some (Fin q) ∧ (q <= c)%Q)
            ∧ (x ∉ Sd -> (qg <= c)%Q)) as Hpot.
  { intros x p c Hw. induction Hw as [|y z p c e q Hw [IHin IHout] He Hto Hq].
    - split.
      + intros _. exists 0%Q. split; [done | lra].
      + intros Hout.
        assert (start ∈ pq) as Hs.
        { destruct (Hdom start) as [[?|?] _]; [by rewrite Hstart | done | done]. }
        specialize (Hmin _ Hs). rewrite (distOf_Some _ _ _ Hstart) in Hmin. done.
    - destruct (weights y e He) as (q' & Hq' & Hq0). rewrite Hq in Hq'.
      injection Hq' as <-. subst z.
      destruct (decide (y ∈ Sd)) as [Hy|Hy].
      + destruct (IHin Hy) as (qy & Hdy & Hqy).
        pose proof (Hcl y e (or_introl (conj Hy He))) as Hrel.
        rewrite (distOf_Some _ _ _ Hdy), Hq in Hrel.
        apply num_le_Fin in Hrel as (qz & b & Hdz & [= <-] & Hqz).
        unfold distOf in Hdz. destruct (dist !! to e) as [dz|] eqn:Hz; [|done].
        simpl in Hdz. subst dz.
        split.
        * intros _. exists qz. split; [done | lra].
        * intros Hout.
          assert (to e ∈ pq) as Hzpq.
          { destruct (Hdom (to e)) as [[?|?] _]; [by rewrite Hz | done | done]. }
          specialize (Hmin _ Hzpq). rewrite (distOf_Some _ _ _ Hz) in Hmin.
          simpl in Hmin. lra.
      + specialize (IHout Hy). split.
        * intros Hz. specialize (Hle _ _ Hz Hgpq).
          rewrite (distOf_Some _ _ _ Hdg) in Hle.
          apply num_le_Fin in Hle as (qz & b & Hdz & [= <-] & Hqz).
          unfold distOf in Hdz. destruct (dist !! to e) as [dz|] eqn:Hz'; [|done].
          simpl in Hdz. subst dz. exists qz. split; [done | lra].
        * intros _. lra. }
  intros p c Hw. apply (Hpot goal p c Hw). intros Hin. by apply (Hdisj goal Hin).
Qed.

(** Whatever the loop returns satisfies [DPostX]. *)
Lemma dijkstra_loop_optimal (goal : string) (fuel : nat) (Sd : list string)
    (dist : gmap string JsNum) (prev : gmap string string) (pq : list string)
    (dist' : gmap string JsNum) (prev' : gmap string string) :
  DInv g start U Sd dist prev pq ->
  XInv g start (relaxedPairs g Sd goal []) Sd dist prev ->
  goal ∉ Sd ->
  dijkstra_loop fuel g goal dist prev pq = Some (dist', prev') ->
  DPostX g start goal dist' prev'.
Proof.
  revert Sd dist prev pq.
  induction fuel as [|fuel IH]; intros Sd dist prev pq Hinv Hx HgS Hrun.
  { destruct pq; simpl in Hrun; [|done]. injection Hrun as <- <-.
    pose proof Hinv as [Hnd Hdom Hdisj Hfin Hle _ _ _ _].
    destruct Hx as (Hcl & Hprev & Hstart & Hhas).
    split; [done|]. split; [done|]. split; [done|]. split.
    - intros v p Hvp. by destruct (Hprev v p Hvp).
    - intros qg Hg. exfalso.
      destruct (Hdom goal) as [[?|Hn] _]; [by rewrite Hg | done | by apply elem_of_nil in Hn]. }
  pose proof Hinv as [Hnd Hdom Hdisj Hfin Hle Hpr Hsound Huniv Hst].
  destruct pq as [|p0 pq0] eqn:Hpq.
  - simpl in Hrun. injection Hrun as <- <-.
    destruct Hx as (Hcl & Hprev & Hstart & Hhas).
    split; [done|]. split; [done|]. split; [done|]. split.
    + intros v p Hvp. by destruct (Hprev v p Hvp).
    + intros qg Hg. exfalso.
      destruct (Hdom goal) as [[?|Hn] _]; [by rewrite Hg | done | by apply elem_of_nil in Hn].
  - rewrite <- Hpq in *.
    assert (dijkstra_loop (Datatypes.S fuel) g goal dist prev pq
            = match (extractMin dist pq).1 with
              | None => None
              | Some u =>
                  if String.eqb u goal then Some (dist, prev)
                  else let '(dist', prev', pq'') :=
                         foldl (relax u) (dist, prev, set_delete u pq) (nbrs g u) in
                       dijkstra_loop fuel g goal dist' prev' pq''
              end) as Hunf by (rewrite Hpq; reflexivity).
    rewrite Hunf in Hrun. clear Hunf.
    destruct (extractMin_spec dist pq) as (u & qu & Hex & Hu & Hdu & Hmin).
    { rewrite Hpq. done. }
    { intros v Hv. assert (is_Some (dist !! v)) as [d Hd] by (apply Hdom; by right).
      destruct (Hfin v d Hd) as (q & -> & _). eauto. }
    rewrite Hex in Hrun. simpl in Hrun.
    assert (u ∉ Sd) as HuS by (intros Hin; by apply (Hdisj u Hin)).
    destruct (String.eqb u goal) eqn:Hug.
    + apply String.eqb_eq in Hug. subst u. injection Hrun as <- <-.
      pose proof Hx as (Hcl & Hprev & Hstart & Hhas).
      split; [done|]. split; [done|]. split; [done|]. split.
      * intros v p Hvp. by destruct (Hprev v p Hvp).
      * intros qg Hg. rewrite Hdu in Hg. injection Hg as <-.
        by eapply extracted_least.
    + apply String.eqb_neq in Hug.
      assert (RInv g start U Sd u qu (dist, prev, set_delete u pq)) as Hrinv.
      { split; [|split; [|split]]; simpl; [|done| |].
        - split; try done.
          + by constructor.
          + intros v. rewrite Hdom, elem_of_cons, elem_of_set_delete.
            destruct (decide (v = u)) as [->|Hvu]; [tauto|]. tauto.
          + intros v [->|Hv]%elem_of_cons; rewrite elem_of_set_delete; [tauto|].
            intros [Hv' _]. by apply (Hdisj v).
          + intros s v [->|Hs]%elem_of_cons [Hv _]%elem_of_set_delete.
            * rewrite (distOf_Some _ _ _ Hdu). by apply Hmin.
            * by apply Hle.
          + by apply prevRanked_cons.
        - intros s [->|Hs]%elem_of_cons.
          + rewrite (distOf_Some _ _ _ Hdu). simpl. lra.
          + specialize (Hle s u Hs Hu). by rewrite (distOf_Some _ _ _ Hdu) in Hle.
        - intros s Hs e He. destruct Hx as (Hcl & _).
          specialize (Hcl s e (or_introl (conj Hs He))).
          apply num_le_Fin in Hcl as (x & y & Hx' & _).
          unfold distOf in Hx'. destruct (dist !! to e); [done|discriminate]. }
      assert (XInv g start (relaxedPairs g Sd u []) (u :: Sd) dist prev) as Hx0.
      { eapply XInv_weaken; [| |exact Hx].
        - intros s e [?|[_ He]]; [by left | by apply elem_of_nil in He].
        - intros s Hs. by right. }
      pose proof (relax_fold g start U weights universe Sd u qu (nbrs g u) _
                    (fun e He => He) Hrinv)
        as (Hrinv' & _ & _).
      pose proof (relax_fold_x Sd u qu (nbrs g u) [] _ (fun e He => He) Hrinv Hx0) as Hx'.
      destruct (foldl (relax u) (dist, prev, set_delete u pq) (nbrs g u))
        as [[dist1 prev1] pq1].
      destruct Hrinv' as (Hinv' & _). simpl in *.
      apply (IH (u :: Sd) dist1 prev1 pq1); [done| | |done].
      * eapply XInv_weaken; [| |exact Hx'].
        -- intros s e [[[->|Hs]%elem_of_cons He]|[_ He]].
           ++ right. done.
           ++ left. done.
           ++ by apply elem_of_nil in He.
        -- done.
      * intros [?|?]%elem_of_cons; [congruence | done].
Qed.

(** The rebuild loop walks [prev] back to the start: the identifiers
    it pushes, reversed, are a walk whose cost is the distance of
    the identifier it began at. *)
Lemma rebuildPath_walk (goal : string) (dist : gmap string JsNum)
    (prev : gmap string string) :
  DPostX g start goal dist prev ->
  forall fuel v acc p,
    is_Some (dist !! v) ->
    rebuildPath fuel prev start v acc = Some p ->
    ∃ tl c qv, p = acc ++ tl ∧ walk g start v (reverse tl) c
               ∧ dist !! v = Some (Fin qv) ∧ (c == qv)%Q.
Proof.
  intros (Hfin & Hstart & Hhas & Hprev & _).
  induction fuel as [|fuel IH]; intros v acc p Hv Hrun; [done|].
  simpl in Hrun. destruct (String.eqb v start) eqn:Hvs.
  - apply String.eqb_eq in Hvs. subst v. injection Hrun as <-.
    exists [start], 0%Q, 0%Q. split; [done|]. split; [constructor|]. split; [done | lra].
  - apply String.eqb_neq in Hvs.
    destruct (Hhas v Hv) as [?|[v' Hv']]; [done|]. rewrite Hv' in Hrun.
    destruct (Hprev v v' Hv') as (e & He & Hto & Hd).
    destruct (Hfin _ _ Hd) as (qv & Hqv & _).
    destruct (weights v' e He) as (q & Hq & _).
    rewrite Hq in Hqv.
    destruct (dist !! v') as [d'|] eqn:Hd'; [|by rewrite (distOf_None _ _ Hd') in Hqv].
    destruct (IH v' (acc ++ [v]) p) as (tl & c & qv' & -> & Hw & Hdv' & Hc);
      [by rewrite Hd' | done |].
    rewrite Hd' in Hdv'. injection Hdv' as ->.
    rewrite (distOf_Some _ _ _ Hd') in Hqv, Hd. simpl in Hqv. injection Hqv as <-.
    exists (v :: tl), (c + q)%Q, (qv' + q)%Q.
    split; [by rewrite <- app_assoc|]. split; [|split].
    + rewrite reverse_cons. by eapply walk_step.
    + rewrite Hd, Hq. done.
    + by rewrite Hc.
Qed.
End Shortest.

(** A finite result comes from maps that satisfy [DPostX]. *)
Lemma dijkstraWeighted_maps (g : gmap string (list Edge)) (start goal : string)
    (res : PathResult) (r : Q) :
  nonnegWeights g ->
  dijkstraWeighted g start goal = Some res -> R res = Fin r ->
  ∃ dist prev p,
    DPostX g start goal dist prev ∧ dist !! goal = Some (Fin r)
    ∧ rebuildPath (S (size dist)) prev start goal [] = Some p
    ∧ path res = Some (reverse p).
Proof.
  intros Hw Hres Hr. unfold dijkstraWeighted in Hres.
  destruct (_ || _) eqn:Hguard in Hres.
  { injection Hres as <-. done. }
  set (U := graphNodes to g ∪ {[start]}).
  destruct (dijkstra_loop _ g goal _ _ _) as [[dist prev]|] eqn:Hloop; [|done].
  assert (DPostX g start goal dist prev) as Hpost.
  { apply (dijkstra_loop_optimal g start U Hw) with (goal := goal) (fuel := loopFuel to g start)
      (Sd := @nil string) (dist := ({[start := Fin 0]} : gmap string JsNum))
      (prev := (∅ : gmap string string)) (pq := [start]).
    - intros v e He. apply elem_of_union_l. by eapply elem_of_graphNodes_nbrs.
    - split.
      + constructor.
      + intros v. rewrite lookup_singleton_is_Some, list_elem_of_singleton.
        split; [intros <-; by right | intros [Hv| ->]; [by apply elem_of_nil in Hv | done]].
      + intros v Hv. by apply elem_of_nil in Hv.
      + intros v d [<- <-]%lookup_singleton_Some. exists 0%Q. split; [done | lra].
      + intros s v Hs. by apply elem_of_nil in Hs.
      + intros v p. by rewrite lookup_empty.
      + intros v <-%lookup_singleton_is_Some. constructor.
      + intros v <-%lookup_singleton_is_Some. apply elem_of_union_r. by apply elem_of_singleton.
      + by rewrite lookup_singleton_eq.
    - split; [|split; [|split]].
      + intros s e [[Hs _]|[_ He]]; by apply elem_of_nil in Hs || by apply elem_of_nil in He.
      + intros v p. by rewrite lookup_empty.
      + by rewrite lookup_singleton_eq.
      + intros v <-%lookup_singleton_is_Some. by left.
    - apply not_elem_of_nil.
    - done. }
  destruct (dist !! goal) as [d|] eqn:Hd; [|by injection Hres as <-].
  destruct (rebuildPath _ prev start goal []) as [p|] eqn:Hp; [|done].
  injection Hres as <-. simpl in Hr. subst d.
  exists dist, prev, p. done.
Qed.

(** The path of a finite result is a walk that costs the resistance
    reported. *)
Lemma dijkstraWeighted_walk (g : gmap string (list Edge)) (start goal : string)
    (res : PathResult) (r : Q) :
  nonnegWeights g ->
  dijkstraWeighted g start goal = Some res -> R res = Fin r ->
  ∃ p c, path res = Some p ∧ walk g start goal p c ∧ (c == r)%Q.
Proof.
  intros Hw Hres Hr.
  destruct (dijkstraWeighted_maps g start goal res r Hw Hres Hr)
    as (dist & prev & p & Hpost & Hd & Hp & Hpath).
  destruct (rebuildPath_walk g start Hw goal dist prev Hpost (S (size dist)) goal [] p)
    as (tl & c & qv & -> & Hwalk & Hdv & Hc); [by rewrite Hd | done |].
  rewrite Hd in Hdv. injection Hdv as <-.
  exists (reverse tl), c. done.
Qed.

(** No walk costs less than a finite result. *)
Lemma dijkstraWeighted_bound (g : gmap string (list Edge)) (start goal : string)
    (res : PathResult) (r : Q) :
  nonnegWeights g ->
  dijkstraWeighted g start goal = Some res -> R res = Fin r ->
  forall p c, walk g start goal p c -> (r <= c)%Q.
Proof.
  intros Hw Hres Hr.
  destruct (dijkstraWeighted_maps g start goal res r Hw Hres Hr)
    as (dist & prev & p & (_ & _ & _ & _ & Hleast) & Hd & _).
  by apply Hleast.
Qed.

(** X2.  When the search reports a finite resistance, the path it returns
    is a walk of the graph from the start to the goal whose edge
    weights add up to that resistance, and no walk between the two
    costs less. *)
Theorem dijkstraWeighted_least (g : gmap string (list Edge)) (start goal : string) :
  nonnegWeights g ->
  ∃ res, dijkstraWeighted g start goal = Some res
         ∧ forall r, R res = Fin r ->
             (∃ p c, path res = Some p ∧ walk g start goal p c ∧ (c == r)%Q)
             ∧ forall p' c', walk g start goal p' c' -> (r <= c')%Q.
Proof.
  intros Hw.
  destruct (dijkstraWeighted_dichotomy g start goal Hw) as (res & Hres & _).
  exists res. split; [done|]. intros r Hr. split.
  - by eapply dijkstraWeighted_walk.
  - by eapply dijkstraWeighted_bound.
Qed.

(** On the Line graph of the ring Supply → A → B → Supply, from the
    supply to the far side of socket A. *)
Lemma dijkstraWeighted_least_witness :
  let g := buildWeightedSubgraph hypotApprox RingExample.components RingExample.wires
             LineTermTypes "L" in
  ∃ res, dijkstraWeighted g "sL" "aLo" = Some res
         ∧ forall r, R res = Fin r ->
             (∃ p c, path res = Some p ∧ walk g "sL" "aLo" p c ∧ (c == r)%Q)
             ∧ forall p' c', walk g "sL" "aLo" p' c' -> (r <= c')%Q.
Proof.
  intros g. apply (dijkstraWeighted_least g "sL" "aLo").
  apply nonnegWeightsb_sound. vm_compute. reflexivity.
Defined.

(** ** The meter with the probes swapped, and on one terminal *)

Lemma elem_of_contrib (x : string) (e : string * string * JsNum) (d : Edge) :
  d ∈ contrib x e ↔ (e.1.1 = x ∧ d = mkEdge e.1.2 e.2) ∨ (e.1.2 = x ∧ d = mkEdge e.1.1 e.2).
Proof.
  unfold contrib. rewrite elem_of_app.
  destruct (decide (e.1.1 = x)), (decide (e.1.2 = x));
    rewrite ?list_elem_of_singleton, ?elem_of_nil; tauto.
Qed.

(** On a graph that records every edge at both ends, the search from
    [b] to [a] reports an infinite resistance exactly when the search
    from [a] to [b] does. *)
Lemma dijkstraWeighted_swap_infinite (g : gmap string (list Edge)) (a b : string) :
  nonnegWeights g -> symmetricGraph g ->
  ∃ r r', dijkstraWeighted g a b = Some r ∧ dijkstraWeighted g b a = Some r'
          ∧ (R r = PInf ↔ R r' = PInf).
Proof.
  intros Hw Hsym.
  destruct (dijkstraWeighted_dichotomy g a b Hw) as (r & Hr & Hcase).
  destruct (dijkstraWeighted_dichotomy g b a Hw) as (r' & Hr' & Hcase').
  exists r, r'. split; [done|]. split; [done|].
  assert (forall x y, connected g x y -> connected g y x) as Hcs.
  { apply connected_sym. intros x y. rewrite !adjacent_mult, (Hsym x y). done. }
  destruct Hcase as [(HR & _ & Hno)|((q & HR & _) & _ & Hpa & Hpb & Hc)],
           Hcase' as [(HR' & _ & Hno')|((q' & HR' & _) & _ & Hpb' & Hpa' & Hc')].
  - done.
  - destruct Hno. auto.
  - destruct Hno'. auto.
  - rewrite HR, HR'. done.
Qed.

(** The start with itself: no resistance, and the one-identifier path. *)
Lemma dijkstraWeighted_self (g : gmap string (list Edge)) (a : string) :
  dijkstraWeighted g a a
  = Some (if truthy a && hasKey g a then mkPathResult (Fin 0) (Some [a])
          else mkPathResult PInf None).
Proof.
  unfold dijkstraWeighted.
  destruct (truthy a) eqn:Hta; cbn [negb orb andb]; [|done].
  destruct (hasKey g a) eqn:Hka; cbn [negb orb andb]; [|done].
  unfold loopFuel. cbn [dijkstra_loop].
  assert (extractMin {[a := Fin 0]} [a] = (Some a, Fin 0)) as ->.
  { unfold extractMin. cbn [foldl]. unfold distOf. rewrite lookup_singleton_eq. done. }
  cbn [fst]. rewrite String.eqb_refl, lookup_singleton_eq.
  cbn [rebuildPath]. by rewrite String.eqb_refl.
Qed.

Lemma hypotApprox_nonneg (dx dy : Q) : (0 <= hypotApprox dx dy)%Q.
Proof.
  unfold hypotApprox, Qle. simpl. rewrite Z.mul_1_r. apply Z.sqrt_nonneg.
Qed.

Section MeterSwap.
Variable hypot : Q -> Q -> Q.
Hypothesis hypot_nonneg : forall dx dy, (0 <= hypot dx dy)%Q.

(** X3.  Swapping the probes of the resistance meter keeps the
    verdict of each family: a reading is infinite in one direction
    exactly when it is infinite in the other. *)
Theorem measureResistance_swap_open (components : list Component) (wires : list Wire)
    (a b : string) :
  ∃ r r', measureResistance hypot components wires a b = Some r
          ∧ measureResistance hypot components wires b a = Some r'
          ∧ (res_L r = PInf ↔ res_L r' = PInf)
          ∧ (res_N r = PInf ↔ res_N r' = PInf)
          ∧ (res_E r = PInf ↔ res_E r' = PInf).
Proof.
  unfold measureResistance.
  assert (forall allowed key,
            ∃ r r', dijkstraWeighted
                      (buildWeightedSubgraph hypot components wires allowed key) a b = Some r
                    ∧ dijkstraWeighted
                        (buildWeightedSubgraph hypot components wires allowed key) b a = Some r'
                    ∧ (R r = PInf ↔ R r' = PInf)) as Hone.
  { intros allowed key. apply dijkstraWeighted_swap_infinite.
    - by apply buildWeightedSubgraph_nonneg.
    - apply buildWeightedSubgraph_symmetric. }
  destruct (Hone LineTermTypes "L") as (rl & rl' & -> & -> & Hl).
  destruct (Hone NeutralTermTypes "N") as (rn & rn' & -> & -> & Hn).
  destruct (Hone EarthTermTypes "E") as (re & re' & -> & -> & He).
  simpl. eexists _, _. split; [done|]. split; [done|]. done.
Qed.
End MeterSwap.

(** X4.  Both probes on one terminal: each family reads 0 Ω when the
    terminal is a node of that family's graph and infinity when it is
    not. *)
Theorem measureResistance_same_terminal (hypot : Q -> Q -> Q) (components : list Component)
    (wires : list Wire) (a : string) :
  let reading allowed key :=
    if truthy a && hasKey (buildWeightedSubgraph hypot components wires allowed key) a
    then Fin 0 else PInf in
  measureResistance hypot components wires a a
  = Some (mkResistances (reading LineTermTypes "L") (reading NeutralTermTypes "N")
                        (reading EarthTermTypes "E")).
Proof.
  intros reading. unfold measureResistance. rewrite !dijkstraWeighted_self. simpl.
  unfold reading. repeat (destruct (_ && _)); reflexivity.
Qed.

(** The Line, Neutral and Earth readings between the supply and
    socket B of the example ring, taken in both directions. *)
Lemma measureResistance_swap_open_witness :
  ∃ r r', measureResistance hypotApprox RingExample.components RingExample.wires "sL" "bLi"
          = Some r
          ∧ measureResistance hypotApprox RingExample.components RingExample.wires "bLi" "sL"
            = Some r'
          ∧ (res_L r = PInf ↔ res_L r' = PInf)
          ∧ (res_N r = PInf ↔ res_N r' = PInf)
          ∧ (res_E r = PInf ↔ res_E r' = PInf).
Proof.
  apply (measureResistance_swap_open hypotApprox hypotApprox_nonneg
           RingExample.components RingExample.wires "sL" "bLi").
Defined.

(** ** Projection on a wire segment and hit testing *)

Lemma Qeq_bool_true (x y : Q) : Qeq_bool x y = true ↔ (x == y)%Q.
Proof. split; [apply Qeq_bool_eq | apply Qeq_eq_bool]. Qed.

Lemma Qeq_bool_false (x y : Q) : Qeq_bool x y = false ↔ ¬ (x == y)%Q.
Proof.
  rewrite <- Qeq_bool_true. destruct (Qeq_bool x y); intuition congruence.
Qed.

Lemma clamp_range (x : Q) : (0 <= Qmax 0 (Qmin 1 x) <= 1)%Q.
Proof.
  unfold Qmax, Qmin.
  destruct (Qle_bool 1 x) eqn:H1; destruct (Qle_bool 0 _) eqn:H0; qbool; lra.
Qed.

Lemma clamp_cases (x : Q) :
  (x <= 0 ∧ Qmax 0 (Qmin 1 x) == 0)%Q
  ∨ (1 <= x ∧ Qmax 0 (Qmin 1 x) == 1)%Q
  ∨ (0 <= x <= 1 ∧ Qmax 0 (Qmin 1 x) == x)%Q.
Proof.
  unfold Qmax, Qmin.
  destruct (Qle_bool 1 x) eqn:H1; destruct (Qle_bool 0 _) eqn:H0; qbool.
  - right. left. split; [done | reflexivity].
  - lra.
  - right. right. split; [lra | reflexivity].
  - left. split; [lra | reflexivity].
Qed.

Lemma square_nonneg (x : Q) : (0 <= x * x)%Q.
Proof. nra. Qed.

Lemma sum_squares_zero (u v : Q) : (u * u + v * v == 0)%Q -> (u == 0)%Q ∧ (v == 0)%Q.
Proof.
  intros H.
  assert (0 <= u * u)%Q as Hu by nra.
  assert (0 <= v * v)%Q as Hv by nra.
  assert (u * u == 0)%Q as Hu0 by lra.
  assert (v * v == 0)%Q as Hv0 by lra.
  apply Qmult_integral in Hu0, Hv0. tauto.
Qed.

(** X5.  The point [projectPointOnSegment] returns lies on the segment, at
    the parameter it reports, and no point of the segment is closer to
    the requested point; on a segment of no length it is the point [A]
    with the parameter 0. *)
Theorem projectPointOnSegment_closest (point segA segB : Q * Q) :
  let pr := projectPointOnSegment point segA segB in
  (0 <= proj_t pr <= 1)%Q
  ∧ (proj_x pr == (pointAt segA segB (proj_t pr)).1)%Q
  ∧ (proj_y pr == (pointAt segA segB (proj_t pr)).2)%Q
  ∧ (forall s, (0 <= s <= 1)%Q ->
       (dist2 point (proj_x pr, proj_y pr) <= dist2 point (pointAt segA segB s))%Q)
  ∧ ((segA.1 == segB.1)%Q ∧ (segA.2 == segB.2)%Q ->
     proj_t pr = 0%Q ∧ proj_x pr = segA.1 ∧ proj_y pr = segA.2).
Proof.
  destruct point as [px py], segA as [ax ay], segB as [bx by'].
  unfold projectPointOnSegment, pointAt, dist2. cbn [fst snd].
  destruct (Qeq_bool _ 0) eqn:Hz; cbn [proj_x proj_y proj_t].
  - apply Qeq_bool_true, sum_squares_zero in Hz as [Hu Hv].
    split; [lra|]. split; [lra|]. split; [lra|].
    split; [|done].
    intros s Hs.
    assert (s * (bx - ax) == 0)%Q as -> by (rewrite Hu; ring).
    assert (s * (by' - ay) == 0)%Q as -> by (rewrite Hv; ring).
    lra.
  - apply Qeq_bool_false in Hz.
    set (u := (bx - ax)%Q) in *. set (v := (by' - ay)%Q) in *.
    set (m := (px - ax)%Q). set (n := (py - ay)%Q).
    set (t0 := ((m * u + n * v) / (u * u + v * v))%Q).
    pose proof (clamp_range t0) as Hrange.
    pose proof (clamp_cases t0) as Hcases.
    set (T := Qmax 0 (Qmin 1 t0)) in *. clearbody T.
    split; [done|]. split; [reflexivity|]. split; [reflexivity|].
    split.
    2:{ intros [Hx Hy]. exfalso. apply Hz. unfold u, v.
        assert (bx - ax == 0)%Q as -> by lra.
        assert (by' - ay == 0)%Q as -> by lra. ring. }
    intros s Hs.
    assert (0 < u * u + v * v)%Q as Hpos.
    { assert (0 <= u * u)%Q by nra. assert (0 <= v * v)%Q by nra.
      destruct (Qlt_le_dec 0 (u * u + v * v)) as [?|Hle]; [done|].
      exfalso. apply Hz. lra. }
    assert (t0 * (u * u + v * v) == m * u + n * v)%Q as Hk.
    { unfold t0. field. lra. }
    assert ((px - (ax + s * u)) * (px - (ax + s * u)) + (py - (ay + s * v)) * (py - (ay + s * v))
            - ((px - (ax + T * u)) * (px - (ax + T * u))
               + (py - (ay + T * v)) * (py - (ay + T * v)))
            == (s - T) * ((s + T - 2 * t0) * (u * u + v * v)))%Q as Hdiff.
    { transitivity ((s - T) * ((s + T) * (u * u + v * v) - 2 * (t0 * (u * u + v * v))))%Q;
        [|ring].
      rewrite Hk. unfold m, n. ring. }
    assert (0 <= (s - T) * ((s + T - 2 * t0) * (u * u + v * v)))%Q as Hnn; [|lra].
    destruct Hcases as [[Ht0 HT]|[[Ht0 HT]|[Ht0 HT]]].
    + rewrite HT. apply Qmult_le_0_compat; [lra|]. apply Qmult_le_0_compat; lra.
    + rewrite HT.
      assert ((s - 1) * ((s + 1 - 2 * t0) * (u * u + v * v))
              == (1 - s) * ((2 * t0 - s - 1) * (u * u + v * v)))%Q as -> by ring.
      apply Qmult_le_0_compat; [lra|]. apply Qmult_le_0_compat; lra.
    + rewrite HT.
      assert ((s - t0) * ((s + t0 - 2 * t0) * (u * u + v * v))
              == ((s - t0) * (s - t0)) * (u * u + v * v))%Q as -> by ring.
      apply Qmult_le_0_compat; [apply square_nonneg | lra].
Qed.

Section HitTestSpec.
Variable hypot : Q -> Q -> Q.

(** The distance [distanceToSegment] measures is the distance to the
    point [projectPointOnSegment] returns. *)
Lemma distanceToSegment_projection (point segA segB : Q * Q) :
  distanceToSegment hypot point segA segB
  = hypot (point.1 - proj_x (projectPointOnSegment point segA segB))%Q
          (point.2 - proj_y (projectPointOnSegment point segA segB))%Q.
Proof.
  unfold distanceToSegment, projectPointOnSegment.
  destruct (Qeq_bool _ 0); reflexivity.
Qed.

Lemma hitTest_step_inv (components : list Component) (point : Q * Q) (tolerance : Q)
    (seen : list Wire) (st : option WireHit * JsNum) (wire : Wire) :
  hitInv hypot components point tolerance seen st ->
  hitInv hypot components point tolerance (seen ++ [wire])
         (hitTest_step hypot components point tolerance st wire).
Proof.
  intros Hinv. unfold hitTest_step.
  assert (forall wr d, wr ∈ seen ++ [wire] ->
            wireDistance hypot components point wr = Some d ->
            wr ∈ seen ∨ wireDistance hypot components point wire = Some d) as Hsplit.
  { intros wr d [?| ->%list_elem_of_singleton]%elem_of_app ?; auto. }
  destruct (terminalById components (wire_a wire)) as [a|] eqn:Ha.
  2:{ destruct st as [[h|] best]; unfold hitInv in *; simpl in *.
      - destruct Hinv as (Hb & Htol & (wr & a & b & Hin & Hrest) & Hmin).
        split; [done|]. split; [done|]. split.
        + exists wr, a, b. split; [apply elem_of_app; by left | done].
        + intros wr' d Hin' Hd. destruct (Hsplit wr' d Hin' Hd) as [?|Hd']; [eauto|].
          unfold wireDistance in Hd'. by rewrite Ha in Hd'.
      - destruct Hinv as (Hb & Hfar). split; [done|].
        intros wr' d Hin' Hd. destruct (Hsplit wr' d Hin' Hd) as [?|Hd']; [eauto|].
        unfold wireDistance in Hd'. by rewrite Ha in Hd'. }
  destruct (terminalById components (wire_b wire)) as [b|] eqn:Hb.
  2:{ destruct st as [[h|] best]; unfold hitInv in *; simpl in *.
      - destruct Hinv as (Hbest & Htol & (wr & a' & b' & Hin & Hrest) & Hmin).
        split; [done|]. split; [done|]. split.
        + exists wr, a', b'. split; [apply elem_of_app; by left | done].
        + intros wr' d Hin' Hd. destruct (Hsplit wr' d Hin' Hd) as [?|Hd']; [eauto|].
          unfold wireDistance in Hd'. by rewrite Ha, Hb in Hd'.
      - destruct Hinv as (Hbest & Hfar). split; [done|].
        intros wr' d Hin' Hd. destruct (Hsplit wr' d Hin' Hd) as [?|Hd']; [eauto|].
        unfold wireDistance in Hd'. by rewrite Ha, Hb in Hd'. }
  set (dw := distanceToSegment hypot point (componentTerminalAbsPos a.1 a.2)
                               (componentTerminalAbsPos b.1 b.2)).
  assert (wireDistance hypot components point wire = Some dw) as Hdw.
  { unfold wireDistance. by rewrite Ha, Hb. }
  cbn zeta. fold dw.
  destruct (Qle_bool dw tolerance) eqn:Htol; cbn [andb].
  - apply Qle_bool_iff in Htol.
    destruct st as [[h|] best]; unfold hitInv in *; simpl in *.
    + destruct Hinv as (-> & Hhtol & (wr & a' & b' & Hin & Hrest) & Hmin). simpl.
      destruct (Qltb dw (hit_distance h)) eqn:Hlt; simpl.
      * apply Qltb_lt in Hlt. split; [done|]. split; [done|]. split.
        -- exists wire, a, b. split; [apply elem_of_app; right; left | done].
        -- intros wr' d Hin' Hd. destruct (Hsplit wr' d Hin' Hd) as [Hs|Hd'].
           ++ specialize (Hmin _ _ Hs Hd). lra.
           ++ rewrite Hdw in Hd'. injection Hd' as <-. lra.
      * apply Qltb_ge in Hlt. split; [done|]. split; [done|]. split.
        -- exists wr, a', b'. split; [apply elem_of_app; by left | done].
        -- intros wr' d Hin' Hd. destruct (Hsplit wr' d Hin' Hd) as [Hs|Hd']; [eauto|].
           rewrite Hdw in Hd'. by injection Hd' as <-.
    + destruct Hinv as (-> & Hfar). simpl. split; [done|]. split; [done|]. split.
      * exists wire, a, b. split; [apply elem_of_app; right; left | done].
      * intros wr' d Hin' Hd. destruct (Hsplit wr' d Hin' Hd) as [Hs|Hd'].
        -- specialize (Hfar _ _ Hs Hd). lra.
        -- rewrite Hdw in Hd'. injection Hd' as <-. lra.
  - apply not_true_iff_false in Htol. rewrite Qle_bool_iff in Htol.
    destruct st as [[h|] best]; unfold hitInv in *; simpl in *.
    + destruct Hinv as (Hbest & Hhtol & (wr & a' & b' & Hin & Hrest) & Hmin).
      split; [done|]. split; [done|]. split.
      * exists wr, a', b'. split; [apply elem_of_app; by left | done].
      * intros wr' d Hin' Hd. destruct (Hsplit wr' d Hin' Hd) as [?|Hd']; [eauto|].
        rewrite Hdw in Hd'. injection Hd' as <-. lra.
    + destruct Hinv as (Hbest & Hfar). split; [done|].
      intros wr' d Hin' Hd. destruct (Hsplit wr' d Hin' Hd) as [?|Hd']; [eauto|].
      rewrite Hdw in Hd'. injection Hd' as <-. lra.
Qed.

Lemma hitTest_fold_inv (components : list Component) (point : Q * Q) (tolerance : Q)
    (wires seen : list Wire) (st : option WireHit * JsNum) :
  hitInv hypot components point tolerance seen st ->
  hitInv hypot components point tolerance (seen ++ wires)
         (foldl (hitTest_step hypot components point tolerance) st wires).
Proof.
  revert seen st. induction wires as [|wire wires IH]; intros seen st Hinv; simpl.
  - by rewrite app_nil_r.
  - replace (seen ++ wire :: wires) with ((seen ++ [wire]) ++ wires)
      by (by rewrite <- app_assoc).
    by apply IH, hitTest_step_inv.
Qed.

(** X6.  The hit test returns null exactly when every wire whose two ends
    resolve is farther from the point than the tolerance.  Otherwise
    it returns a wire within the tolerance that is at least as near
    as every other wire, with its distance and the projection of the
    point on it. *)
Theorem hitTestWireAtPoint_nearest (wires : list Wire) (components : list Component)
    (point : Q * Q) (tolerance : Q) :
  (hitTestWireAtPoint hypot wires components point tolerance = None
   ↔ forall wire d, wire ∈ wires ->
       wireDistance hypot components point wire = Some d -> (tolerance < d)%Q)
  ∧ forall h, hitTestWireAtPoint hypot wires components point tolerance = Some h ->
      (hit_distance h <= tolerance)%Q
      ∧ (∃ wire a b,
           wire ∈ wires
           ∧ terminalById components (wire_a wire) = Some a
           ∧ terminalById components (wire_b wire) = Some b
           ∧ hit_wireId h = wire_id wire
           ∧ hit_distance h
             = distanceToSegment hypot point (componentTerminalAbsPos a.1 a.2)
                                 (componentTerminalAbsPos b.1 b.2)
           ∧ hitPoint h
             = projectPointOnSegment point (componentTerminalAbsPos a.1 a.2)
                                     (componentTerminalAbsPos b.1 b.2))
      ∧ forall wire d, wire ∈ wires ->
          wireDistance hypot components point wire = Some d -> (hit_distance h <= d)%Q.
Proof.
  unfold hitTestWireAtPoint.
  pose proof (hitTest_fold_inv components point tolerance wires [] (None, PInf)) as Hinv.
  simpl in Hinv. unfold hitInv in Hinv.
  destruct (foldl _ _ wires) as [[h|] best]; simpl in *.
  - destruct Hinv as (_ & Htol & Hwire & Hmin).
    { split; [done|]. intros wr d Hin. by apply elem_of_nil in Hin. }
    split.
    + split; [done|]. intros Hfar. exfalso.
      destruct Hwire as (wr & a & b & Hin & Ha & Hb & _ & Hd & _).
      assert (wireDistance hypot components point wr = Some (hit_distance h)) as Hwd.
      { unfold wireDistance. by rewrite Ha, Hb, Hd. }
      specialize (Hfar _ _ Hin Hwd). lra.
    + intros h' [= <-]. done.
  - destruct Hinv as (_ & Hfar).
    { split; [done|]. intros wr d Hin. by apply elem_of_nil in Hin. }
    split; [done|]. intros h' Hh. done.
Qed.
End HitTestSpec.

(** ** A cut keeps the circuit as it was *)

Lemma adjacent_buildAdjacency (components : list Component) (wires : list Wire) (x y : string) :
  adjacent (buildAdjacency components wires) x y
  ↔ ∃ a b, (a, b) ∈ adjacencyEdges components wires ∧ ((x = a ∧ y = b) ∨ (x = b ∧ y = a)).
Proof.
  rewrite adjacent_string, buildAdjacency_edges, elem_of_nbrs_foldl_addEdge, nbrs_empty.
  split; [intros [Hn|?]; [by apply elem_of_nil in Hn | done] | by right].
Qed.

Lemma elem_of_adjacencyEdges (components : list Component) (wires : list Wire)
    (e : string * string) :
  e ∈ adjacencyEdges components wires
  ↔ (∃ wr, wr ∈ wires ∧ e = (wire_a wr, wire_b wr))
    ∨ ∃ c, c ∈ components ∧ e ∈ linkPairs (fun _ _ => true) c.
Proof.
  unfold adjacencyEdges. rewrite elem_of_app, list_elem_of_fmap, list_elem_of_bind.
  split; (intros [(wr & ? & ?)|(c & ? & ?)]; [left | right]; eauto).
Qed.

Lemma elem_of_linkPairs (keep : Terminal -> Terminal -> bool) (c : Component)
    (e : string * string) :
  e ∈ linkPairs keep c ->
  ∃ t1 t2, t1 ∈ comp_terminals c ∧ t2 ∈ comp_terminals c
           ∧ e = (term_id t1, term_id t2).
Proof.
  unfold linkPairs. rewrite list_elem_of_omap. intros ([n1 n2] & _ & He).
  unfold termByName in He.
  destruct (List.find _ (comp_terminals c)) as [t1|] eqn:H1; [|done].
  destruct (List.find (fun t => String.eqb (term_name t) n2) _) as [t2|] eqn:H2; [|done].
  destruct (keep t1 t2); [|done]. injection He as <-.
  apply find_some_elem in H1 as [H1 _]. apply find_some_elem in H2 as [H2 _]. eauto.
Qed.

Lemma append_1_2 (s : string) : String.eqb (s +:+ "1") (s +:+ "2") = false.
Proof.
  induction s as [|a s IH]; [done|]. simpl. by rewrite Ascii.eqb_refl.
Qed.

Section CutConnectivity.
Variable rnd : nat -> string.

(** The junction a cut creates links its two terminals. *)
Lemma cutWireAt_junction_link (components : list Component) (wire : Wire) (point : Q * Q)
    (options : CutOptions) (n n' : nat) (res : CutResult) :
  cutWireAt rnd components wire point options n = (Some res, n') ->
  linkPairs (fun _ _ => true) (junction res) = [(rnd (n + 1)%nat, rnd (n + 2)%nat)].
Proof.
  unfold cutWireAt.
  destruct (terminalById components (wire_a wire)) as [a|]; [|done].
  destruct (terminalById components (wire_b wire)) as [b|]; [|done].
  destruct (_ || _); [done|].
  unfold gbind, newId, gret. simpl. intros [= <- <-].
  unfold linkPairs, internalLinksOf, termByName. simpl.
  rewrite !String.eqb_refl, append_1_2. simpl.
  replace (n + 1)%nat with (S n) by lia.
  replace (n + 2)%nat with (S (S n)) by lia. done.
Qed.

(** The edges of the circuit after a successful cut. *)
Lemma applyScissors_edges (components : list Component) (wires : list Wire)
    (targetWire : Wire) (p : Q * Q) (n n' : nat) (res : CutResult) (e : string * string) :
  cutWireAt rnd components targetWire p (mkCutOptions None (Some false)) n = (Some res, n') ->
  let st := (applyScissors rnd components wires targetWire p n).1 in
  e ∈ adjacencyEdges st.1 st.2
  ↔ (∃ wr, wr ∈ wires ∧ wire_id wr ≠ wire_id targetWire ∧ e = (wire_a wr, wire_b wr))
    ∨ e = (wire_a targetWire, rnd (n + 1)%nat)
    ∨ e = (rnd (n + 2)%nat, wire_b targetWire)
    ∨ (∃ c, c ∈ components ∧ e ∈ linkPairs (fun _ _ => true) c)
    ∨ e = (rnd (n + 1)%nat, rnd (n + 2)%nat).
Proof.
  intros Hcut. unfold applyScissors, gbind. rewrite Hcut. unfold gret. cbn [fst snd].
  pose proof (cutWireAt_junction_link _ _ _ _ _ _ _ Hcut) as Hlink.
  apply cutWireAt_some in Hcut as (_ & Hrem & _ & _ & H1 & H2).
  rewrite elem_of_adjacencyEdges. rewrite Hrem, H1, H2.
  split.
  - intros [(wr & Hwr & ->)|(c & Hc & He)].
    + apply elem_of_app in Hwr as [Hwr|Hwr].
      * apply list_elem_of_filter in Hwr as [Hid Hwr]. left. eauto.
      * apply elem_of_cons in Hwr as [->|Hwr]; [right; left; done|].
        apply list_elem_of_singleton in Hwr as ->. right. right. left. done.
    + apply elem_of_app in Hc as [Hc| ->%list_elem_of_singleton].
      * right. right. right. left. eauto.
      * rewrite Hlink in He. apply list_elem_of_singleton in He. tauto.
  - intros [(wr & Hwr & Hid & ->)|[->|[->|[(c & Hc & He)| ->]]]].
    + left. exists wr. split; [|done]. apply elem_of_app. left.
      by apply list_elem_of_filter.
    + left. eexists. split; [apply elem_of_app; right; left | done].
    + left. eexists. split; [apply elem_of_app; right; right; left | done].
    + right. exists c. split; [apply elem_of_app; by left | done].
    + right. exists (junction res). split; [apply elem_of_app; right; left|].
      rewrite Hlink. left.
Qed.

Lemma NoDup_fmap_eq {A B : Type} (f : A -> B) (l : list A) (x y : A) :
  NoDup (f <$> l) -> x ∈ l -> y ∈ l -> f x = f y -> x = y.
Proof.
  induction l as [|z l IH]; intros Hnd Hx Hy Hf; [by apply elem_of_nil in Hx|].
  rewrite fmap_cons in Hnd. apply NoDup_cons in Hnd as [Hz Hnd].
  apply elem_of_cons in Hx as [->|Hx], Hy as [->|Hy]; [done| | |by apply IH].
  - exfalso. apply Hz. rewrite Hf. by apply list_elem_of_fmap_2.
  - exfalso. apply Hz. rewrite <- Hf. by apply list_elem_of_fmap_2.
Qed.

(** X7.  The scissors never disconnect anything: two terminals connected
    before the click are connected after it, whether the cut is made
    or refused. *)
Theorem cut_never_disconnects (components : list Component) (wires : list Wire)
    (targetWire : Wire) (p : Q * Q) (n : nat) :
  NoDup (wire_id <$> wires) -> targetWire ∈ wires ->
  let st := (applyScissors rnd components wires targetWire p n).1 in
  forall x y,
    connected (buildAdjacency components wires) x y ->
    connected (buildAdjacency st.1 st.2) x y.
Proof.
  intros Hnd Htarget st x y.
  destruct (cutWireAt rnd components targetWire p (mkCutOptions None (Some false)) n)
    as [[res|] n'] eqn:Hcut.
  2:{ unfold st, applyScissors, gbind. rewrite Hcut. done. }
  pose proof (fun e => applyScissors_edges components wires targetWire p n n' res e Hcut)
    as Hedges. fold st in Hedges.
  assert (forall a b, adjacent (buildAdjacency st.1 st.2) a b ->
                      adjacent (buildAdjacency st.1 st.2) b a) as Hsym.
  { intros a b. rewrite !adjacent_buildAdjacency.
    intros (a' & b' & ? & ?). exists a', b'. tauto. }
  assert (connected (buildAdjacency st.1 st.2) (wire_a targetWire) (wire_b targetWire))
    as Hends.
  { apply (rtc_l _ _ (rnd (n + 1)%nat)); [|apply (rtc_l _ _ (rnd (n + 2)%nat)); [|apply rtc_once]].
    - apply adjacent_buildAdjacency. exists (wire_a targetWire), (rnd (n + 1)%nat).
      split; [|left; done]. apply (proj2 (Hedges _)). right. left. done.
    - apply adjacent_buildAdjacency. exists (rnd (n + 1)%nat), (rnd (n + 2)%nat).
      split; [|left; done]. apply (proj2 (Hedges _)). right. right. right. right. done.
    - apply adjacent_buildAdjacency. exists (rnd (n + 2)%nat), (wire_b targetWire).
      split; [|left; done]. apply (proj2 (Hedges _)). right. right. left. done. }
  intros Hxy. induction Hxy as [|x z y Hxz _ IH]; [constructor|].
  etransitivity; [|exact IH]. clear IH.
  apply adjacent_buildAdjacency in Hxz as (a & b & Hab & Hdir).
  assert (connected (buildAdjacency st.1 st.2) a b) as Hconn.
  { apply elem_of_adjacencyEdges in Hab as [(wr & Hwr & [= -> ->])|(c & Hc & He)].
    - destruct (decide (wire_id wr = wire_id targetWire)) as [Hid|Hid].
      + rewrite (NoDup_fmap_eq wire_id wires wr targetWire Hnd Hwr Htarget Hid). done.
      + apply rtc_once, adjacent_buildAdjacency. exists (wire_a wr), (wire_b wr).
        split; [|left; done]. apply (proj2 (Hedges _)). left. eauto.
    - apply rtc_once, adjacent_buildAdjacency. exists a, b. split; [|left; done].
      apply (proj2 (Hedges _)). right. right. right. left. eauto. }
  destruct Hdir as [[-> ->]|[-> ->]]; [done|].
  by apply (connected_sym _ Hsym).
Qed.

(** X8.  The scissors never connect anything: when the two identifiers
    drawn for the junction terminals are fresh, two terminals other
    than these that are connected after the click were connected
    before it. *)
Theorem cut_never_connects (components : list Component) (wires : list Wire)
    (targetWire : Wire) (p : Q * Q) (n : nat) :
  targetWire ∈ wires ->
  freshTerminalId components wires (rnd (n + 1)%nat) ->
  freshTerminalId components wires (rnd (n + 2)%nat) ->
  let st := (applyScissors rnd components wires targetWire p n).1 in
  forall x y,
    x ≠ rnd (n + 1)%nat -> x ≠ rnd (n + 2)%nat ->
    y ≠ rnd (n + 1)%nat -> y ≠ rnd (n + 2)%nat ->
    connected (buildAdjacency st.1 st.2) x y ->
    connected (buildAdjacency components wires) x y.
Proof.
  intros Htarget [Hf1c Hf1w] [Hf2c Hf2w] st x y Hx1 Hx2 Hy1 Hy2.
  destruct (cutWireAt rnd components targetWire p (mkCutOptions None (Some false)) n)
    as [[res|] n'] eqn:Hcut.
  2:{ unfold st, applyScissors, gbind. rewrite Hcut. done. }
  pose proof (fun e => applyScissors_edges components wires targetWire p n n' res e Hcut)
    as Hedges. fold st in Hedges.
  set (t1 := rnd (n + 1)%nat) in *. set (t2 := rnd (n + 2)%nat) in *.
  set (old := buildAdjacency components wires).
  set (f := fun z : string =>
              if decide (z = t1) then wire_a targetWire
              else if decide (z = t2) then wire_b targetWire else z).
  assert (forall a b, adjacent old a b -> adjacent old b a) as Hsym.
  { intros a b. unfold old. rewrite !adjacent_buildAdjacency.
    intros (a' & b' & ? & ?). exists a', b'. tauto. }
  assert (connected old (wire_a targetWire) (wire_b targetWire)) as Hends.
  { apply rtc_once, adjacent_buildAdjacency.
    exists (wire_a targetWire), (wire_b targetWire). split; [|left; done].
    apply elem_of_adjacencyEdges. left. eauto. }
  assert (forall z, z ≠ t1 -> z ≠ t2 -> f z = z) as Hfid.
  { intros z H1 H2. unfold f. by rewrite !decide_False. }
  assert (f t1 = wire_a targetWire) as Hft1 by (unfold f; by rewrite decide_True).
  assert (f t2 = wire_a targetWire ∨ f t2 = wire_b targetWire) as Hft2.
  { unfold f. destruct (decide (t2 = t1)); [by left|]. right. by rewrite decide_True. }
  assert (forall a b, (a, b) ∈ adjacencyEdges st.1 st.2 -> connected old (f a) (f b))
    as Hedge.
  { intros a b Hab. apply Hedges in Hab
      as [(wr & Hwr & _ & [= -> ->])|[[= -> ->]|[[= -> ->]|[(c & Hc & He)|[= -> ->]]]]].
    - destruct (Hf1w wr Hwr), (Hf2w wr Hwr). rewrite !Hfid by done.
      apply rtc_once, adjacent_buildAdjacency. exists (wire_a wr), (wire_b wr).
      split; [|left; done]. apply elem_of_adjacencyEdges. left. eauto.
    - destruct (Hf1w _ Htarget), (Hf2w _ Htarget).
      rewrite Hft1, Hfid by done. done.
    - destruct (Hf1w _ Htarget), (Hf2w _ Htarget).
      rewrite (Hfid (wire_b targetWire)) by done.
      destruct Hft2 as [-> | ->]; done.
    - pose proof (elem_of_linkPairs _ _ _ He) as (u & v & Hu & Hv & [= -> ->]).
      rewrite !Hfid by eauto.
      apply rtc_once, adjacent_buildAdjacency. exists (term_id u), (term_id v).
      split; [|left; done]. apply elem_of_adjacencyEdges. right. eauto.
    - rewrite Hft1. destruct Hft2 as [-> | ->]; done. }
  assert (forall a b, connected (buildAdjacency st.1 st.2) a b -> connected old (f a) (f b))
    as Hmap.
  { intros a b Hab. induction Hab as [|a c b Hac _ IH]; [constructor|].
    etransitivity; [|exact IH].
    apply adjacent_buildAdjacency in Hac as (a' & b' & Hab' & [[-> ->]|[-> ->]]).
    - by apply Hedge.
    - apply (connected_sym _ Hsym). by apply Hedge. }
  intros Hxy. apply Hmap in Hxy. by rewrite !Hfid in Hxy.
Qed.

(** X9.  The scissors keep every wire attached: when both ends of every
    wire are terminals of a component before the click, they are
    after it, the two new wires included. *)
Theorem cut_keeps_wires_attached (components : list Component) (wires : list Wire)
    (targetWire : Wire) (p : Q * Q) (n : nat) :
  wiresAttached components wires ->
  let st := (applyScissors rnd components wires targetWire p n).1 in
  wiresAttached st.1 st.2.
Proof.
  intros Hatt st.
  destruct (cutWireAt rnd components targetWire p (mkCutOptions None (Some false)) n)
    as [[res|] n'] eqn:Hcut.
  2:{ unfold st, applyScissors, gbind. rewrite Hcut. done. }
  unfold st, applyScissors, gbind. rewrite Hcut. unfold gret. cbn [fst snd].
  assert (forall tid, is_Some (terminalById components tid) ->
            is_Some (terminalById (components ++ [junction res]) tid)) as Hold.
  { intros tid. rewrite !terminalById_is_Some. intros (c & t & Hc & Ht).
    exists c, t. split; [apply elem_of_app; by left | done]. }
  assert (forall tid, tid ∈ (term_id <$> comp_terminals (junction res)) ->
            is_Some (terminalById (components ++ [junction res]) tid)) as Hnew.
  { intros tid (t & -> & Ht)%list_elem_of_fmap. apply terminalById_is_Some.
    exists (junction res), t. split; [apply elem_of_app; right; left | done]. }
  assert (is_Some (terminalById components (wire_a targetWire))
          ∧ is_Some (terminalById components (wire_b targetWire))) as [Ha Hb].
  { unfold cutWireAt in Hcut.
    destruct (terminalById components (wire_a targetWire)); [|done].
    destruct (terminalById components (wire_b targetWire)); [|done]. done. }
  apply cutWireAt_some in Hcut as (_ & _ & _ & Hterms & H1 & H2).
  rewrite Hterms in Hnew.
  intros wr [Hwr|Hwr]%elem_of_app.
  - apply list_elem_of_filter in Hwr as [_ Hwr]. destruct (Hatt wr Hwr). split; by apply Hold.
  - apply elem_of_cons in Hwr as [->|Hwr].
    + rewrite H1. cbn [withIdB wire_a wire_b]. split; [by apply Hold|].
      apply Hnew. left.
    + apply list_elem_of_singleton in Hwr as ->.
      rewrite H2. cbn [withIdA wire_a wire_b]. split; [|by apply Hold].
      apply Hnew. right. left.
Qed.
End CutConnectivity.

(** The 5 m wire Supply.L → Lamp.L cut at its midpoint. *)
Lemma cut_never_disconnects_witness :
  let st := (applyScissors Examples.ids [Examples.supply; Examples.lamp] [Examples.longLine]
               Examples.longLine (110, 10)%Q 0).1 in
  connected (buildAdjacency [Examples.supply; Examples.lamp] [Examples.longLine]) "sL" "lL"
  ∧ connected (buildAdjacency st.1 st.2) "sL" "lL".
Proof.
  assert (connected (buildAdjacency [Examples.supply; Examples.lamp] [Examples.longLine])
            "sL" "lL") as Hbefore.
  { apply elem_of_bfs. vm_compute. set_solver. }
  split; [exact Hbefore|].
  apply (cut_never_disconnects Examples.ids [Examples.supply; Examples.lamp]
           [Examples.longLine] Examples.longLine (110, 10)%Q 0).
  - simpl. apply NoDup_singleton.
  - left.
  - exact Hbefore.
Defined.

Lemma cut_never_connects_witness :
  let st := (applyScissors Examples.ids [Examples.supply; Examples.lamp] [Examples.longLine]
               Examples.longLine (110, 10)%Q 0).1 in
  connected (buildAdjacency st.1 st.2) "sL" "lL"
  ∧ connected (buildAdjacency [Examples.supply; Examples.lamp] [Examples.longLine]) "sL" "lL".
Proof.
  assert (connected
            (buildAdjacency
               (applyScissors Examples.ids [Examples.supply; Examples.lamp]
                  [Examples.longLine] Examples.longLine (110, 10)%Q 0).1.1
               (applyScissors Examples.ids [Examples.supply; Examples.lamp]
                  [Examples.longLine] Examples.longLine (110, 10)%Q 0).1.2)
            "sL" "lL") as Hafter.
  { apply elem_of_bfs. vm_compute. set_solver. }
  split; [exact Hafter|].
  apply (cut_never_connects Examples.ids [Examples.supply; Examples.lamp]
           [Examples.longLine] Examples.longLine (110, 10)%Q 0);
    [| | |discriminate|discriminate|discriminate|discriminate|exact Hafter].
  - left.
  - split.
    + intros c t Hc Ht.
      repeat (apply elem_of_cons in Hc as [->|Hc]); [| |by apply elem_of_nil in Hc];
        simpl in Ht;
        repeat (apply elem_of_cons in Ht as [->|Ht]); try (by apply elem_of_nil in Ht);
        discriminate.
    + intros wr Hwr. apply list_elem_of_singleton in Hwr as ->. split; discriminate.
  - split.
    + intros c t Hc Ht.
      repeat (apply elem_of_cons in Hc as [->|Hc]); [| |by apply elem_of_nil in Hc];
        simpl in Ht;
        repeat (apply elem_of_cons in Ht as [->|Ht]); try (by apply elem_of_nil in Ht);
        discriminate.
    + intros wr Hwr. apply list_elem_of_singleton in Hwr as ->. split; discriminate.
Defined.

Lemma cut_keeps_wires_attached_witness :
  let st := (applyScissors Examples.ids [Examples.supply; Examples.lamp] [Examples.longLine]
               Examples.longLine (110, 10)%Q 0).1 in
  wiresAttached st.1 st.2.
Proof.
  apply (cut_keeps_wires_attached Examples.ids [Examples.supply; Examples.lamp]
           [Examples.longLine] Examples.longLine (110, 10)%Q 0).
  intros wr Hwr. apply list_elem_of_singleton in Hwr as ->.
  split; vm_compute; eauto.
Defined.

(** The cut of the example is made: a junction and two wires replace
    the wire. *)
Example cut_example_made :
  let st := (applyScissors Examples.ids [Examples.supply; Examples.lamp] [Examples.longLine]
               Examples.longLine (110, 10)%Q 0).1 in
  length st.1 = 3 ∧ (wire_id <$> st.2) = ["D"; "E"]
  ∧ ((fun wr => (wire_a wr, wire_b wr)) <$> st.2) = [("sL", "B"); ("C", "lL")].
Proof. vm_compute. done. Qed.

(** ** Selection, history and deletion *)

Lemma elem_of_toggleIn (id x : string) (l : list string) :
  x ∈ toggleIn id l ↔ (x ≠ id ∧ x ∈ l) ∨ (x = id ∧ id ∉ l).
Proof.
  unfold toggleIn. case_bool_decide as Hin.
  - rewrite list_elem_of_filter. split; [intros [? ?]; by left | intros [?|[_ ?]]; done].
  - rewrite elem_of_app, list_elem_of_singleton. split.
    + intros [Hx| ->]; [left | by right]. split; [by intros -> | done].
    + intros [[_ ?]|[-> _]]; auto.
Qed.

Lemma toggleIn_self (id : string) (l : list string) :
  bool_decide (id ∈ toggleIn id l) = negb (bool_decide (id ∈ l)).
Proof.
  destruct (decide (id ∈ l)) as [Hin|Hin].
  - rewrite (bool_decide_eq_true_2 (id ∈ l)) by done. simpl.
    apply bool_decide_eq_false. rewrite elem_of_toggleIn. intros [[? _]|[_ ?]]; done.
  - rewrite (bool_decide_eq_false_2 (id ∈ l)) by done. simpl.
    apply bool_decide_eq_true. rewrite elem_of_toggleIn. by right.
Qed.

Lemma toggleIn_other (id x : string) (l : list string) :
  x ≠ id -> bool_decide (x ∈ toggleIn id l) = bool_decide (x ∈ l).
Proof.
  intros Hne. apply bool_decide_ext. rewrite elem_of_toggleIn.
  split; [intros [[_ ?]|[? _]]; done | intros ?; by left].
Qed.

(** X10.  Toggling an identifier flips whether it is selected, in the list
    of its kind, and changes the selection of nothing else. *)
Theorem toggleSelection_flips (kind id : string) (st : AppState) :
  isSelected (toggleSelection kind id st) kind id = negb (isSelected st kind id)
  ∧ forall kind' id',
      (id' ≠ id ∨ String.eqb kind' "component" ≠ String.eqb kind "component") ->
      isSelected (toggleSelection kind id st) kind' id' = isSelected st kind' id'.
Proof.
  unfold isSelected, toggleSelection. split.
  - destruct (String.eqb kind "component"); simpl; apply toggleIn_self.
  - intros kind' id' Hother.
    destruct (String.eqb kind "component"), (String.eqb kind' "component"); simpl;
      try done; (destruct Hother as [Hne|Hk]; [|done]); by apply toggleIn_other.
Qed.

Lemma last_snoc_dropLast {A : Type} (l : list A) (x : A) :
  last l = Some x -> dropLast l ++ [x] = l.
Proof.
  intros Hl. destruct (last_Some l x) as [(l' & ->) _]; [done|].
  unfold dropLast. rewrite length_app. simpl.
  replace (length l' + 1 - 1) with (length l') by lia.
  by rewrite take_app_length.
Qed.

Lemma dropLast_snoc {A : Type} (l : list A) (x : A) : dropLast (l ++ [x]) = l.
Proof.
  unfold dropLast. rewrite length_app. simpl.
  replace (length l + 1 - 1) with (length l) by lia.
  by rewrite take_app_length.
Qed.

Section HistorySpec.
Variable deepCloneState : list Component * list Wire -> list Component * list Wire.

(** X11.  Undo followed by redo, and redo followed by undo, give back the
    components, the wires and both stacks; on an empty stack either
    handler does nothing. *)
Theorem undo_redo_roundtrip (st : AppState) :
  (app_undoStack st ≠ [] -> sameDocument (redo (undo st)) st)
  ∧ (app_redoStack st ≠ [] -> sameDocument (undo (redo st)) st)
  ∧ (app_undoStack st = [] -> undo st = st)
  ∧ (app_redoStack st = [] -> redo st = st).
Proof.
  split; [|split; [|split]].
  - intros Hne. unfold undo.
    destruct (last (app_undoStack st)) as [prevState|] eqn:Hlast.
    2:{ apply last_None in Hlast. done. }
    unfold redo. cbn [app_redoStack app_undoStack app_components app_wires].
    rewrite last_snoc. cbn [fst snd].
    unfold sameDocument. cbn [app_redoStack app_undoStack app_components app_wires].
    rewrite dropLast_snoc. destruct prevState as [cs ws]. cbn [fst snd].
    by rewrite (last_snoc_dropLast _ _ Hlast).
  - intros Hne. unfold redo.
    destruct (last (app_redoStack st)) as [nextState|] eqn:Hlast.
    2:{ apply last_None in Hlast. done. }
    unfold undo. cbn [app_redoStack app_undoStack app_components app_wires].
    rewrite last_snoc. cbn [fst snd].
    unfold sameDocument. cbn [app_redoStack app_undoStack app_components app_wires].
    rewrite dropLast_snoc. destruct nextState as [cs ws]. cbn [fst snd].
    by rewrite (last_snoc_dropLast _ _ Hlast).
  - intros Hnil. unfold undo. by rewrite Hnil.
  - intros Hnil. unfold redo. by rewrite Hnil.
Qed.

(** X12.  Deleting the selection leaves no wire behind that ends on a
    terminal of a deleted component, and every wire that was
    attached at both ends before is attached at both ends after. *)
Theorem removeSelected_no_orphans (st : AppState) :
  wiresAttached (app_components st) (app_wires st) ->
  let st' := removeSelected deepCloneState st in
  wiresAttached (app_components st') (app_wires st')
  ∧ (forall c, c ∈ app_components st' ↔
               c ∈ app_components st ∧ comp_id c ∉ sel_components (app_selection st))
  ∧ forall wr c t,
      wr ∈ app_wires st' -> c ∈ app_components st ->
      comp_id c ∈ sel_components (app_selection st) -> t ∈ comp_terminals c ->
      wire_a wr ≠ term_id t ∧ wire_b wr ≠ term_id t.
Proof.
  intros Hatt st'. unfold st', removeSelected.
  destruct (bool_decide (sel_components (app_selection st) = [])
            && bool_decide (sel_wires (app_selection st) = [])) eqn:Hnone.
  - apply andb_true_iff in Hnone as [Hc%bool_decide_eq_true _].
    split; [done|]. split.
    + intros c. rewrite Hc. split; [intros ?; split; [done | apply not_elem_of_nil] | tauto].
    + intros wr c t _ _ Hsel. rewrite Hc in Hsel. by apply elem_of_nil in Hsel.
  - cbn [app_components app_wires pushHistory].
    set (sel := sel_components (app_selection st)).
    set (purge := filter (fun c => comp_id c ∈ sel) (app_components st)
                    ≫= (fun c => term_id <$> comp_terminals c)).
    assert (forall c t, c ∈ app_components st -> comp_id c ∈ sel -> t ∈ comp_terminals c ->
              term_id t ∈ purge) as Hpurge.
    { intros c t Hcin Hsel Ht. unfold purge. apply list_elem_of_bind.
      exists c. split; [by apply list_elem_of_fmap_2 | by apply list_elem_of_filter]. }
    split; [|split].
    + intros wr [(_ & Hna & Hnb) Hwr]%list_elem_of_filter.
      assert (forall tid, tid ∉ purge ->
                is_Some (terminalById (app_components st) tid) ->
                is_Some (terminalById
                           (filter (fun c => comp_id c ∉ sel) (app_components st)) tid))
        as Hkeep.
      { intros tid Hn. rewrite !terminalById_is_Some.
        intros (c & t & Hcin & Ht & Hid). exists c, t. split; [|done].
        apply list_elem_of_filter. split; [|done].
        intros Hsel. apply Hn. rewrite <- Hid. by eapply Hpurge. }
      destruct (Hatt wr Hwr) as [Ha Hb]. split; by apply Hkeep.
    + intros c. rewrite list_elem_of_filter. tauto.
    + intros wr c t [(_ & Hna & Hnb) _]%list_elem_of_filter Hcin Hsel Ht.
      split; intros Heq; [apply Hna | apply Hnb]; rewrite Heq; by eapply Hpurge.
Qed.

(** X13.  Undo after a deletion restores the snapshot taken before it. *)
Theorem removeSelected_undo (st : AppState) :
  sel_components (app_selection st) ≠ [] ∨ sel_wires (app_selection st) ≠ [] ->
  let st' := undo (removeSelected deepCloneState st) in
  (app_components st', app_wires st') = deepCloneState (app_components st, app_wires st)
  ∧ app_undoStack st' = app_undoStack st.
Proof.
  intros Hsel st'. unfold st', removeSelected.
  assert (bool_decide (sel_components (app_selection st) = [])
          && bool_decide (sel_wires (app_selection st) = []) = false) as ->.
  { apply andb_false_iff. destruct Hsel; [left | right]; by apply bool_decide_eq_false. }
  unfold undo, pushHistory. cbn [app_undoStack app_components app_wires app_redoStack].
  rewrite last_snoc, dropLast_snoc. cbn [app_undoStack app_components app_wires].
  by destruct (deepCloneState _).
Qed.
End HistorySpec.

(** A supply, a lamp and the wire between them, with the lamp
    selected. *)
Lemma removeSelected_no_orphans_witness :
  let st := mkAppState [Examples.supply; Examples.lamp] [Examples.longLine]
                       (mkSelection ["lamp"] []) None [] [] in
  let st' := removeSelected (fun s => s) st in
  wiresAttached (app_components st') (app_wires st')
  ∧ (forall c, c ∈ app_components st' ↔
               c ∈ app_components st ∧ comp_id c ∉ sel_components (app_selection st))
  ∧ forall wr c t,
      wr ∈ app_wires st' -> c ∈ app_components st ->
      comp_id c ∈ sel_components (app_selection st) -> t ∈ comp_terminals c ->
      wire_a wr ≠ term_id t ∧ wire_b wr ≠ term_id t.
Proof.
  intros st.
  apply (removeSelected_no_orphans (fun s => s) st).
  intros wr Hwr. apply list_elem_of_singleton in Hwr as ->.
  split; vm_compute; eauto.
Defined.

Lemma removeSelected_undo_witness :
  let st := mkAppState [Examples.supply; Examples.lamp] [Examples.longLine]
                       (mkSelection ["lamp"] []) None [] [] in
  let st' := undo (removeSelected (fun s => s) st) in
  (app_components st', app_wires st') = (app_components st, app_wires st)
  ∧ app_undoStack st' = app_undoStack st.
Proof.
  intros st.
  apply (removeSelected_undo (fun s => s) st).
  left. discriminate.
Defined.

(** Deleting the lamp of the example takes the wire with it. *)
Example removeSelected_example :
  let st' := removeSelected (fun s => s)
               (mkAppState [Examples.supply; Examples.lamp] [Examples.longLine]
                           (mkSelection ["lamp"] []) None [] []) in
  (comp_id <$> app_components st') = ["sup"] ∧ app_wires st' = []
  ∧ length (app_undoStack st') = 1.
Proof. vm_compute. done. Qed.

(** ** More on cable sizing *)

Lemma requiredCSAForTerminal_le_25 (c : Component) (t : Terminal) (region : string) :
  (requiredCSAForTerminal c t region <= 25)%Q.
Proof.
  unfold requiredCSAForTerminal.
  repeat match goal with
         | |- context [if ?b then _ else _] => destruct b
         end; unfold Qle; simpl; lia.
Qed.

Lemma wireRequiredMinCSA_le_25 (components : list Component) (wr : Wire) (region : string) :
  (wireRequiredMinCSA components wr region <= 25)%Q.
Proof.
  unfold wireRequiredMinCSA.
  destruct (terminalById components (wire_a wr)) as [ta|]; [|lra].
  destruct (terminalById components (wire_b wr)) as [tb|]; [|lra].
  pose proof (requiredCSAForTerminal_le_25 ta.1 ta.2 region) as Ha.
  pose proof (requiredCSAForTerminal_le_25 tb.1 tb.2 region) as Hb.
  set (ra := requiredCSAForTerminal ta.1 ta.2 region) in *.
  set (rb := requiredCSAForTerminal tb.1 tb.2 region) in *.
  assert (Qmax (Qmax ra rb) 0 <= 25)%Q as Hm.
  { destruct (Qmax_spec ra rb) as [[? ->]|[? ->]];
      match goal with |- (Qmax ?x 0 <= _)%Q => destruct (Qmax_spec x 0) as [[? ->]|[? ->]] end;
      lra. }
  destruct (_ && _ && _); [|exact Hm].
  destruct (Qmax_spec (Qmax (Qmax ra rb) 0) 10) as [[? ->]|[? ->]]; lra.
Qed.

(** X14.  No rule asks for more than 25 mm²: a wire declared at 25 mm² or
    more is never reported undersized, wherever it is connected and
    in whatever region. *)
Theorem largest_size_never_undersized (components : list Component) (wr : Wire)
    (region : option string) (s : Q) :
  wire_sizeMm2 wr = Some s -> (25 <= s)%Q ->
  isWireUndersized components wr region = false.
Proof.
  intros Hs Hbig. unfold isWireUndersized. rewrite Hs.
  destruct (negb (truthyQ s) || negb (truthyQ _)); [done|].
  apply Qltb_ge.
  pose proof (wireRequiredMinCSA_le_25 components wr (default "UK" region)).
  unfold EPSILON. lra.
Qed.

Lemma largest_size_never_undersized_witness :
  isWireUndersized [Examples.supply; Examples.lamp]
    (Examples.sized 25 (Some "Tails") None (Examples.wire "w6" "sL" "lL" "L")) None = false.
Proof.
  apply (largest_size_never_undersized [Examples.supply; Examples.lamp]
           (Examples.sized 25 (Some "Tails") None (Examples.wire "w6" "sL" "lL" "L")) None 25).
  - reflexivity.
  - lra.
Defined.

Lemma truthyQ_false (q : Q) : truthyQ q = false ↔ (q == 0)%Q.
Proof.
  unfold truthyQ. rewrite negb_false_iff. apply Qeq_bool_iff.
Qed.

Lemma isWireUndersized_true (components : list Component) (wr : Wire)
    (region : option string) :
  isWireUndersized components wr region = true
  ↔ ∃ s, wire_sizeMm2 wr = Some s ∧ ¬ (s == 0)%Q
         ∧ ¬ (wireRequiredMinCSA components wr (default "UK" region) == 0)%Q
         ∧ (s + EPSILON < wireRequiredMinCSA components wr (default "UK" region))%Q.
Proof.
  unfold isWireUndersized.
  pose proof (wireRequiredMinCSA_nonneg components wr (default "UK" region)) as Hreq.
  set (req := wireRequiredMinCSA _ _ _) in *.
  destruct (wire_sizeMm2 wr) as [s|]; [|split; [done | intros (? & ? & _); done]].
  destruct (truthyQ s) eqn:Hs; cbn [negb orb].
  - apply truthyQ_true in Hs.
    destruct (truthyQ req) eqn:Hr; cbn [negb orb].
    + apply truthyQ_true in Hr. rewrite Qltb_lt.
      split; [eauto | intros (? & [= <-] & _ & _ & ?); done].
    + apply truthyQ_false in Hr. split; [done|].
      intros (s' & [= <-] & _ & Hnz & _). done.
  - apply truthyQ_false in Hs. split; [done|]. intros (s' & [= <-] & Hnz & _). done.
Qed.

Lemma wireRequiredMinCSA_ext (components : list Component) (wr wr' : Wire) (region : string) :
  wire_a wr' = wire_a wr -> wire_b wr' = wire_b wr ->
  wire_kind wr' = wire_kind wr -> wire_cableType wr' = wire_cableType wr ->
  wireRequiredMinCSA components wr' region = wireRequiredMinCSA components wr region.
Proof. unfold wireRequiredMinCSA. by intros -> -> -> ->. Qed.

(** X15.  Between the same two terminals, with the same kind and cable
    type, a conductor of positive size that is not reported undersized
    stays unreported at any larger size. *)
Theorem isWireUndersized_monotone (components : list Component) (wr wr' : Wire)
    (region : option string) (s s' : Q) :
  wire_a wr' = wire_a wr -> wire_b wr' = wire_b wr ->
  wire_kind wr' = wire_kind wr -> wire_cableType wr' = wire_cableType wr ->
  wire_sizeMm2 wr = Some s -> wire_sizeMm2 wr' = Some s' ->
  (0 < s)%Q -> (s <= s')%Q ->
  isWireUndersized components wr region = false ->
  isWireUndersized components wr' region = false.
Proof.
  intros Ha Hb Hk Hc Hs Hs' Hpos Hle Hok.
  apply not_true_iff_false. intros Hbad. apply not_true_iff_false in Hok. apply Hok.
  apply isWireUndersized_true in Hbad as (x & Hx & _ & Hnz & Hlt).
  rewrite Hs' in Hx. injection Hx as <-.
  rewrite (wireRequiredMinCSA_ext components wr wr') in Hlt, Hnz by done.
  apply isWireUndersized_true. exists s. split; [done|]. split; [lra|]. split; [done | lra].
Qed.

Lemma isWireUndersized_monotone_witness :
  let wr := Examples.sized (15 # 10) (Some "T&E") None (Examples.wire "w7" "lE" "e1" "E") in
  let wr' := Examples.sized (25 # 10) (Some "T&E") None (Examples.wire "w7" "lE" "e1" "E") in
  isWireUndersized [Examples.lamp; Examples.blockE "blk" "e1" "e2" "e3" 300] wr' None = false.
Proof.
  intros wr wr'.
  apply (isWireUndersized_monotone [Examples.lamp; Examples.blockE "blk" "e1" "e2" "e3" 300]
           wr wr' None (15 # 10) (25 # 10)); try reflexivity; lra.
Defined.

Lemma Qmax_comm (x y : Q) : (Qmax x y == Qmax y x)%Q.
Proof.
  destruct (Qmax_spec x y) as [[? ->]|[? ->]], (Qmax_spec y x) as [[? ->]|[? ->]]; lra.
Qed.

Lemma Qmax_proper (x x' y y' : Q) : (x == x')%Q -> (y == y')%Q -> (Qmax x y == Qmax x' y')%Q.
Proof.
  intros Hx Hy.
  destruct (Qmax_spec x y) as [[? ->]|[? ->]], (Qmax_spec x' y') as [[? ->]|[? ->]]; lra.
Qed.

Lemma wireRequiredMinCSA_flip (components : list Component) (wr : Wire) (region : string) :
  (wireRequiredMinCSA components (flipWire wr) region
   == wireRequiredMinCSA components wr region)%Q.
Proof.
  unfold wireRequiredMinCSA. cbn [flipWire wire_a wire_b wire_kind wire_cableType].
  destruct (terminalById components (wire_a wr)) as [ta|],
           (terminalById components (wire_b wr)) as [tb|]; try reflexivity.
  set (ra := requiredCSAForTerminal ta.1 ta.2 region).
  set (rb := requiredCSAForTerminal tb.1 tb.2 region).
  assert (Qmax (Qmax rb ra) 0 == Qmax (Qmax ra rb) 0)%Q as Hm.
  { apply Qmax_proper; [apply Qmax_comm | reflexivity]. }
  destruct (_ && _ && _); [|exact Hm].
  apply Qmax_proper; [exact Hm | reflexivity].
Qed.

(** X16.  The sizing check does not depend on the end a wire was drawn
    from. *)
Theorem isWireUndersized_flip (components : list Component) (wr : Wire)
    (region : option string) :
  isWireUndersized components (flipWire wr) region = isWireUndersized components wr region.
Proof.
  pose proof (wireRequiredMinCSA_flip components wr (default "UK" region)) as Hreq.
  destruct (isWireUndersized components wr region) eqn:Hw.
  - apply isWireUndersized_true in Hw as (s & Hs & Hnz & Hrz & Hlt).
    apply isWireUndersized_true. exists s. split; [done|]. split; [done|].
    by rewrite Hreq.
  - apply not_true_iff_false. intros Hbad. apply not_true_iff_false in Hw. apply Hw.
    apply isWireUndersized_true in Hbad as (s & Hs & Hnz & Hrz & Hlt).
    apply isWireUndersized_true. exists s. split; [done|]. split; [done|].
    by rewrite <- Hreq.
Qed.


(** ** What the traversals return *)

Lemma NoDup_app_fresh (vis new : list string) :
  NoDup vis -> NoDup new -> (forall y, y ∈ new -> y ∉ vis) -> NoDup (vis ++ new).
Proof.
  intros Hv Hn Hfresh. apply NoDup_app. split; [done|]. split; [|done].
  intros x Hx Hx'. by apply (Hfresh x Hx').
Qed.

Lemma bfs_loop_NoDup (adj : gmap string (list string)) (fuel : nat)
    (vis q r : list string) :
  NoDup vis -> bfs_loop fuel adj vis q = Some r ->
  NoDup r ∧ ∃ tl, r = vis ++ tl.
Proof.
  revert vis q. induction fuel as [|fuel IH]; intros vis q Hnd Hrun.
  - destruct q; [|done]. injection Hrun as <-. split; [done|]. exists []. by rewrite app_nil_r.
  - destruct q as [|v q]; simpl in Hrun.
    + injection Hrun as <-. split; [done|]. exists []. by rewrite app_nil_r.
    + destruct (foldl_bfs_visit (nbrs adj v) vis q) as (new & Heq & Hnew & Hiff).
      rewrite Heq in Hrun. simpl in Hrun.
      apply IH in Hrun as [Hr (tl & ->)].
      * split; [done|]. exists (new ++ tl). by rewrite app_assoc.
      * apply NoDup_app_fresh; [done..|]. intros y Hy. by apply Hiff in Hy as [_ ?].
Qed.

(** X18.  [bfs] returns the start first and every identifier once, and the
    identifiers it returns are exactly those connected to the start. *)
Theorem bfs_component (adj : gmap string (list string)) (s : string) :
  NoDup (bfs adj s)
  ∧ head (bfs adj s) = Some s
  ∧ forall x, x ∈ bfs adj s ↔ connected adj s x.
Proof.
  split; [|split; [|apply elem_of_bfs]]; unfold bfs;
    destruct (bfs_run adj s) as (r & Hrun & _); rewrite Hrun; simpl;
    apply bfs_loop_NoDup in Hrun as [Hnd (tl & ->)]; try apply NoDup_singleton; done.
Qed.

(** X19.  Over the graph of a circuit, "reached by [bfs]" is an equivalence:
    every terminal reaches itself, if [x] reaches [y] then [y] reaches
    [x], and reaching composes. *)
Theorem bfs_equivalence (components : list Component) (wires : list Wire) :
  let adj := buildAdjacency components wires in
  (forall x, x ∈ bfs adj x)
  ∧ (forall x y, y ∈ bfs adj x -> x ∈ bfs adj y)
  ∧ (forall x y z, y ∈ bfs adj x -> z ∈ bfs adj y -> z ∈ bfs adj x).
Proof.
  intros adj. split; [|split].
  - intros x. apply elem_of_bfs. constructor.
  - intros x y. rewrite !elem_of_bfs. apply connected_sym.
    intros a b. rewrite !adjacent_string. unfold adj. rewrite buildAdjacency_edges.
    apply adjacent_foldl_addEdge_sym.
  - intros x y z. rewrite !elem_of_bfs. intros Hxy Hyz. by etransitivity.
Qed.

Lemma bfsSet_loop_NoDup {A : Type} `{EdgeLike A} (g : gmap string (list A)) (fuel : nat)
    (vis q r : list string) :
  NoDup vis -> bfsSet_loop fuel g vis q = Some r -> NoDup r ∧ ∃ tl, r = vis ++ tl.
Proof.
  revert vis q. induction fuel as [|fuel IH]; intros vis q Hnd Hrun.
  - destruct q; [|done]. injection Hrun as <-. split; [done|]. exists []. by rewrite app_nil_r.
  - destruct q as [|v q]; simpl in Hrun.
    + injection Hrun as <-. split; [done|]. exists []. by rewrite app_nil_r.
    + destruct (foldl_bfsSet_visit (nbrs g v) vis q) as (new & Heq & Hnew & Hiff).
      rewrite Heq in Hrun. simpl in Hrun.
      apply IH in Hrun as [Hr (tl & ->)].
      * split; [done|]. exists (new ++ tl). by rewrite app_assoc.
      * apply NoDup_app_fresh; [done..|]. intros y Hy. by apply Hiff in Hy as (_ & _ & ?).
Qed.

(** X20.  [bfsSet] returns the empty set exactly when the start is falsy or
    not a key of the graph.  Otherwise it returns, each once and the
    start first, the identifiers reached from the start along
    neighbours with a truthy identifier. *)
Theorem bfsSet_reach {A : Type} `{EdgeLike A} (g : gmap string (list A)) (s : string) :
  NoDup (bfsSet g s)
  ∧ (bfsSet g s = [] ↔ ¬ present g s)
  ∧ (present g s -> head (bfsSet g s) = Some s)
  ∧ forall x, x ∈ bfsSet g s ↔ present g s ∧ rtc (truthyStep g) s x.
Proof.
  assert (forall x, x ∈ bfsSet g s ↔ present g s ∧ rtc (truthyStep g) s x) as Hiff
    by apply elem_of_bfsSet.
  assert (NoDup (bfsSet g s) ∧ (present g s -> head (bfsSet g s) = Some s)) as [Hnd Hhd].
  { unfold bfsSet, present, hasKey.
    destruct (truthy s) eqn:Hts; cbn [negb orb]; [|split; [constructor | intros [? _]; done]].
    case_bool_decide as Hks; cbn [negb]; [|split; [constructor | intros [_ ?]; done]].
    destruct (bfsSet_loop _ g [s] [s]) as [r|] eqn:Hrun; simpl.
    - apply bfsSet_loop_NoDup in Hrun as [Hr (tl & ->)]; [done | apply NoDup_singleton].
    - pose proof (Hiff s) as Hs. unfold bfsSet, present, hasKey in Hs.
      rewrite Hts, bool_decide_eq_true_2 in Hs by done. cbn [negb orb] in Hs.
      rewrite Hrun in Hs. simpl in Hs.
      exfalso. eapply elem_of_nil, Hs. split; [done | constructor]. }
  split; [done|]. split; [|split; [done|done]].
  split.
  - intros Hnil Hp. specialize (Hhd Hp). by rewrite Hnil in Hhd.
  - intros Hnp. destruct (bfsSet g s) as [|x l] eqn:Hb; [done|]. exfalso. apply Hnp.
    apply (Hiff x). left.
Qed.

(** X21.  Ring detection on a graph that records every edge at both ends:
    from an absent start the answer is "no ring"; from a present start
    it is "no ring" exactly when the connected part of the start is a
    tree, that is, when its neighbour arrays hold two entries for each
    of its identifiers but one. *)
Theorem hasCycleThrough_tree (g : gmap string (list Edge)) (s : string) :
  symmetricGraph g ->
  (¬ present g s -> hasCycleThrough g s = false)
  ∧ (present g s ->
     ∃ part, NoDup part
             ∧ (forall x, x ∈ part ↔ connected g s x)
             ∧ (hasCycleThrough g s = false ↔ sumDeg g part + 2 = 2 * length part)).
Proof.
  intros Hsym. split.
  - intros Hnp. unfold hasCycleThrough, hasCycleThrough_run, hasKey.
    destruct (truthy s) eqn:Hts; [|done]. case_bool_decide as Hks; [|done].
    destruct Hnp. done.
  - intros [Hts Hks].
    destruct (hasCycleThrough_run_spec g s Hsym Hts Hks) as (vis & cyc & Hrun & Hnd & Hvis & Hcyc).
    exists vis. split; [done|]. split; [done|].
    unfold hasCycleThrough. rewrite Hrun. done.
Qed.

(** The Line graph of the example ring, and of the same circuit with
    the return leg left out. *)
Lemma hasCycleThrough_tree_witness :
  let g := buildWeightedSubgraph hypotApprox RingExample.components
             (take 6 RingExample.wires) LineTermTypes "L" in
  (¬ present g "sL" -> hasCycleThrough g "sL" = false)
  ∧ (present g "sL" ->
     ∃ part, NoDup part
             ∧ (forall x, x ∈ part ↔ connected g "sL" x)
             ∧ (hasCycleThrough g "sL" = false ↔ sumDeg g part + 2 = 2 * length part)).
Proof.
  intros g. apply (hasCycleThrough_tree g "sL").
  apply buildWeightedSubgraph_symmetric.
Defined.

Example radial_is_no_ring :
  hasCycleThrough (buildWeightedSubgraph hypotApprox RingExample.components
                     (take 6 RingExample.wires) LineTermTypes "L") "sL" = false
  ∧ hasCycleThrough (buildWeightedSubgraph hypotApprox RingExample.components
                       RingExample.wires LineTermTypes "L") "sL" = true.
Proof. vm_compute. done. Qed.

(** ** Faults, lamps and earth continuity in the analysis *)

Lemma has_id_reachFrom_true (adj : gmap string (list string)) (s o : option string) :
  has_id (reachFrom adj s) o = true
  ↔ ∃ a b, s = Some a ∧ truthy a = true ∧ o = Some b ∧ connected adj a b.
Proof.
  destruct o as [b|]; simpl.
  2:{ split; [done | intros (? & ? & _ & _ & ? & _); done]. }
  rewrite bool_decide_eq_true, elem_of_reachFrom.
  split; [intros (a & ? & ? & ?); eauto 10 | intros (a & ? & ? & ? & [= <-] & ?); eauto].
Qed.

Lemma has_id_reachFrom (adj : gmap string (list string)) (s o : option string) :
  truthy_opt s && has_id (reachFrom adj s) o = true
  ↔ ∃ a b, s = Some a ∧ truthy a = true ∧ o = Some b ∧ connected adj a b.
Proof.
  rewrite andb_true_iff, has_id_reachFrom_true. split; [tauto|].
  intros (a & b & -> & Ha & Hrest). split; [done | eauto 10].
Qed.

Section AnalysisFaults.
Variable hypot : Q -> Q -> Q.

(** X22.  The analysis reports exactly the faults of the circuit: an L–N
    entry when the supply's Line is connected to its Neutral, an L–E
    entry when it is connected to its Earth, the N–E flag when
    Neutral is connected to Earth, and no other entry. *)
Theorem analysis_faults_exact (components : list Component) (wires : list Wire)
    (supply : Component) :
  List.find (fun c => String.eqb (comp_type c) ComponentTypes.SUPPLY) components
  = Some supply ->
  let adj := buildAdjacency components wires in
  let res := analysis hypot components wires in
  let joined x y :=
    ∃ a b, termIdByName supply x = Some a ∧ truthy a = true
           ∧ termIdByName supply y = Some b ∧ connected adj a b in
  (mkShort "L–N" true ∈ shorts res ↔ joined "L" "N")
  ∧ (mkShort "L–E" true ∈ shorts res ↔ joined "L" "E")
  ∧ (neShort res = true ↔ joined "N" "E")
  ∧ (length (shorts res) <= 2
     ∧ forall s, s ∈ shorts res -> s = mkShort "L–N" true ∨ s = mkShort "L–E" true).
Proof.
  intros Hsupply adj res joined. unfold res, analysis. rewrite Hsupply.
  cbn [shorts neShort]. fold adj.
  pose proof (has_id_reachFrom adj (termIdByName supply "L") (termIdByName supply "N")) as HLN.
  pose proof (has_id_reachFrom adj (termIdByName supply "L") (termIdByName supply "E")) as HLE.
  pose proof (has_id_reachFrom adj (termIdByName supply "N") (termIdByName supply "E")) as HNE.
  fold (joined "L" "N") in HLN. fold (joined "L" "E") in HLE. fold (joined "N" "E") in HNE.
  set (cLN := truthy_opt (termIdByName supply "L")
              && has_id (reachFrom adj (termIdByName supply "L")) (termIdByName supply "N"))
    in *.
  set (cLE := truthy_opt (termIdByName supply "L")
              && has_id (reachFrom adj (termIdByName supply "L")) (termIdByName supply "E"))
    in *.
  split; [|split; [|split; [exact HNE|split]]].
  - rewrite <- HLN. destruct cLN, cLE; simpl;
      rewrite ?elem_of_cons, ?elem_of_nil; intuition discriminate.
  - rewrite <- HLE. destruct cLN, cLE; simpl;
      rewrite ?elem_of_cons, ?elem_of_nil; intuition discriminate.
  - destruct cLN, cLE; simpl; lia.
  - intros s. destruct cLN, cLE; simpl; rewrite ?elem_of_cons, ?elem_of_nil; tauto.
Qed.

Lemma shorts_empty (components : list Component) (wires : list Wire) (supply : Component) :
  List.find (fun c => String.eqb (comp_type c) ComponentTypes.SUPPLY) components
  = Some supply ->
  let adj := buildAdjacency components wires in
  length (shorts (analysis hypot components wires)) = 0%nat
  ↔ truthy_opt (termIdByName supply "L")
    && has_id (reachFrom adj (termIdByName supply "L")) (termIdByName supply "N") = false
    ∧ truthy_opt (termIdByName supply "L")
      && has_id (reachFrom adj (termIdByName supply "L")) (termIdByName supply "E") = false.
Proof.
  intros Hsupply adj. unfold analysis. rewrite Hsupply. cbn [shorts]. fold adj.
  destruct (_ && has_id _ (termIdByName supply "N")),
           (_ && has_id _ (termIdByName supply "E")); simpl; intuition (congruence || lia).
Qed.

(** X23.  A lamp is reported on exactly when its L terminal is connected
    to the supply's Line, its N terminal to the supply's Neutral, and
    the supply's Line is connected neither to its Neutral nor to its
    Earth.  The L and N terminals of a lamp that is on are not
    connected to each other. *)
Theorem lampOn_iff (components : list Component) (wires : list Wire)
    (supply c : Component) :
  List.find (fun c => String.eqb (comp_type c) ComponentTypes.SUPPLY) components
  = Some supply ->
  let adj := buildAdjacency components wires in
  (lampOn hypot components wires supply c = true
   ↔ ∃ sl sn l n,
       termIdByName supply "L" = Some sl ∧ truthy sl = true
       ∧ termIdByName supply "N" = Some sn ∧ truthy sn = true
       ∧ termIdByName c "L" = Some l ∧ truthy l = true
       ∧ termIdByName c "N" = Some n ∧ truthy n = true
       ∧ connected adj sl l ∧ connected adj sn n
       ∧ ¬ connected adj sl sn
       ∧ forall se, termIdByName supply "E" = Some se -> ¬ connected adj sl se)
  ∧ (lampOn hypot components wires supply c = true ->
     forall l n, termIdByName c "L" = Some l -> termIdByName c "N" = Some n ->
                 ¬ connected adj l n).
Proof.
  intros Hsupply adj.
  assert (forall a b, connected adj a b -> connected adj b a) as Hsym.
  { apply connected_sym. intros a b. rewrite !adjacent_string. unfold adj.
    rewrite buildAdjacency_edges. apply adjacent_foldl_addEdge_sym. }
  assert (lampOn hypot components wires supply c = true
   ↔ ∃ sl sn l n,
       termIdByName supply "L" = Some sl ∧ truthy sl = true
       ∧ termIdByName supply "N" = Some sn ∧ truthy sn = true
       ∧ termIdByName c "L" = Some l ∧ truthy l = true
       ∧ termIdByName c "N" = Some n ∧ truthy n = true
       ∧ connected adj sl l ∧ connected adj sn n
       ∧ ¬ connected adj sl sn
       ∧ forall se, termIdByName supply "E" = Some se -> ¬ connected adj sl se) as Hiff.
  { unfold lampOn. fold adj.
    rewrite !andb_true_iff, bool_decide_eq_true, (shorts_empty _ _ _ Hsupply). fold adj.
    rewrite !has_id_reachFrom_true.
    rewrite <- !not_true_iff_false, !has_id_reachFrom.
    split.
    - intros ((((Htl & Htn) & (sl & l & HsL & Hsl & HL & Hcl))
               & (sn & n & HsN & Hsn & HN & Hcn)) & Hno1 & Hno2).
      exists sl, sn, l, n. rewrite HL in Htl. rewrite HN in Htn. simpl in Htl, Htn.
      repeat (split; [done|]). split.
      + intros Hc. apply Hno1. eauto 10.
      + intros se HsE Hc. apply Hno2. eauto 10.
    - intros (sl & sn & l & n & HsL & Hsl & HsN & Hsn & HL & Hl & HN & Hn
              & Hcl & Hcn & Hno1 & Hno2).
      split; [split; [split; [split|]|]|].
      + by rewrite HL.
      + by rewrite HN.
      + eauto 10.
      + eauto 10.
      + split.
        * intros (a & b & Ha & _ & Hb & Hc). rewrite HsL in Ha. rewrite HsN in Hb.
          injection Ha as <-. injection Hb as <-. done.
        * intros (a & b & Ha & _ & Hb & Hc). rewrite HsL in Ha. injection Ha as <-.
          by apply (Hno2 b). }
  split; [exact Hiff|].
  intros Hon l n HL HN Hln.
  apply Hiff in Hon as (sl & sn & l' & n' & _ & _ & _ & _ & HL' & _ & HN' & _
                        & Hcl & Hcn & Hno & _).
  rewrite HL in HL'. injection HL' as <-. rewrite HN in HN'. injection HN' as <-.
  apply Hno. etransitivity; [exact Hcl|]. etransitivity; [exact Hln|]. by apply Hsym.
Qed.
End AnalysisFaults.

(** A supply feeding one lamp over a Line and a Neutral wire. *)
Lemma analysis_faults_exact_witness :
  let components := [Examples.supply; Examples.lamp] in
  let wires := [Examples.wire "w1" "sL" "lL" "L"; Examples.wire "w5" "sN" "lN" "N"] in
  let adj := buildAdjacency components wires in
  let res := analysis hypotApprox components wires in
  let joined x y :=
    ∃ a b, termIdByName Examples.supply x = Some a ∧ truthy a = true
           ∧ termIdByName Examples.supply y = Some b ∧ connected adj a b in
  (mkShort "L–N" true ∈ shorts res ↔ joined "L" "N")
  ∧ (mkShort "L–E" true ∈ shorts res ↔ joined "L" "E")
  ∧ (neShort res = true ↔ joined "N" "E")
  ∧ (length (shorts res) <= 2
     ∧ forall s, s ∈ shorts res -> s = mkShort "L–N" true ∨ s = mkShort "L–E" true).
Proof.
  intros components wires.
  apply (analysis_faults_exact hypotApprox components wires Examples.supply).
  reflexivity.
Defined.

Lemma lampOn_iff_witness :
  let components := [Examples.supply; Examples.lamp] in
  let wires := [Examples.wire "w1" "sL" "lL" "L"; Examples.wire "w5" "sN" "lN" "N"] in
  let adj := buildAdjacency components wires in
  (lampOn hypotApprox components wires Examples.supply Examples.lamp = true
   ↔ ∃ sl sn l n,
       termIdByName Examples.supply "L" = Some sl ∧ truthy sl = true
       ∧ termIdByName Examples.supply "N" = Some sn ∧ truthy sn = true
       ∧ termIdByName Examples.lamp "L" = Some l ∧ truthy l = true
       ∧ termIdByName Examples.lamp "N" = Some n ∧ truthy n = true
       ∧ connected adj sl l ∧ connected adj sn n
       ∧ ¬ connected adj sl sn
       ∧ forall se, termIdByName Examples.supply "E" = Some se -> ¬ connected adj sl se)
  ∧ (lampOn hypotApprox components wires Examples.supply Examples.lamp = true ->
     forall l n, termIdByName Examples.lamp "L" = Some l ->
                 termIdByName Examples.lamp "N" = Some n -> ¬ connected adj l n).
Proof.
  intros components wires.
  apply (lampOn_iff hypotApprox components wires Examples.supply Examples.lamp).
  reflexivity.
Defined.

(** The lamp of the example is on; with the Line wire also landed on
    the supply's Neutral it is off. *)
Example lamp_example :
  analysisLamps hypotApprox [Examples.supply; Examples.lamp]
    [Examples.wire "w1" "sL" "lL" "L"; Examples.wire "w5" "sN" "lN" "N"] = [("lamp", true)]
  ∧ analysisLamps hypotApprox [Examples.supply; Examples.lamp]
      [Examples.wire "w1" "sL" "lL" "L"; Examples.wire "w5" "sN" "lN" "N";
       Examples.deadShort] = [("lamp", false)].
Proof. vm_compute. done. Qed.

(** ** The family graphs *)

Lemma omap_filter_None {A B : Type} (f : A -> option B) (P : A -> Prop)
    `{forall x, Decision (P x)} (l : list A) :
  (forall x, ¬ P x -> f x = None) -> omap f (filter P l) = omap f l.
Proof.
  intros Hf. induction l as [|x l IH]; [done|].
  rewrite filter_cons. destruct (decide (P x)) as [Hp|Hp]; csimpl; rewrite IH; [done|].
  by rewrite (Hf x Hp).
Qed.

Section FamilyGraphs.
Variable hypot : Q -> Q -> Q.

Lemma weightedEdges_closedWires (components : list Component) (wires : list Wire)
    (allowed : list string) (key : string) :
  weightedEdges hypot components (closedWires wires) allowed key
  = weightedEdges hypot components wires allowed key.
Proof.
  unfold weightedEdges, closedWires. f_equal.
  apply omap_filter_None. intros wr Hopen.
  assert (wire_fault wr = Some "open") as Hf
    by (destruct (decide (wire_fault wr = Some "open")); [done | by destruct Hopen]).
  unfold wireIncluded. by rewrite bool_decide_eq_true_2.
Qed.

(** X24.  For the weighted graphs a wire marked as an open fault is as if
    it were not drawn: the graph of every family, the three
    resistance readings and the ring status are those of the circuit
    without the open wires. *)
Theorem open_wires_are_absent (components : list Component) (wires : list Wire) :
  (forall allowed key,
     buildWeightedSubgraph hypot components wires allowed key
     = buildWeightedSubgraph hypot components (closedWires wires) allowed key)
  ∧ (forall a b, measureResistance hypot components wires a b
                 = measureResistance hypot components (closedWires wires) a b)
  ∧ ring (analysis hypot components wires)
    = ring (analysis hypot components (closedWires wires)).
Proof.
  assert (forall allowed key,
     buildWeightedSubgraph hypot components wires allowed key
     = buildWeightedSubgraph hypot components (closedWires wires) allowed key) as Hg.
  { intros allowed key. by rewrite !buildWeightedSubgraph_edges, weightedEdges_closedWires. }
  split; [exact Hg|]. split.
  - intros a b. unfold measureResistance. by rewrite !Hg.
  - unfold analysis. destruct (List.find _ components); [|done]. cbn [ring].
    by rewrite !Hg.
Qed.

Lemma typedEdges_adjacencyEdges (components : list Component) (wires : list Wire)
    (allowed : list string) (e : string * string) :
  e ∈ typedEdges components wires allowed -> e ∈ adjacencyEdges components wires.
Proof.
  unfold typedEdges. rewrite elem_of_app, list_elem_of_omap, list_elem_of_bind.
  intros [(wr & Hwr & He)|(c & He & Hc)]; apply elem_of_adjacencyEdges.
  - left. exists wr. split; [done|]. destruct (_ && _); [|done]. by injection He as <-.
  - right. exists c. split; [done|].
    unfold linkPairs in *. apply list_elem_of_omap in He as (nn & Hnn & He).
    apply list_elem_of_omap. exists nn. split; [done|].
    destruct nn as [n1 n2]. destruct (termByName c n1); [|done].
    destruct (termByName c n2); [|done]. by destruct (typedLinkKeep _ _ _).
Qed.

Lemma weightedEdges_adjacencyEdges (components : list Component) (wires : list Wire)
    (allowed : list string) (key : string) (e : string * string * JsNum) :
  e ∈ weightedEdges hypot components wires allowed key ->
  e.1 ∈ adjacencyEdges components wires.
Proof.
  unfold weightedEdges. rewrite elem_of_app, list_elem_of_omap, list_elem_of_fmap.
  intros [(wr & Hwr & He)|(p & -> & Hp)]; apply elem_of_adjacencyEdges.
  - left. exists wr. split; [done|]. destruct (wireIncluded _ _ _ _); [|done].
    by injection He as <-.
  - apply list_elem_of_bind in Hp as (c & He & Hc).
    right. exists c. split; [done|]. simpl.
    unfold linkPairs in *. apply list_elem_of_omap in He as (nn & Hnn & He).
    apply list_elem_of_omap. exists nn. split; [done|].
    destruct nn as [n1 n2]. destruct (termByName c n1); [|done].
    destruct (termByName c n2); [|done]. by destruct (typedLinkKeep _ _ _).
Qed.

(** X25.  Every family graph lies within the adjacency graph of the
    circuit: what [bfsSet] reaches in a typed or a weighted graph,
    [bfs] reaches in the adjacency graph from the same start. *)
Theorem family_reach_within_adjacency (components : list Component) (wires : list Wire)
    (allowed : list string) (key : string) (s x : string) :
  (x ∈ bfsSet (buildTypedSubgraph components wires allowed) s ->
   x ∈ bfs (buildAdjacency components wires) s)
  ∧ (x ∈ bfsSet (buildWeightedSubgraph hypot components wires allowed key) s ->
     x ∈ bfs (buildAdjacency components wires) s).
Proof.
  split; rewrite elem_of_bfsSet, elem_of_bfs; intros [_ Hreach].
  - induction Hreach as [|a b c [Hab _] _ IH]; [constructor|].
    eapply rtc_l; [|exact IH]. apply adjacent_buildAdjacency.
    apply adjacent_string in Hab. rewrite buildTypedSubgraph_edges in Hab.
    apply elem_of_nbrs_foldl_addEdge in Hab as [Hn|(u & v & Huv & Hdir)];
      [by rewrite nbrs_empty in Hn; apply elem_of_nil in Hn|].
    exists u, v. split; [by eapply typedEdges_adjacencyEdges | done].
  - induction Hreach as [|a b c [Hab _] _ IH]; [constructor|].
    eapply rtc_l; [|exact IH]. apply adjacent_buildAdjacency.
    unfold adjacent in Hab. apply list_elem_of_fmap in Hab as (d & -> & Hd).
    rewrite buildWeightedSubgraph_edges, nbrs_foldl_addWeighted, nbrs_empty in Hd.
    simpl in Hd. apply list_elem_of_bind in Hd as (e & Hd & He).
    apply weightedEdges_adjacencyEdges in He. destruct e as [[u v] rw]. simpl in *.
    exists u, v. split; [done|].
    apply elem_of_contrib in Hd as [[<- ->]|[<- ->]]; simpl; auto.
Qed.
End FamilyGraphs.

(** ** The least reading between two different terminals *)

Lemma walk_cost_floor (g : gmap string (list Edge)) (m : Q) (x y : string)
    (p : list string) (c : Q) :
  (0 <= m)%Q ->
  (forall v e, e ∈ nbrs g v -> ∃ q, w e = Fin q ∧ (m <= q)%Q) ->
  walk g x y p c -> (0 <= c)%Q ∧ (x ≠ y -> (m <= c)%Q).
Proof.
  intros Hm Hfloor Hw. induction Hw as [|y z p c e q Hw [IH0 _] He Hto Hq].
  - split; [lra | done].
  - destruct (Hfloor y e He) as (q' & Hq' & Hmq). rewrite Hq in Hq'. injection Hq' as <-.
    split; [lra | intros _; lra].
Qed.

Section Floor.
Variable hypot : Q -> Q -> Q.
Hypothesis hypot_nonneg : forall dx dy, (0 <= hypot dx dy)%Q.

Lemma buildWeightedSubgraph_floor (components : list Component) (wires : list Wire)
    (allowed : list string) (key : string) :
  forall v e, e ∈ nbrs (buildWeightedSubgraph hypot components wires allowed key) v ->
    ∃ q, w e = Fin q ∧ (CONTACT_R <= q)%Q.
Proof.
  intros v e. rewrite buildWeightedSubgraph_edges, nbrs_foldl_addWeighted, nbrs_empty.
  simpl. rewrite list_elem_of_bind. intros (ed & He & Hed).
  assert (w e = ed.2) as ->.
  { apply elem_of_contrib in He as [[_ ->]|[_ ->]]; done. }
  unfold weightedEdges in Hed. apply elem_of_app in Hed as [Hed|Hed].
  - apply list_elem_of_omap in Hed as (wr & _ & Hsel).
    destruct (wireIncluded _ _ _ wr) eqn:Hinc; [|done].
    injection Hsel as <-. simpl.
    unfold wireIncluded in Hinc. rewrite !andb_true_iff in Hinc.
    destruct Hinc as [[[_ Ha] Hb] _].
    assert (is_Some (terminalById components (wire_a wr))) as Ha'
      by (apply terminalById_is_Some, termTypeById_is_Some; by eapply has_opt_is_Some).
    assert (is_Some (terminalById components (wire_b wr))) as Hb'
      by (apply terminalById_is_Some, termTypeById_is_Some; by eapply has_opt_is_Some).
    unfold wireResistance.
    destruct (wireDistM_nonneg hypot hypot_nonneg components wr Ha' Hb') as (d & -> & Hd).
    pose proof (wireRPerM_nonneg key wr) as Hr. simpl.
    assert (0 <= d * wireRPerM key wr)%Q as Hprod by (by apply Qmult_le_0_compat).
    case_bool_decide; simpl; eexists; (split; [done|]); unfold CONTACT_R; lra.
  - apply list_elem_of_fmap in Hed as (p & -> & _). simpl.
    exists CONTACT_R. split; [done | lra].
Qed.

(** X26.  Between two different terminals the meter never reads less than
    one contact resistance (0.02 Ω): each of the three readings is
    infinite or at least that. *)
Theorem measureResistance_floor (components : list Component) (wires : list Wire)
    (a b : string) :
  a ≠ b ->
  ∃ res, measureResistance hypot components wires a b = Some res
         ∧ readingAtLeast CONTACT_R (res_L res)
         ∧ readingAtLeast CONTACT_R (res_N res)
         ∧ readingAtLeast CONTACT_R (res_E res).
Proof.
  intros Hab. unfold measureResistance.
  assert (forall allowed key,
            ∃ r, dijkstraWeighted
                   (buildWeightedSubgraph hypot components wires allowed key) a b = Some r
                 ∧ readingAtLeast CONTACT_R (R r)) as Hone.
  { intros allowed key.
    set (g := buildWeightedSubgraph hypot components wires allowed key).
    pose proof (buildWeightedSubgraph_nonneg hypot hypot_nonneg components wires allowed key)
      as Hw. fold g in Hw.
    destruct (dijkstraWeighted_dichotomy g a b Hw)
      as (r & Hr & [(HR & _)|((q & HR & _) & _)]); exists r; (split; [done|]).
    - by left.
    - right. exists q. split; [done|].
      destruct (dijkstraWeighted_walk g a b r q Hw Hr HR) as (p & c & _ & Hwalk & Hcq).
      destruct (walk_cost_floor g CONTACT_R a b p c) as [_ Hfloor];
        [unfold CONTACT_R; lra | apply buildWeightedSubgraph_floor | done |].
      specialize (Hfloor Hab). lra. }
  destruct (Hone LineTermTypes "L") as (rl & -> & Hl).
  destruct (Hone NeutralTermTypes "N") as (rn & -> & Hn).
  destruct (Hone EarthTermTypes "E") as (re & -> & He).
  simpl. eexists. split; [done|]. done.
Qed.
End Floor.

Lemma measureResistance_floor_witness :
  ∃ res, measureResistance hypotApprox RingExample.components RingExample.wires "sL" "aLi"
         = Some res
         ∧ readingAtLeast CONTACT_R (res_L res)
         ∧ readingAtLeast CONTACT_R (res_N res)
         ∧ readingAtLeast CONTACT_R (res_E res).
Proof.
  apply (measureResistance_floor hypotApprox hypotApprox_nonneg
           RingExample.components RingExample.wires "sL" "aLi").
  discriminate.
Defined.

(** The example ring with every wire drawn from its other end and the
    collection listed backwards. *)
Lemma ring_direction_independent_witness :
  ring (analysis hypotApprox RingExample.components RingExample.wires)
  = ring (analysis hypotApprox RingExample.components
            (reverse (flipWire <$> RingExample.wires))).
Proof.
  apply (ring_direction_independent hypotApprox RingExample.components
           (replicate 9 true) RingExample.wires).
  - reflexivity.
  - transitivity (flipWire <$> RingExample.wires); [reflexivity|].
    symmetry. apply reverse_Permutation.
Defined.

(** ** Readings through an intermediate terminal *)

(** When the search finds [b] from [a] and [c] from [b], it finds [c]
    from [a]. *)
Lemma dijkstraWeighted_through (g : gmap string (list Edge)) (a b c : string) :
  nonnegWeights g ->
  ∃ r1 r2 r3,
    dijkstraWeighted g a b = Some r1 ∧ dijkstraWeighted g b c = Some r2
    ∧ dijkstraWeighted g a c = Some r3
    ∧ (R r1 ≠ PInf -> R r2 ≠ PInf -> finNonneg (R r3)).
Proof.
  intros Hw.
  destruct (dijkstraWeighted_dichotomy g a b Hw) as (r1 & H1 & Hc1).
  destruct (dijkstraWeighted_dichotomy g b c Hw) as (r2 & H2 & Hc2).
  destruct (dijkstraWeighted_dichotomy g a c Hw) as (r3 & H3 & Hc3).
  exists r1, r2, r3. split; [done|]. split; [done|]. split; [done|].
  intros Hf1 Hf2.
  destruct Hc1 as [(HR1 & _)|(_ & _ & Hpa & _ & Hab)]; [done|].
  destruct Hc2 as [(HR2 & _)|(_ & _ & _ & Hpc & Hbc)]; [done|].
  destruct Hc3 as [(_ & _ & Hno)|(Hfin & _)]; [|done].
  destruct Hno. split; [done|]. split; [done|].
  unfold connected in *. by etransitivity.
Qed.

Section Through.
Variable hypot : Q -> Q -> Q.
Hypothesis hypot_nonneg : forall dx dy, (0 <= hypot dx dy)%Q.

(** X27.  Continuity carries through an intermediate terminal: in
    each family, when the meter reads a resistance other than
    infinity from [a] to [b] and from [b] to [c], it reads a finite
    non-negative resistance from [a] to [c]. *)
Theorem measureResistance_through (components : list Component) (wires : list Wire)
    (a b c : string) :
  ∃ r1 r2 r3,
    measureResistance hypot components wires a b = Some r1
    ∧ measureResistance hypot components wires b c = Some r2
    ∧ measureResistance hypot components wires a c = Some r3
    ∧ (res_L r1 ≠ PInf -> res_L r2 ≠ PInf -> finNonneg (res_L r3))
    ∧ (res_N r1 ≠ PInf -> res_N r2 ≠ PInf -> finNonneg (res_N r3))
    ∧ (res_E r1 ≠ PInf -> res_E r2 ≠ PInf -> finNonneg (res_E r3)).
Proof.
  unfold measureResistance.
  assert (forall allowed key,
            let g := buildWeightedSubgraph hypot components wires allowed key in
            ∃ r1 r2 r3,
              dijkstraWeighted g a b = Some r1 ∧ dijkstraWeighted g b c = Some r2
              ∧ dijkstraWeighted g a c = Some r3
              ∧ (R r1 ≠ PInf -> R r2 ≠ PInf -> finNonneg (R r3))) as Hone.
  { intros allowed key. apply dijkstraWeighted_through.
    by apply buildWeightedSubgraph_nonneg. }
  destruct (Hone LineTermTypes "L") as (l1 & l2 & l3 & -> & -> & -> & Hl).
  destruct (Hone NeutralTermTypes "N") as (n1 & n2 & n3 & -> & -> & -> & Hn).
  destruct (Hone EarthTermTypes "E") as (e1 & e2 & e3 & -> & -> & -> & He).
  simpl. eexists _, _, _. split; [done|]. split; [done|]. split; [done|]. done.
Qed.
End Through.

(** Supply → socket A → socket B of the example ring. *)
Lemma measureResistance_through_witness :
  ∃ r1 r2 r3,
    measureResistance hypotApprox RingExample.components RingExample.wires "sL" "aLi" = Some r1
    ∧ measureResistance hypotApprox RingExample.components RingExample.wires "aLi" "bLi"
      = Some r2
    ∧ measureResistance hypotApprox RingExample.components RingExample.wires "sL" "bLi"
      = Some r3
    ∧ (res_L r1 ≠ PInf -> res_L r2 ≠ PInf -> finNonneg (res_L r3))
    ∧ (res_N r1 ≠ PInf -> res_N r2 ≠ PInf -> finNonneg (res_N r3))
    ∧ (res_E r1 ≠ PInf -> res_E r2 ≠ PInf -> finNonneg (res_E r3)).
Proof.
  apply (measureResistance_through hypotApprox hypotApprox_nonneg
           RingExample.components RingExample.wires "sL" "aLi" "bLi").
Defined.

(** ** Dragging with snap-to-grid, and the marquee *)

Lemma mathRound_near (v : Q) :
  (v - (1 # 2) < inject_Z (mathRound v))%Q ∧ (inject_Z (mathRound v) <= v + (1 # 2))%Q.
Proof.
  unfold mathRound.
  pose proof (Qfloor_le (v + (1 # 2))) as Hle.
  pose proof (Qlt_floor (v + (1 # 2))) as Hlt.
  rewrite inject_Z_plus in Hlt. change (inject_Z 1) with 1%Q in Hlt. split; lra.
Qed.

Lemma snapCoord_spec (v : Q) :
  onGrid (snapCoord true v)
  ∧ (v - 10 < snapCoord true v)%Q ∧ (snapCoord true v <= v + 10)%Q.
Proof.
  unfold snapCoord, onGrid. split; [eauto|].
  destruct (mathRound_near (v / gridSize)) as [Hlo Hhi].
  assert (v == (v / gridSize) * gridSize)%Q as Hv by (unfold gridSize; field).
  set (r := inject_Z (mathRound (v / gridSize))) in *.
  set (y := (v / gridSize)%Q) in *. unfold gridSize in *. split; lra.
Qed.

Lemma snappedFrom_snapCoord (snapToGrid : bool) (p : Q) :
  snappedFrom snapToGrid p (snapCoord snapToGrid p).
Proof.
  destruct snapToGrid; [|reflexivity].
  unfold snappedFrom. apply snapCoord_spec.
Qed.

Lemma find_first {A : Type} (f : A -> bool) (pre post : list A) (o : A) :
  (forall v, v ∈ pre -> f v = false) -> f o = true ->
  List.find f (pre ++ o :: post) = Some o.
Proof.
  intros Hpre Ho. induction pre as [|v pre IH]; simpl.
  - by rewrite Ho.
  - rewrite (Hpre v) by left. apply IH. intros u Hu. apply Hpre. by right.
Qed.

(** X28.  Dragging: every component keeps its identifier and its
    terminals.  In a multi drag a component without an entry in the
    offsets is unchanged, and one with entries is moved by its first
    entry; in a single drag the component of the drag is moved by the
    offset of the drag and every other is unchanged.  A moved
    component changes in its coordinates only: with snap-to-grid each
    is a multiple of the grid size within half a cell (10) of the
    pointer coordinate less the offset, without it it is the pointer
    coordinate less the offset. *)
Theorem dragComponents_snaps (snapToGrid : bool) (drag : Drag) (mx my : Q)
    (components : list Component) :
  Forall2 (fun c c' =>
             comp_id c' = comp_id c ∧ comp_terminals c' = comp_terminals c
             ∧ (forall offsets,
                  drag_mode drag = "multi" -> drag_offsets drag = Some offsets ->
                  ((forall v, v ∈ offsets -> off_id v ≠ comp_id c) -> c' = c)
                  ∧ (forall pre o post,
                       offsets = pre ++ o :: post ->
                       (forall v, v ∈ pre -> off_id v ≠ comp_id c) ->
                       off_id o = comp_id c ->
                       draggedBy snapToGrid mx my (off_dx o) (off_dy o) c c'))
             ∧ (drag_mode drag ≠ "multi" ∨ drag_offsets drag = None ->
                (comp_id c ≠ drag_id drag -> c' = c)
                ∧ (comp_id c = drag_id drag ->
                   draggedBy snapToGrid mx my (drag_dx drag) (drag_dy drag) c c')))
          components (dragComponents snapToGrid drag mx my components).
Proof.
  unfold dragComponents.
  destruct (String.eqb (drag_mode drag) "multi") eqn:Hmode;
    [apply String.eqb_eq in Hmode | apply String.eqb_neq in Hmode].
  1: destruct (drag_offsets drag) as [offsets|] eqn:Hoff.
  - apply Forall2_fmap_r, Forall_Forall2_diag, Forall_forall. intros c _.
    unfold compose. cbn beta.
    assert (forall o, List.find (fun v => String.eqb (off_id v) (comp_id c)) offsets = o ->
              match o with
              | None => forall v, v ∈ offsets -> off_id v ≠ comp_id c
              | Some o => ∃ pre post, offsets = pre ++ o :: post
                                      ∧ (forall v, v ∈ pre -> off_id v ≠ comp_id c)
                                      ∧ off_id o = comp_id c
              end) as Hfind.
    { intros o. clear Hoff. induction offsets as [|v l IH] in o |- *; simpl.
      - intros <- v Hv. by apply elem_of_nil in Hv.
      - destruct (String.eqb (off_id v) (comp_id c)) eqn:Hv.
        + intros <-. exists [], l. apply String.eqb_eq in Hv.
          split; [done|]. split; [|done]. intros u Hu. by apply elem_of_nil in Hu.
        + apply String.eqb_neq in Hv. intros Ho. specialize (IH o Ho).
          destruct o as [o|].
          * destruct IH as (pre & post & -> & Hpre & Hid).
            exists (v :: pre), post. split; [done|]. split; [|done].
            intros u [->|Hu]%elem_of_cons; auto.
          * intros u [->|Hu]%elem_of_cons; auto. }
    specialize (Hfind _ eq_refl).
    destruct (List.find (fun v => String.eqb (off_id v) (comp_id c)) offsets) as [o|].
    + destruct Hfind as (pre & post & Hsplit & Hpre & Hid).
      split; [done|]. split; [done|]. split; [|intros [?|?]; done].
      intros offsets' _ [= <-]. split.
      * intros Hnone. destruct (Hnone o); [|done].
        rewrite Hsplit. apply elem_of_app. right. left.
      * intros pre' o' post' Hsplit' Hpre' Hid'.
        assert (o' = o) as ->.
        { assert (List.find (fun v => String.eqb (off_id v) (comp_id c)) offsets = Some o)
            as H1.
          { rewrite Hsplit. apply find_first; [|by apply String.eqb_eq].
            intros v Hv. by apply String.eqb_neq, Hpre. }
          assert (List.find (fun v => String.eqb (off_id v) (comp_id c)) offsets = Some o')
            as H2.
          { rewrite Hsplit'. apply find_first; [|by apply String.eqb_eq].
            intros v Hv. by apply String.eqb_neq, Hpre'. }
          congruence. }
        eexists _, _. split; [reflexivity|]. split; apply snappedFrom_snapCoord.
    + split; [done|]. split; [done|]. split; [|intros [?|?]; done].
      intros offsets' _ [= <-]. split; [done|].
      intros pre o post -> _ Hid. destruct (Hfind o); [|done].
      apply elem_of_app. right. left.
  - apply Forall2_fmap_r, Forall_Forall2_diag, Forall_forall. intros c _.
    unfold compose. cbn beta zeta.
    destruct (String.eqb (comp_id c) (drag_id drag)) eqn:Hid;
      [apply String.eqb_eq in Hid | apply String.eqb_neq in Hid].
    + split; [done|]. split; [done|]. split; [intros ? _ ?; done|].
      intros _. split; [done|]. intros _.
      eexists _, _. split; [reflexivity|]. split; apply snappedFrom_snapCoord.
    + split; [done|]. split; [done|]. split; [intros ? _ ?; done|].
      intros _. split; [done|]. done.
  - apply Forall2_fmap_r, Forall_Forall2_diag, Forall_forall. intros c _.
    unfold compose. cbn beta zeta.
    destruct (String.eqb (comp_id c) (drag_id drag)) eqn:Hid;
      [apply String.eqb_eq in Hid | apply String.eqb_neq in Hid].
    + split; [done|]. split; [done|]. split; [intros ? ? ?; done|].
      intros _. split; [done|]. intros _.
      eexists _, _. split; [reflexivity|]. split; apply snappedFrom_snapCoord.
    + split; [done|]. split; [done|]. split; [intros ? ? ?; done|].
      intros _. split; [done|]. done.
Qed.

(** The lamp at (200, 0), grabbed 5 px inside its corner and dragged
    with the pointer at (233, 47), snaps to (220, 40); the supply stays. *)
Example drag_example :
  (fun c => (comp_id c, comp_x c, comp_y c))
    <$> dragComponents true (mkDrag "lamp" 5 5 "single" None) 233 47
          [Examples.supply; Examples.lamp]
  = [("sup", 0%Q, 0%Q); ("lamp", 220%Q, 40%Q)].
Proof. vm_compute. reflexivity. Qed.

Lemma Qmin_comm (x y : Q) : (Qmin x y == Qmin y x)%Q.
Proof.
  destruct (Qmin_spec x y) as [[? ->]|[? ->]], (Qmin_spec y x) as [[? ->]|[? ->]]; lra.
Qed.

Lemma Qltb_proper (x x' y y' : Q) : (x == x')%Q -> (y == y')%Q -> Qltb x y = Qltb x' y'.
Proof.
  intros Hx Hy. destruct (Qltb x' y') eqn:H'.
  - apply Qltb_lt in H'. apply Qltb_lt. lra.
  - apply Qltb_ge in H'. apply Qltb_ge. lra.
Qed.

Lemma Qle_bool_proper (x x' y y' : Q) :
  (x == x')%Q -> (y == y')%Q -> Qle_bool x y = Qle_bool x' y'.
Proof.
  intros Hx Hy. destruct (Qle_bool x' y') eqn:H'.
  - apply Qle_bool_iff in H'. apply Qle_bool_iff. lra.
  - apply not_true_iff_false. rewrite Qle_bool_iff.
    apply not_true_iff_false in H'. rewrite Qle_bool_iff in H'. lra.
Qed.

Lemma inMarquee_proper (a a' b b' c c' d d' : Q) (x : Component) :
  (a == a')%Q -> (b == b')%Q -> (c == c')%Q -> (d == d')%Q ->
  inMarquee a b c d x = inMarquee a' b' c' d' x.
Proof.
  intros Ha Hb Hc Hd. unfold inMarquee. cbn zeta.
  rewrite (Qltb_proper b b' (comp_x x) (comp_x x)) by (done || reflexivity).
  rewrite (Qltb_proper (comp_x x + 150) (comp_x x + 150) a a') by (done || reflexivity).
  rewrite (Qltb_proper d d' (comp_y x) (comp_y x)) by (done || reflexivity).
  by rewrite (Qltb_proper (comp_y x + _) (comp_y x + _) c c') by (done || reflexivity).
Qed.

Lemma pointInMarquee_proper (a a' b b' c c' d d' : Q) (p : option (Q * Q)) :
  (a == a')%Q -> (b == b')%Q -> (c == c')%Q -> (d == d')%Q ->
  pointInMarquee a b c d p = pointInMarquee a' b' c' d' p.
Proof.
  intros Ha Hb Hc Hd. destruct p as [[px py]|]; [|done]. simpl.
  rewrite (Qle_bool_proper a a' px px) by (done || reflexivity).
  rewrite (Qle_bool_proper px px b b') by (done || reflexivity).
  rewrite (Qle_bool_proper c c' py py) by (done || reflexivity).
  by rewrite (Qle_bool_proper py py d d') by (done || reflexivity).
Qed.

(** X29.  The marquee selects the same components and wires whichever of
    its corners the drag started from, and a wire it selects has both
    ends inside the rectangle. *)
Theorem marqueeSelect_any_corner (components : list Component) (wires : list Wire)
    (x0 y0 x1 y1 : Q) :
  marqueeSelect components wires x1 y1 x0 y0 = marqueeSelect components wires x0 y0 x1 y1
  ∧ marqueeSelect components wires x1 y0 x0 y1 = marqueeSelect components wires x0 y0 x1 y1
  ∧ forall id, id ∈ sel_wires (marqueeSelect components wires x0 y0 x1 y1) ->
      ∃ wr pa pb, wr ∈ wires ∧ wire_id wr = id
                  ∧ terminalAbsPosById components (wire_a wr) = Some pa
                  ∧ terminalAbsPosById components (wire_b wr) = Some pb
                  ∧ (Qmin x0 x1 <= pa.1 <= Qmax x0 x1)%Q ∧ (Qmin y0 y1 <= pa.2 <= Qmax y0 y1)%Q
                  ∧ (Qmin x0 x1 <= pb.1 <= Qmax x0 x1)%Q ∧ (Qmin y0 y1 <= pb.2 <= Qmax y0 y1)%Q.
Proof.
  assert (forall a b c d a' b' c' d',
            (a == a')%Q -> (b == b')%Q -> (c == c')%Q -> (d == d')%Q ->
            mkSelection
              (comp_id <$> filter (fun c0 => inMarquee a b c d c0 = true) components)
              (wire_id <$> filter (fun wr =>
                 pointInMarquee a b c d (terminalAbsPosById components (wire_a wr))
                 && pointInMarquee a b c d (terminalAbsPosById components (wire_b wr))
                 = true) wires)
            = mkSelection
                (comp_id <$> filter (fun c0 => inMarquee a' b' c' d' c0 = true) components)
                (wire_id <$> filter (fun wr =>
                   pointInMarquee a' b' c' d' (terminalAbsPosById components (wire_a wr))
                   && pointInMarquee a' b' c' d' (terminalAbsPosById components (wire_b wr))
                   = true) wires)) as Hsame.
  { intros a b c d a' b' c' d' Ha Hb Hc Hd. f_equal; f_equal; apply list_filter_iff.
    - intros x. by rewrite (inMarquee_proper a a' b b' c c' d d').
    - intros x. by rewrite !(pointInMarquee_proper a a' b b' c c' d d'). }
  split; [|split].
  - unfold marqueeSelect. apply Hsame; apply Qmin_comm || apply Qmax_comm.
  - unfold marqueeSelect. apply Hsame;
      try apply Qmin_comm; try apply Qmax_comm; reflexivity.
  - unfold marqueeSelect. cbn [sel_wires]. intros id Hid.
    apply list_elem_of_fmap in Hid as (wr & -> & Hwr).
    apply list_elem_of_filter in Hwr as [Hin Hwr].
    apply andb_true_iff in Hin as [Ha Hb].
    destruct (terminalAbsPosById components (wire_a wr)) as [pa|] eqn:Hpa; [|done].
    destruct (terminalAbsPosById components (wire_b wr)) as [pb|] eqn:Hpb; [|done].
    cbn [pointInMarquee] in Ha, Hb. rewrite !andb_true_iff, !Qle_bool_iff in Ha, Hb.
    exists wr, pa, pb. tauto.
Qed.
